(** * pulp-to-lua: the PulpScript transpiler ([pulpscript.py])

    A shallow embedding of the code generator that turns a parsed PulpScript
    program into Lua text, and the properties its specification states.

    Conventions of the embedding.
    - A Python [str] is a [string]; a character is a code point below 256.
    - A parsed script is JSON: a [node] is a string, an integer, [None] or a
      list of nodes.  Floats, booleans and objects do not occur in this
      model of the tree.
    - [PulpScriptContext] is the record [Ctx]; every function of the source
      that reads or writes it is a computation in the monad [M], which
      threads the context and can stop with an exception.
    - The block table [ctx.blocks] is part of the context: the source
      rewrites commands inside it ([optimize_name_ref]), and later reads see
      the rewritten command.
    - Blocks refer to blocks by index, so the compiler's recursion is not
      structural; the recursive entry points take their callees from a
      record [Rec], and [compiler] closes the loop with a recursion depth.
      Python's own limit on the depth of recursion is not modelled. *)

From Stdlib Require Import ZArith DecimalString.
From Stdlib Require Import Ascii.
From Stdlib Require String.
From stdpp Require Import base gmap strings list sorting.

Set Warnings "-register-all".
Local Open Scope Z_scope.

(** ** Python string operations *)

Module Py.

Definition dq : string := String (Ascii.ascii_of_nat 34) EmptyString.
Definition nl : string := String (Ascii.ascii_of_nat 10) EmptyString.
Definition ff : string := String (Ascii.ascii_of_nat 12) EmptyString.
Definition bs : string := String (Ascii.ascii_of_nat 92) EmptyString.

Definition code (c : ascii) : N := Ascii.N_of_ascii c.

Definition in_range (lo hi : N) (c : ascii) : bool :=
  ((lo <=? code c) && (code c <=? hi))%N.

Definition is_ascii_letter (c : ascii) : bool :=
  in_range 65 90 c || in_range 97 122 c.

Definition is_ascii_digit (c : ascii) : bool := in_range 48 57 c.

Definition is_underscore (c : ascii) : bool := (code c =? 95)%N.

(** [\w] of a [str] pattern: alphanumeric in the Unicode sense, or [_]. *)
Definition is_word (c : ascii) : bool :=
  is_ascii_letter c || is_ascii_digit c || is_underscore c
  || (code c =? 170)%N || (code c =? 178)%N || (code c =? 179)%N
  || (code c =? 181)%N || (code c =? 185)%N || (code c =? 186)%N
  || in_range 188 190 c || in_range 192 214 c || in_range 216 246 c
  || in_range 248 255 c.

(** [str.isspace] on one character. *)
Definition is_space (c : ascii) : bool :=
  in_range 9 13 c || in_range 28 32 c || (code c =? 133)%N || (code c =? 160)%N.

(** [sub in s] for a one-character [sub]. *)
Fixpoint contains_char (c : ascii) (s : string) : bool :=
  match s with
  | EmptyString => false
  | String d s' => bool_decide (c = d) || contains_char c s'
  end.

Definition startswith (s p : string) : bool := String.prefix p s.

(** [s[n:]] *)
Fixpoint drop_chars (n : nat) (s : string) : string :=
  match n, s with
  | O, _ => s
  | S n', String _ s' => drop_chars n' s'
  | S _, EmptyString => EmptyString
  end.

(** [s[:-1]] *)
Fixpoint drop_last (s : string) : string :=
  match s with
  | EmptyString => EmptyString
  | String c EmptyString => EmptyString
  | String c s' => String c (drop_last s')
  end.

Fixpoint lstrip (s : string) : string :=
  match s with
  | EmptyString => EmptyString
  | String c s' => if is_space c then lstrip s' else s
  end.

Definition rstrip (s : string) : string :=
  String.rev (lstrip (String.rev s)).

Definition strip (s : string) : string := rstrip (lstrip s).

(** [s.replace(old, new)] for a non-empty [old]: occurrences are found from
    the left and do not overlap; [skip] counts the characters of a match
    still to be passed over. *)
Fixpoint replace_from (old new : string) (skip : nat) (s : string) : string :=
  match s with
  | EmptyString => EmptyString
  | String c s' =>
      match skip with
      | S k => replace_from old new k s'
      | O =>
          if String.prefix old s
          then new +:+ replace_from old new (Nat.pred (String.length old)) s'
          else String c (replace_from old new O s')
      end
  end.

Fixpoint intersperse_str (new s : string) : string :=
  match s with
  | EmptyString => EmptyString
  | String c s' => String c (new +:+ intersperse_str new s')
  end.

Definition replace (s old new : string) : string :=
  match old with
  | EmptyString => new +:+ intersperse_str new s
  | _ => replace_from old new O s
  end.

(** [s.split(sep)] for a one-character [sep]. *)
Fixpoint split_char (c : ascii) (s : string) : list string :=
  match s with
  | EmptyString => [EmptyString]
  | String d s' =>
      match split_char c s' with
      | w :: ws => if bool_decide (c = d) then EmptyString :: w :: ws
                   else String d w :: ws
      | [] => []
      end
  end.

(** [str(n)] for an [int]. *)
Definition str_of_Z (z : Z) : string := NilZero.string_of_int (Z.to_int z).

(** [s * n] *)
Fixpoint repeat_str (s : string) (n : nat) : string :=
  match n with
  | O => EmptyString
  | S n' => s +:+ repeat_str s n'
  end.

Fixpoint concat_str (l : list string) : string :=
  match l with
  | [] => EmptyString
  | s :: l' => s +:+ concat_str l'
  end.

(** [sep.join(l)], also the shape of the "first / not first" loops. *)
Fixpoint join (sep : string) (l : list string) : string :=
  match l with
  | [] => EmptyString
  | [s] => s
  | s :: l' => s +:+ sep +:+ join sep l'
  end.

(** [l[i]] for a Python list and an [int] index, with the position found. *)
Definition index_pos {A} (l : list A) (i : Z) : option nat :=
  let n := Z.of_nat (length l) in
  if (0 <=? i) && (i <? n) then Some (Z.to_nat i)
  else if (i <? 0) && (- n <=? i) then Some (Z.to_nat (n + i))
  else None.

Definition index {A} (l : list A) (i : Z) : option A :=
  match index_pos l i with
  | Some p => l !! p
  | None => None
  end.

(** [sorted(l)] on strings: ascending by code point. *)
Definition sorted (l : list string) : list string := merge_sort String.le l.

End Py.

Import Py.

(** ** The parsed tree *)

Inductive node : Type :=
  | NStr (s : string)
  | NInt (z : Z)
  | NNone
  | NList (l : list node).

(** [n == s] for a string constant [s]. *)
Definition is_str (n : node) (s : string) : bool :=
  match n with
  | NStr t => bool_decide (t = s)
  | _ => false
  end.

(** [n in l] for a list [l] of string constants. *)
Definition str_in (n : node) (l : list string) : bool :=
  match n with
  | NStr t => bool_decide (t ∈ l)
  | _ => false
  end.

(** ** The transpilation context *)

(** A value stored by a [[PTL]] directive: [False], or the text. *)
Inductive ptl_value : Type :=
  | PFalse
  | PText (s : string).

Record Ctx : Type := mkCtx {
  indent : Z;
  errors : list string;
  vars : gset string;
  var_usage : gmap string Z;
  full_mimics : list (string * string * node);
  funccache : list (gset string);
  evobjs : list string;
  ext_pdxinfo : gmap string string;
  ext_ptl : gmap string ptl_value;
  script_tags : gmap string (string * string);
  (* attributes the driver and [transpile_event] attach to the context *)
  blocks : list (list node);
  comments_block : list string;
  self_evnames : list string;
  root_evobj : string;
}.

Definition set_indent (v : Z) (c : Ctx) : Ctx :=
  mkCtx v (errors c) (vars c) (var_usage c) (full_mimics c) (funccache c)
    (evobjs c) (ext_pdxinfo c) (ext_ptl c) (script_tags c) (blocks c)
    (comments_block c) (self_evnames c) (root_evobj c).
Definition set_errors (v : list string) (c : Ctx) : Ctx :=
  mkCtx (indent c) v (vars c) (var_usage c) (full_mimics c) (funccache c)
    (evobjs c) (ext_pdxinfo c) (ext_ptl c) (script_tags c) (blocks c)
    (comments_block c) (self_evnames c) (root_evobj c).
Definition set_vars (v : gset string) (c : Ctx) : Ctx :=
  mkCtx (indent c) (errors c) v (var_usage c) (full_mimics c) (funccache c)
    (evobjs c) (ext_pdxinfo c) (ext_ptl c) (script_tags c) (blocks c)
    (comments_block c) (self_evnames c) (root_evobj c).
Definition set_var_usage (v : gmap string Z) (c : Ctx) : Ctx :=
  mkCtx (indent c) (errors c) (vars c) v (full_mimics c) (funccache c)
    (evobjs c) (ext_pdxinfo c) (ext_ptl c) (script_tags c) (blocks c)
    (comments_block c) (self_evnames c) (root_evobj c).
Definition set_full_mimics (v : list (string * string * node)) (c : Ctx) : Ctx :=
  mkCtx (indent c) (errors c) (vars c) (var_usage c) v (funccache c)
    (evobjs c) (ext_pdxinfo c) (ext_ptl c) (script_tags c) (blocks c)
    (comments_block c) (self_evnames c) (root_evobj c).
Definition set_funccache (v : list (gset string)) (c : Ctx) : Ctx :=
  mkCtx (indent c) (errors c) (vars c) (var_usage c) (full_mimics c) v
    (evobjs c) (ext_pdxinfo c) (ext_ptl c) (script_tags c) (blocks c)
    (comments_block c) (self_evnames c) (root_evobj c).
Definition set_evobjs (v : list string) (c : Ctx) : Ctx :=
  mkCtx (indent c) (errors c) (vars c) (var_usage c) (full_mimics c)
    (funccache c) v (ext_pdxinfo c) (ext_ptl c) (script_tags c) (blocks c)
    (comments_block c) (self_evnames c) (root_evobj c).
Definition set_ext_pdxinfo (v : gmap string string) (c : Ctx) : Ctx :=
  mkCtx (indent c) (errors c) (vars c) (var_usage c) (full_mimics c)
    (funccache c) (evobjs c) v (ext_ptl c) (script_tags c) (blocks c)
    (comments_block c) (self_evnames c) (root_evobj c).
Definition set_ext_ptl (v : gmap string ptl_value) (c : Ctx) : Ctx :=
  mkCtx (indent c) (errors c) (vars c) (var_usage c) (full_mimics c)
    (funccache c) (evobjs c) (ext_pdxinfo c) v (script_tags c) (blocks c)
    (comments_block c) (self_evnames c) (root_evobj c).
Definition set_script_tags (v : gmap string (string * string)) (c : Ctx) : Ctx :=
  mkCtx (indent c) (errors c) (vars c) (var_usage c) (full_mimics c)
    (funccache c) (evobjs c) (ext_pdxinfo c) (ext_ptl c) v (blocks c)
    (comments_block c) (self_evnames c) (root_evobj c).
Definition set_blocks (v : list (list node)) (c : Ctx) : Ctx :=
  mkCtx (indent c) (errors c) (vars c) (var_usage c) (full_mimics c)
    (funccache c) (evobjs c) (ext_pdxinfo c) (ext_ptl c) (script_tags c) v
    (comments_block c) (self_evnames c) (root_evobj c).
Definition set_comments_block (v : list string) (c : Ctx) : Ctx :=
  mkCtx (indent c) (errors c) (vars c) (var_usage c) (full_mimics c)
    (funccache c) (evobjs c) (ext_pdxinfo c) (ext_ptl c) (script_tags c)
    (blocks c) v (self_evnames c) (root_evobj c).
Definition set_self_evnames (v : list string) (c : Ctx) : Ctx :=
  mkCtx (indent c) (errors c) (vars c) (var_usage c) (full_mimics c)
    (funccache c) (evobjs c) (ext_pdxinfo c) (ext_ptl c) (script_tags c)
    (blocks c) (comments_block c) v (root_evobj c).
Definition set_root_evobj (v : string) (c : Ctx) : Ctx :=
  mkCtx (indent c) (errors c) (vars c) (var_usage c) (full_mimics c)
    (funccache c) (evobjs c) (ext_pdxinfo c) (ext_ptl c) (script_tags c)
    (blocks c) (comments_block c) (self_evnames c) v.

(** [PulpScriptContext.__init__]; the block table is the driver's. *)
Definition init_ctx (blks : list (list node)) : Ctx :=
  mkCtx 1 [] ∅ ∅ [] [] [] ∅ ∅ ∅ blks [] [] EmptyString.

(** ** Computations over the context *)

(** How a call ends: with a value, with a Python exception ([Raised];
    nothing in the source catches one, so a raise ends the run), outside
    what this embedding models of Python's untyped values ([Unmodelled]),
    or with the recursion depth of the embedding used up ([OutOfFuel]). *)
Inductive outcome (A : Type) : Type :=
  | Ok (a : A)
  | Raised
  | Unmodelled
  | OutOfFuel.
Arguments Ok {A} a.
Arguments Raised {A}.
Arguments Unmodelled {A}.
Arguments OutOfFuel {A}.

Definition M (A : Type) : Type := Ctx -> outcome (A * Ctx).

Definition ret {A} (a : A) : M A := fun c => Ok (a, c).

Definition bind {A B} (m : M A) (k : A -> M B) : M B :=
  fun c =>
    match m c with
    | Ok (a, c') => k a c'
    | Raised => Raised
    | Unmodelled => Unmodelled
    | OutOfFuel => OutOfFuel
    end.

Definition raise {A} : M A := fun _ => Raised.
Definition unmodelled {A} : M A := fun _ => Unmodelled.
Definition out_of_fuel {A} : M A := fun _ => OutOfFuel.

Definition get_ctx : M Ctx := fun c => Ok (c, c).
Definition gets {A} (f : Ctx -> A) : M A := fun c => Ok (f c, c).
Definition modify (f : Ctx -> Ctx) : M unit := fun c => Ok (tt, f c).

(** A lookup that raises ([IndexError], [KeyError]) when it finds nothing. *)
Definition lookup_or_raise {A} (o : option A) : M A :=
  match o with
  | Some a => ret a
  | None => raise
  end.

(** [assert b] *)
Definition assert (b : bool) : M unit := if b then ret tt else raise.

Declare Scope pulp_scope.
Delimit Scope pulp_scope with pulp.
Notation "x <- m ;; k" := (bind m (fun x => k))
  (at level 62, m at next level, right associativity) : pulp_scope.
Local Open Scope pulp_scope.

(** [for x in l: s += f(x)], the text pieces concatenated in order. *)
Fixpoint for_concat {A} (f : A -> M string) (l : list A) : M string :=
  match l with
  | [] => ret EmptyString
  | x :: l' => s <- f x ;; t <- for_concat f l' ;; ret (s +:+ t)
  end.

(** [[f(x) for x in l]] evaluated left to right. *)
Fixpoint for_list {A B} (f : A -> M B) (l : list A) : M (list B) :=
  match l with
  | [] => ret []
  | x :: l' => y <- f x ;; ys <- for_list f l' ;; ret (y :: ys)
  end.

(** [for x in l: acc = f(acc, x)] *)
Fixpoint for_fold {A B} (f : B -> A -> M B) (acc : B) (l : list A) : M B :=
  match l with
  | [] => ret acc
  | x :: l' => acc' <- f acc x ;; for_fold f acc' l'
  end.

(** ** The context's methods *)

Definition push_funccache : M unit :=
  modify (fun c => set_funccache (funccache c ++ [∅]) c).

Definition pop_funccache : M unit :=
  modify (fun c => set_funccache (removelast (funccache c)) c).

Definition get_funccache : M (gset string) :=
  c <- get_ctx ;; lookup_or_raise (last (funccache c)).

(** [ctx.get_funccache().add(line)]: the top frame is updated in place. *)
Definition funccache_add (line : string) : M unit :=
  top <- get_funccache ;;
  modify (fun c => set_funccache (removelast (funccache c) ++ [top ∪ {[line]}]) c).

Definition push_evobj (obj : string) : M unit :=
  modify (fun c => set_evobjs (evobjs c ++ [obj]) c).

Definition pop_evobj : M unit :=
  modify (fun c => set_evobjs (removelast (evobjs c)) c).

Definition get_evobj : M string :=
  c <- get_ctx ;; lookup_or_raise (last (evobjs c)).

(** [ctx.gi()] *)
Definition gi_of (c : Ctx) : string := repeat_str "  " (Z.to_nat (indent c)).
Definition gi : M string := gets gi_of.

Definition add_indent (d : Z) : M unit :=
  modify (fun c => set_indent (indent c + d) c).

(** [ctx.errors += [msg]] *)
Definition add_error (msg : string) : M unit :=
  modify (fun c => set_errors (errors c ++ [msg]) c).

(** ** Naming and sanitization *)

(** The rest of [^[a-zA-Z_]\w*$] after the first character; [$] also
    matches just before a newline that ends the string. *)
Fixpoint word_tail (s : string) : bool :=
  match s with
  | EmptyString => true
  | String c s' =>
      if is_word c then word_tail s'
      else bool_decide (s = nl)
  end.

Definition is_id (varname : string) : bool :=
  match varname with
  | EmptyString => false
  | String c s' => (is_ascii_letter c || is_underscore c) && word_tail s'
  end.

Definition sanitize_varname (varname : string) : string :=
  if is_id varname then varname
  else "_G[" +:+ dq +:+ replace varname dq (bs +:+ dq) +:+ dq +:+ "]".

Definition usage_count (c : Ctx) (varname : string) : Z :=
  default 0 (var_usage c !! varname).

Definition pingvar (varname : string) : M string :=
  if contains_char "." varname then ret varname
  else if startswith varname "__PTLE_" then ret varname
  else
    _ <- modify (fun c =>
      set_var_usage (<[varname := usage_count c varname + 1]> (var_usage c)) c) ;;
    let varname' :=
      if startswith varname "__" then "__" +:+ varname else varname in
    let varname'' := sanitize_varname varname' in
    _ <- modify (fun c => set_vars (vars c ∪ {[varname'']}) c) ;;
    ret varname''.

Definition add_script_tag (scriptsrc name : string) : M string :=
  let san_name :=
    "__OPTTAG__" +:+ replace (replace (scriptsrc +:+ "_" +:+ name) "-" "_") " " "_" in
  c <- get_ctx ;;
  match script_tags c !! san_name with
  | Some _ => ret san_name
  | None =>
      _ <- modify (fun c => set_script_tags (<[san_name := (scriptsrc, name)]> (script_tags c)) c) ;;
      ret san_name
  end.

(** [conf.split("=")] unpacked into exactly two names. *)
Definition commentconfigure (mode conf : string) : M unit :=
  match split_char "=" conf with
  | [key; value] =>
      let key := strip key in
      let value := strip value in
      _ <- (if bool_decide (mode = "PTL") then
         let v :=
           if bool_decide (value = "0") || bool_decide (value = "False")
              || bool_decide (value = "false")
           then PFalse else PText value in
         modify (fun c => set_ext_ptl (<[key := v]> (ext_ptl c)) c)
       else ret tt) ;;
      (if bool_decide (mode = "PDXINFO") then
         modify (fun c => set_ext_pdxinfo (<[key := value]> (ext_pdxinfo c)) c)
       else ret tt)
  | _ => raise
  end.

(** ** Tables *)

Definition RELASSIGN : bool := true.

Definition compdict : gmap string string :=
  list_to_map
    [("lt", "<"); ("lte", "<="); ("gt", ">"); ("gte", ">="); ("eq", "==");
     ("neq", "~=")].

Definition funclist : list string :=
  ["goto"; "shake"; "fin"; "hide"; "draw"; "bpm"; "sound"; "invert"; "frame";
   "fill"; "swap"; "label"; "restore"; "store"; "toss"; "wait"; "say"; "ask";
   "menu"; "option"; "act"; "loop"; "once"; "stop"; "tell"; "ignore";
   "listen"; "log"; "dump"; "wait"; "window"; "crop"; "play"].

Definition exfuncs : list string :=
  ["type"; "id"; "solid"; "frame"; "floor"; "round"; "ceil"; "invert"; "name";
   "random"; "sine"; "cosine"; "tangent"; "degrees"; "radians"; "lpad";
   "rpad"].

Definition inlinefuncs : gmap string string :=
  list_to_map
    [("__fn_frame", "{0}.frame = {1}");
     ("__fn_inc", "{0} += 1");
     ("__fn_dec", "{0} -= 1");
     ("__fn_log", "__print({0})");
     ("__fn_fill",
      "__setcolour(__fillcolours[{4}]); __fillrect({0} * __pix8scale, {1} * __pix8scale, {2} * __pix8scale, {3} * __pix8scale)");
     ("__ex_frame", "({0}.frame or 0)");
     ("__ex_invert", "(__pulp.invert and 1 or 0)");
     ("__ex_degrees", "({0} * 360 / __tau)");
     ("__ex_radians", "({0} * __tau / 360)")].

Definition funcargs : gmap string (list string) :=
  list_to_map
    [("frame", ["actor"]);
     ("goto", ["x"; "y"]);
     ("tell", ["event"; "evname"; "block"]);
     ("swap", ["actor"]);
     ("label", ["x"; "y"; "len"; "lines"]);
     ("draw", ["x"; "y"]);
     ("solid", ["x"; "y"]);
     ("wait", ["actor"; "event"; "evname"; "block"]);
     ("say", ["x"; "y"; "w"; "h"; "actor"; "event"; "evname"; "block"]);
     ("ask", ["x"; "y"; "w"; "h"; "actor"; "event"; "evname"; "block"]);
     ("menu", ["x"; "y"; "w"; "h"; "actor"; "event"; "evname"; "block"]);
     ("option", ["actor"; "event"; "evname"; "block"]);
     ("window", ["x"; "y"; "w"; "h"]);
     ("fill", ["x"; "y"; "w"; "h"]);
     ("crop", ["x"; "y"; "w"; "h"]);
     ("play", ["actor"; "event"; "evname"; "block"]);
     ("once", ["actor"; "event"; "evname"; "block"]);
     ("type", ["x"; "y"]);
     ("id", ["x"; "y"])].

Definition staticfuncs : gmap string string :=
  list_to_map
    [("floor", "__floor"); ("ceil", "__ceil"); ("round", "__round");
     ("sine", "__sin"); ("cosine", "__cos"); ("sine", "__sin");
     ("tangent", "__tan"); ("random", "__random")].

(** ** Leaf functions *)

Definition escape_string (s : string) : string :=
  replace
    (replace
       (replace (replace s bs (bs +:+ bs)) nl (bs +:+ "n"))
       ff (bs +:+ "f"))
    dq (bs +:+ dq).

Definition istoken (n : node) : bool :=
  match n with
  | NStr s =>
      negb (contains_char " " s) && negb (contains_char "-" s)
      && match s with
         | EmptyString => false
         | String c _ => negb (is_ascii_digit c)
         end
  | _ => false
  end.

(** [str(x)], as an f-string or [str] formats a node.  The [repr] of a list
    is not modelled. *)
Definition format_node (n : node) : M string :=
  match n with
  | NStr s => ret s
  | NInt z => ret (str_of_Z z)
  | NNone => ret "None"
  | NList _ => unmodelled
  end.

(** Where a command object lives: block position and position in the block. *)
Definition addr : Type := nat * nat.

(** [cmd[idx] = v] on the command object at [a]. *)
Definition store_operand (a : addr) (idx : nat) (v : node) (c : Ctx) : Ctx :=
  set_blocks
    (alter
       (alter
          (fun n => match n with
                    | NList l => NList (<[idx := v]> l)
                    | _ => n
                    end)
          (snd a))
       (fst a) (blocks c))
    c.

Definition cached (decl local : string) : M string :=
  _ <- funccache_add decl ;; ret local.

Definition remap_special_varname (varname : string) : M string :=
  if bool_decide (varname = "event.px") then
    cached "local __event_px = __pulp.player.x" "__event_px"
  else if bool_decide (varname = "event.py") then
    cached "local __event_py = __pulp.player.y" "__event_py"
  else if bool_decide (varname = "event.x") then
    cached "local __event_x = __actor.x or __pulp.player.x" "__event_x"
  else if bool_decide (varname = "event.y") then
    cached "local __event_y = __actor.y or __pulp.player.y" "__event_y"
  else if bool_decide (varname = "event.dx") then
    cached "local __event_dx = event.dx or 0" "__event_dx"
  else if bool_decide (varname = "event.dy") then
    cached "local __event_dy = event.dy or 0" "__event_dy"
  else if bool_decide (varname = "event.tile") then
    cached "local __event_tile = __actor.name or 0" "__event_tile"
  else if bool_decide (varname = "event.room") then ret "event.room.name"
  else if bool_decide (varname = "event.player") then ret "__pulp.player.name"
  else if bool_decide (varname = "datetime.year") then ret "__getTime().year"
  else if bool_decide (varname = "datetime.year99") then
    ret "--[[(year99)]] (__getTime().year % 100)"
  else if bool_decide (varname = "datetime.month") then ret "__getTime().month"
  else if bool_decide (varname = "datetime.day") then ret "__getTime().day"
  else if bool_decide (varname = "datetime.weekday") then
    ret "(__getTime().weekday - 1)"
  else if bool_decide (varname = "datetime.day") then ret "__getTime().day"
  else if bool_decide (varname = "datetime.hour") then ret "__getTime().hour"
  else if bool_decide (varname = "datetime.hour12") then
    ret "--[[(hour12)]] ((__getTime().hour % 12) + 1)"
  else if bool_decide (varname = "datetime.minute") then
    ret "__getTime().minute"
  else if bool_decide (varname = "datetime.second") then
    ret "__getTime().second"
  else if bool_decide (varname = "datetime.millisecond") then
    ret "__getTime().millisecond --[[(PTL-only?)]]"
  else if bool_decide (varname = "datetime.ampm") then
    ret ("--[[(ampm)]] (__getTime().hour < 12 and " +:+ dq +:+ "am" +:+ dq
         +:+ " or " +:+ dq +:+ "pm" +:+ dq +:+ ")")
  else if bool_decide (varname = "datetime.AMPM") then
    ret ("--[[(AMPM)]] (__getTime().hour < 12 and " +:+ dq +:+ "AM" +:+ dq
         +:+ " or " +:+ dq +:+ "PM" +:+ dq +:+ ")  --[[(PTL-only?)]]")
  else if bool_decide (varname = "datetime.timestamp") then
    ret "__getSecondsSinceEpoch()"
  else if bool_decide (varname = "__PTLE_SMOOTH_MOVEMENT_SPEED") then
    ret "__pulp.PTLE_SMOOTH_MOVEMENT_SPEED"
  else if bool_decide (varname = "__PTLE_SMOOTH_OFFSET_X") then
    ret "__pulp.PTLE_SMOOTH_OFFSET_X"
  else if bool_decide (varname = "__PTLE_SMOOTH_OFFSET_Y") then
    ret "__pulp.PTLE_SMOOTH_OFFSET_Y"
  else if bool_decide (varname = "__PTLE_CONFIRM_DAS") then
    ret "__pulp.PTLE_CONFIRM_DAS"
  else if bool_decide (varname = "__PTLE_CANCEL_DAS") then
    ret "__pulp.PTLE_CANCEL_DAS"
  else if bool_decide (varname = "__PTLE_V_DAS") then ret "__pulp.PTLE_V_DAS"
  else if bool_decide (varname = "__PTLE_H_DAS") then ret "__pulp.PTLE_H_DAS"
  else ret varname.

(** [ex_get]: the name read is a string.  For another operand Python raises,
    except for a list that has ["."] among its elements, which [pingvar]
    hands back as it is. *)
Definition ex_get (expression : list node) : M string :=
  e1 <- lookup_or_raise (expression !! 1%nat) ;;
  match e1 with
  | NStr varname => v <- pingvar varname ;; remap_special_varname v
  | NList l => if existsb (fun n => is_str n ".") l then unmodelled else raise
  | _ => raise
  end.

Definition op_inc (cmd : list node) (operator : string) : M string :=
  c1 <- lookup_or_raise (cmd !! 1%nat) ;;
  match c1 with
  | NStr lvalue => ret (lvalue +:+ operator)
  | _ => raise
  end.

(** The text of the comment with index [idx], if the table has it. *)
Definition comment_text (idx : node) : M (option string) :=
  c <- get_ctx ;;
  match idx with
  | NInt i =>
      if i <? Z.of_nat (length (comments_block c)) then
        t <- lookup_or_raise (index (comments_block c) i) ;; ret (Some t)
      else ret None
  | _ => raise
  end.

Definition comment (cmd : list node) (prevline : bool) : M string :=
  let s := "--" in
  idx <- lookup_or_raise (cmd !! 1%nat) ;;
  found <- comment_text idx ;;
  let comment := default "<comment missing>" found in
  let s := if contains_char (Ascii.ascii_of_nat 10) comment then s +:+ "[[" else s in
  let stripcomment := strip comment in
  if startswith stripcomment "[LUA]" then
    let s := drop_chars 5 (strip comment) in
    ret (if startswith s " " then drop_chars 1 s else s)
  else
    _ <- (if startswith stripcomment "[PDXINFO]" then
            commentconfigure "PDXINFO" (strip (drop_chars 9 stripcomment))
          else ret tt) ;;
    _ <- (if startswith stripcomment "[PTL]" then
            commentconfigure "PTL" (strip (drop_chars 5 stripcomment))
          else ret tt) ;;
    let s := if prevline then s +:+ "^" else s in
    let s := s +:+ comment in
    let s := if contains_char (Ascii.ascii_of_nat 10) comment then s +:+ "]]" else s in
    ret s.

Fixpoint get_next_cmds_tags_loop (tags : list string) (cmds : list node)
  : M (list string) :=
  match cmds with
  | [] => ret tags
  | NList cmd :: rest =>
      op <- lookup_or_raise (cmd !! 0%nat) ;;
      if str_in op ["#"; "#$"] then
        idx <- lookup_or_raise (cmd !! 1%nat) ;;
        found <- comment_text idx ;;
        match found with
        | Some t =>
            let comment := strip t in
            if startswith comment "[" then
              get_next_cmds_tags_loop (tags ++ [comment]) rest
            else get_next_cmds_tags_loop tags rest
        | None => get_next_cmds_tags_loop tags rest
        end
      else get_next_cmds_tags_loop tags rest
  | _ :: _ => ret tags
  end.

Definition get_next_cmds_tags (cmds : list node) : M (list string) :=
  get_next_cmds_tags_loop [] cmds.

(** [assert block[0] == "block"], giving the list that [block] is. *)
Definition assert_block (block : node) : M (list node) :=
  match block with
  | NList l =>
      h <- lookup_or_raise (l !! 0%nat) ;;
      _ <- assert (is_str h "block") ;;
      ret l
  | _ => raise
  end.

(** [ctx.blocks[idx]]: the position of the block in the table. *)
Definition deref_block (idx : node) : M nat :=
  c <- get_ctx ;;
  match idx with
  | NInt i => lookup_or_raise (index_pos (blocks c) i)
  | _ => raise
  end.

(** The [for i in range(len(mainargs))] loop over an inline template. *)
Fixpoint subst_args (s : string) (i : nat) (mainargs : list string) : string :=
  match mainargs with
  | [] => s
  | a :: rest =>
      subst_args (replace s ("{" +:+ str_of_Z (Z.of_nat i) +:+ "}") a) (S i) rest
  end.

(** ** The compiler *)

(** The functions of the source that are entered recursively. *)
Record Rec : Type := mkRec {
  rec_decode_rvalue : node -> M string;
  (* [transpile_commands(ctx.blocks[p], ctx, has_funccache)] *)
  rec_transpile_commands : nat -> bool -> M string;
  rec_op_block : list node -> string -> string -> option string -> M string;
}.

Section Compiler.

(** [tile_ids], the module's table of tile names, filled by the driver. *)
Variable tile_ids : gmap string Z.

Variable rec : Rec.

Definition optimize_name_ref (a : addr) (cmd : list node) (idx : nat)
  : M (bool * list node) :=
  match cmd !! idx with
  | Some (NStr name) =>
      match tile_ids !! name with
      | Some id =>
          let v := NList [NStr "optimized-id"; NInt id; NStr name] in
          _ <- modify (store_operand a idx v) ;;
          ret (true, <[idx := v]> cmd)
      | None => ret (false, cmd)
      end
  | _ => ret (false, cmd)
  end.

(** One step of the argument loop of [opex_func]; the state is
    [(mainargs, setargs)]. *)
Definition opex_arg (st : list string * gmap string string) (arg : node)
  : M (list string * gmap string string) :=
  let '(mainargs, setargs) := st in
  let plain :=
    v <- rec_decode_rvalue rec arg ;; ret (mainargs ++ [v], setargs) in
  match arg with
  | NList al =>
      h <- lookup_or_raise (al !! 0%nat) ;;
      if is_str h "xy" then
        a1 <- lookup_or_raise (al !! 1%nat) ;;
        x <- rec_decode_rvalue rec a1 ;;
        a2 <- lookup_or_raise (al !! 2%nat) ;;
        y <- rec_decode_rvalue rec a2 ;;
        ret (mainargs, <["y" := y]> (<["x" := x]> setargs))
      else if is_str h "rect" then
        a1 <- lookup_or_raise (al !! 1%nat) ;;
        x <- rec_decode_rvalue rec a1 ;;
        a2 <- lookup_or_raise (al !! 2%nat) ;;
        y <- rec_decode_rvalue rec a2 ;;
        a3 <- lookup_or_raise (al !! 3%nat) ;;
        w <- rec_decode_rvalue rec a3 ;;
        let setargs := <["w" := w]> (<["y" := y]> (<["x" := x]> setargs)) in
        match al !! 4%nat with
        | Some a4 =>
            h <- rec_decode_rvalue rec a4 ;;
            ret (mainargs, <["h" := h]> setargs)
        | None => ret (mainargs, setargs)
        end
      else if is_str h "block" then
        b <- rec_decode_rvalue rec arg ;;
        ret (mainargs, <["block" := b]> setargs)
      else plain
  | _ => plain
  end.

(** The [funcargs[op][::-1]] loop: named slots are put in front, last
    declared name first. *)
Definition pad_args (op : string) (setargs : gmap string string)
    (mainargs : list string) : list string :=
  match funcargs !! op with
  | Some names =>
      fold_left
        (fun mainargs argname =>
           match setargs !! argname with
           | Some v => [v] ++ mainargs
           | None => ["nil"] ++ mainargs
           end)
        (rev names) mainargs
  | None => mainargs
  end.

Definition opex_func (cmd : list node) (op prefix : string) : M string :=
  let setargs : gmap string string :=
    list_to_map [("actor", "__actor"); ("event", "event"); ("evname", "__evname")] in
  st <- for_fold opex_arg ([], setargs) (drop 1 cmd) ;;
  let '(mainargs, setargs) := st in
  let mainargs := pad_args op setargs mainargs in
  match inlinefuncs !! (prefix +:+ op) with
  | Some template => ret (subst_args template 0 mainargs)
  | None =>
      let s :=
        match staticfuncs !! op with
        | Some f => f +:+ "("
        | None => "__pulp." +:+ prefix +:+ op +:+ "("
        end in
      ret (s +:+ join ", " mainargs +:+ ")")
  end.

Definition ex_format (expression : list node) : M string :=
  parts <-
    for_list
      (fun component =>
         match component with
         | NStr _ => rec_decode_rvalue rec component
         | _ =>
             v <- rec_decode_rvalue rec component ;;
             ret ("__tostring(" +:+ v +:+ ")")
         end)
      (drop 1 expression) ;;
  ret (join " .. " parts).

Definition ex_embed (expression : list node) : M string :=
  e1 <- lookup_or_raise (expression !! 1%nat) ;;
  v <- rec_decode_rvalue rec e1 ;;
  ret ("__pulp.__ex_embed(" +:+ v +:+ ")").

Definition ex_subroutine (expression : list node) : M string :=
  let s := "function(__actor, event, evname)" +:+ nl in
  _ <- add_indent 2 ;;
  e1 <- lookup_or_raise (expression !! 1%nat) ;;
  p <- deref_block e1 ;;
  body <- rec_transpile_commands rec p true ;;
  _ <- add_indent (-2) ;;
  g <- gi ;;
  ret (s +:+ body +:+ g +:+ "  end").

Definition ex_name (expression : list node) : M string :=
  e1 <- lookup_or_raise (expression !! 1%nat) ;;
  let other := opex_func expression "name" "__ex_" in
  match e1 with
  | NList l =>
      h <- lookup_or_raise (l !! 0%nat) ;;
      if is_str h "xy" then
        l1 <- lookup_or_raise (l !! 1%nat) ;;
        x <- rec_decode_rvalue rec l1 ;;
        l2 <- lookup_or_raise (l !! 2%nat) ;;
        y <- rec_decode_rvalue rec l2 ;;
        ret ("__roomtiles[" +:+ y +:+ "][" +:+ x +:+ "].name")
      else other
  | _ => other
  end.

Definition decode_rvalue (expression : node) : M string :=
  match expression with
  | NStr s => ret (dq +:+ escape_string s +:+ dq)
  | NInt z => ret (str_of_Z z)
  | NNone => ret "nil"
  | NList l =>
      ex <- lookup_or_raise (l !! 0%nat) ;;
      match ex with
      | NStr e =>
          if bool_decide (e = "get") then ex_get l
          else if bool_decide (e = "optimized-id") then
            e2 <- lookup_or_raise (l !! 2%nat) ;;
            t2 <- format_node e2 ;;
            e1 <- lookup_or_raise (l !! 1%nat) ;;
            t1 <- format_node e1 ;;
            ret ("--[[(" +:+ t2 +:+ ")]] " +:+ t1)
          else if bool_decide (e = "format") then ex_format l
          else if bool_decide (e = "embed") then ex_embed l
          else if bool_decide (e = "name") then ex_name l
          else if bool_decide (e ∈ exfuncs) then opex_func l e "__ex_"
          else if bool_decide (e = "block") then ex_subroutine l
          else
            _ <- add_error ("unknown expression code: " +:+ e) ;;
            ret ("nil --[[unknown expression code '" +:+ e +:+ "']]")
      | _ => raise
      end
  end.

Definition op_set (cmd : list node) (operator : string) : M string :=
  c1 <- lookup_or_raise (cmd !! 1%nat) ;;
  match c1 with
  | NStr lvalue =>
      lvalue <- pingvar lvalue ;;
      c2 <- lookup_or_raise (cmd !! 2%nat) ;;
      rvalue <- rec_decode_rvalue rec c2 ;;
      if bool_decide (operator = EmptyString) || RELASSIGN then
        ret (lvalue +:+ " " +:+ operator +:+ "= " +:+ rvalue)
      else
        ret (lvalue +:+ " = " +:+ lvalue +:+ " " +:+ operator +:+ " " +:+ rvalue)
  | _ => raise
  end.

(** The body block of an [if], [while], [elseif] or [else]: checked to be a
    block reference when it is read, looked up when it is compiled. *)
Definition transpile_block_ref (bl : list node) : M string :=
  _ <- add_indent 1 ;;
  b1 <- lookup_or_raise (bl !! 1%nat) ;;
  p <- deref_block b1 ;;
  body <- rec_transpile_commands rec p false ;;
  _ <- add_indent (-1) ;;
  ret body.

Definition op_block_followup (sub : node) : M string :=
  match sub with
  | NList sl =>
      h <- lookup_or_raise (sl !! 0%nat) ;;
      if is_str h "elseif" then
        g <- gi ;;
        t <- rec_op_block rec sl "elseif" "then" None ;;
        ret (g +:+ t)
      else if is_str h "else" then
        g <- gi ;;
        block <- lookup_or_raise (sl !! 1%nat) ;;
        bl <- assert_block block ;;
        body <- transpile_block_ref bl ;;
        ret (g +:+ "else" +:+ nl +:+ body)
      else raise
  | _ => raise
  end.

Definition op_block (cmd : list node) (statement follow : string)
    (end_ : option string) : M string :=
  condition <- lookup_or_raise (cmd !! 1%nat) ;;
  match condition with
  | NList condition =>
      comparison <- lookup_or_raise (condition !! 0%nat) ;;
      compsym <-
        match comparison with
        | NStr k => lookup_or_raise (compdict !! k)
        | _ => raise
        end ;;
      c1 <- lookup_or_raise (condition !! 1%nat) ;;
      compl <-
        match c1 with
        | NStr t =>
            if istoken c1 then v <- pingvar t ;; remap_special_varname v
            else rec_decode_rvalue rec c1
        | _ => rec_decode_rvalue rec c1
        end ;;
      c2 <- lookup_or_raise (condition !! 2%nat) ;;
      compr <- rec_decode_rvalue rec c2 ;;
      block <- lookup_or_raise (cmd !! 2%nat) ;;
      bl <- assert_block block ;;
      let s :=
        statement +:+ " " +:+ compl +:+ " " +:+ compsym +:+ " " +:+ compr
        +:+ " " +:+ follow +:+ nl in
      body <- transpile_block_ref bl ;;
      subs <- for_concat op_block_followup (drop 3 cmd) ;;
      let s := s +:+ body +:+ subs in
      match end_ with
      | Some e =>
          if bool_decide (e = EmptyString) then ret s
          else g <- gi ;; ret (s +:+ g +:+ e)
      | None => ret s
      end
  | _ => raise
  end.

(** One step of the [for tag in tags] loop of [op_call]; the state is
    [(fnbase, comment)]. *)
Definition op_call_tag (fnstr : string) (st : string * string) (tag : string)
  : M (string * string) :=
  let '(fnbase, comment) := st in
  if startswith tag "[SCRIPT:" then
    let scriptsrc := drop_last (drop_chars 8 tag) in
    fnbase <- add_script_tag scriptsrc (drop_last (drop_chars 1 fnstr)) ;;
    ret (fnbase, comment +:+ " " +:+ tag)
  else ret (fnbase, comment).

Definition op_call (cmd : list node) (tags : list string) : M string :=
  c1 <- lookup_or_raise (cmd !! 1%nat) ;;
  names <-
    match c1 with
    | NStr t =>
        if istoken c1 then
          ev <- get_evobj ;;
          ret (dq +:+ t +:+ dq, ev +:+ "." +:+ t)
        else
          fnstr <- rec_decode_rvalue rec c1 ;;
          ev <- get_evobj ;;
          ret (fnstr, ev +:+ "[" +:+ fnstr +:+ "]")
    | _ =>
        fnstr <- rec_decode_rvalue rec c1 ;;
        ev <- get_evobj ;;
        ret (fnstr, ev +:+ "[" +:+ fnstr +:+ "]")
    end ;;
  let '(fnstr, callfn) := names in
  ev <- get_evobj ;;
  let fnbase := ";(" +:+ callfn +:+ " or " +:+ ev +:+ ".any)" in
  let comment :=
    "--[call " +:+ dq +:+ drop_last (drop_chars 1 fnstr) +:+ dq +:+ "]" in
  let '(fnbase, comment) :=
    if bool_decide ("[DIRECT]" ∈ tags) then (callfn, comment +:+ " [DIRECT]")
    else (fnbase, comment) in
  ev <- get_evobj ;;
  st <-
    (if bool_decide (ev = "__self") then
       c <- get_ctx ;;
       _ <- funccache_add ("local __self = " +:+ root_evobj c +:+ " --[this script]") ;;
       match c1 with
       | NStr t =>
           if istoken c1 then
             c <- get_ctx ;;
             if bool_decide (t ∈ self_evnames c) then ret (callfn, EmptyString)
             else ret ("__self.any", comment +:+ " [doesn't exist, so any]")
           else ret (fnbase, comment)
       | _ => ret (fnbase, comment)
       end
     else ret (fnbase, comment)) ;;
  st <- for_fold (op_call_tag fnstr) st tags ;;
  let '(fnbase, comment) := st in
  ret (fnbase +:+ "(__actor, event, " +:+ fnstr +:+ ") " +:+ comment).

Definition op_emit (cmd : list node) : M string :=
  c1 <- lookup_or_raise (cmd !! 1%nat) ;;
  v <- rec_decode_rvalue rec c1 ;;
  ret ("__pulp:emit(" +:+ v +:+ ", event)").

Definition op_mimic (a : addr) (cmd : list node) : M string :=
  r <- optimize_name_ref a cmd 1 ;;
  let '(optimized, cmd) := r in
  by_id <-
    (if optimized then ret true
     else
       c1 <- lookup_or_raise (cmd !! 1%nat) ;;
       ret (match c1 with NInt _ => true | _ => false end)) ;;
  let s := "do -- (mimic)" +:+ nl in
  _ <- add_indent 1 ;;
  g <- gi ;;
  c1 <- lookup_or_raise (cmd !! 1%nat) ;;
  v <- rec_decode_rvalue rec c1 ;;
  let s :=
    if by_id then
      s +:+ g +:+ "local __mimic_target__ = (__pulp.tiles[" +:+ v
      +:+ "] or __pulp.EMPTY).script;" +:+ nl
    else
      s +:+ g +:+ "local __mimic_target__ = __pulp:getScript(" +:+ v
      +:+ ") or __pulp.EMPTY;" +:+ nl in
  g <- gi ;;
  let s :=
    s +:+ g
    +:+ "(__mimic_target__[__evname] or __mimic_target__.any)(__actor, event, __evname)"
    +:+ nl in
  _ <- add_indent (-1) ;;
  g <- gi ;;
  ret (s +:+ g +:+ "end").

(** The two inline forms of [tell]: [local_actor] is the line that binds
    [__actor], [guard] the test around the body. *)
Definition op_tell_inline (cmd : list node) (head : string)
    (local_actor : M string) (guard : string) : M string :=
  let s := head in
  _ <- add_indent 1 ;;
  c2 <- lookup_or_raise (cmd !! 2%nat) ;;
  bl <- assert_block c2 ;;
  g <- gi ;;
  la <- local_actor ;;
  let s := s +:+ g +:+ la +:+ nl in
  g <- gi ;;
  let s := s +:+ g +:+ guard +:+ nl in
  _ <- add_indent 1 ;;
  _ <- push_evobj "__actor.script" ;;
  b1 <- lookup_or_raise (bl !! 1%nat) ;;
  p <- deref_block b1 ;;
  body <- rec_transpile_commands rec p true ;;
  let s := s +:+ body in
  _ <- pop_evobj ;;
  _ <- add_indent (-1) ;;
  g <- gi ;;
  let s := s +:+ g +:+ "end" +:+ nl in
  _ <- add_indent (-1) ;;
  g <- gi ;;
  ret (s +:+ g +:+ "end" +:+ nl).

Definition op_tell (a : addr) (cmd : list node) : M string :=
  c1 <- lookup_or_raise (cmd !! 1%nat) ;;
  let generic :=
    r <- optimize_name_ref a cmd 1 ;;
    _ <- push_evobj "__actor.script" ;;
    s <- opex_func (snd r) "tell" "__fn_" ;;
    _ <- pop_evobj ;;
    ret s in
  match c1 with
  | NList l =>
      h <- lookup_or_raise (l !! 0%nat) ;;
      if is_str h "xy" then
        op_tell_inline cmd ("do --[tell x,y to]" +:+ nl)
          (l2 <- lookup_or_raise (l !! 2%nat) ;;
           y <- rec_decode_rvalue rec l2 ;;
           l1 <- lookup_or_raise (l !! 1%nat) ;;
           x <- rec_decode_rvalue rec l1 ;;
           ret ("local __actor = __roomtiles[" +:+ y +:+ "][" +:+ x +:+ "]"))
          "if __actor and __actor.tile then"
      else if is_str h "get" then
        l1 <- lookup_or_raise (l !! 1%nat) ;;
        if str_in l1 ["event.room"; "event.game"; "event.player"] then
          let target :=
            match l1 with
            | NStr t => if bool_decide (t = "event.player") then "__pulp.player" else t
            | _ => EmptyString
            end in
          op_tell_inline cmd ("do --[tell " +:+ target +:+ " to]" +:+ nl)
            (ret ("local __actor = " +:+ target))
            "if __actor then"
        else generic
      else generic
  | _ => generic
  end.

Definition op_random (cmd : list node) : M string :=
  match cmd with
  | [_; c1] =>
      v <- rec_decode_rvalue rec c1 ;;
      ret ("__random(" +:+ v +:+ ")")
  | [_; c1; c2] =>
      v1 <- rec_decode_rvalue rec c1 ;;
      v2 <- rec_decode_rvalue rec c2 ;;
      ret ("__random(" +:+ v1 +:+ ", " +:+ v2 +:+ ")")
  | _ => raise
  end.

(** [ctx.gi() + f(...) + "\n"] *)
Definition line (m : M string) : M string :=
  g <- gi ;; s <- m ;; ret (g +:+ s +:+ nl).

Definition transpile_command (a : addr) (cmd : list node) (next_cmds : list node)
  : M string :=
  op <- lookup_or_raise (cmd !! 0%nat) ;;
  tags <- get_next_cmds_tags next_cmds ;;
  match op with
  | NStr o =>
      if bool_decide (o = "_") then ret EmptyString
      else if bool_decide (o = "done") then line (ret "do return end")
      else if bool_decide (o = "set") then line (op_set cmd EmptyString)
      else if bool_decide (o = "add") then line (op_set cmd "+")
      else if bool_decide (o = "sub") then line (op_set cmd "-")
      else if bool_decide (o = "div") then line (op_set cmd "/")
      else if bool_decide (o = "mul") then line (op_set cmd "*")
      else if bool_decide (o = "inc") then line (op_inc cmd "+=1")
      else if bool_decide (o = "dec") then line (op_inc cmd "-=1")
      else if bool_decide (o = "random") then line (op_random cmd)
      else if bool_decide (o = "if") then
        line (op_block cmd "if" "then" (Some "end"))
      else if bool_decide (o = "while") then
        line (op_block cmd "while" "do" (Some "end"))
      else if bool_decide (o = "call") then line (op_call cmd tags)
      else if bool_decide (o = "emit") then line (op_emit cmd)
      else if bool_decide (o = "mimic") then line (op_mimic a cmd)
      else if bool_decide (o = "tell") then line (op_tell a cmd)
      else if bool_decide (o ∈ funclist) then line (opex_func cmd o "__fn_")
      else if bool_decide (o ∈ ["#"; "#$"]) then
        line (comment cmd (bool_decide (o = "#$")))
      else
        _ <- add_error ("unknown command code: " +:+ o) ;;
        g <- gi ;;
        ret (g +:+ "--unknown command code '" +:+ o +:+ "'" +:+ nl)
  | _ => raise
  end.

(** The body of the [for i in range(len(commands))] loop: the command is
    read from the block as it is when its turn comes. *)
Definition transpile_nth (p i : nat) : M string :=
  c <- get_ctx ;;
  commands <- lookup_or_raise (blocks c !! p) ;;
  command <- lookup_or_raise (commands !! i) ;;
  match command with
  | NList cmd => transpile_command (p, i) cmd (drop (S i) commands)
  | _ => ret EmptyString
  end.

(** The [for cached in sorted(...)] loop: each declaration is put in front
    of what has been built. *)
Definition prepend_cached (g : string) (decls : list string) (s : string)
  : string :=
  fold_left (fun s cached => g +:+ cached +:+ nl +:+ s) decls s.

Definition transpile_commands (p : nat) (has_funccache : bool) : M string :=
  _ <- (if has_funccache then push_funccache else ret tt) ;;
  c <- get_ctx ;;
  commands <- lookup_or_raise (blocks c !! p) ;;
  s <- for_concat (transpile_nth p) (seq 0 (length commands)) ;;
  if has_funccache then
    top <- get_funccache ;;
    g <- gi ;;
    let s := prepend_cached g (sorted (elements top)) s in
    _ <- pop_funccache ;;
    ret s
  else ret s.

(** The [filter] of [transpile_event]: commands other than blank lines and
    comments. *)
Fixpoint undecorated (block : list node) : M (list (list node)) :=
  match block with
  | [] => ret []
  | NList x :: rest =>
      h <- lookup_or_raise (x !! 0%nat) ;;
      xs <- undecorated rest ;;
      ret (if str_in h ["_"; "#"; "#$"] then xs else x :: xs)
  | _ :: rest => undecorated rest
  end.

(** [evobjname] is a string or [None]; both [""] and [None] are false. *)
Definition truthy (o : option string) : bool :=
  match o with
  | Some (String _ _) => true
  | _ => false
  end.

Definition transpile_event (evobj evname : string) (blockidx : Z)
    (evobjname : option string) (comments : list string)
    (evnames : list string) : M string :=
  let _evobj := "__pulp:getScript(" +:+ dq +:+ evobj +:+ dq +:+ ")" in
  let s :=
    if istoken (NStr evname) then
      _evobj +:+ "." +:+ evname +:+ " = function(__actor, event, __evname)" +:+ nl
    else
      _evobj +:+ "[" +:+ dq +:+ evname +:+ dq
      +:+ "] = function(__actor, event, __evname)" +:+ nl in
  p <- deref_block (NInt blockidx) ;;
  _ <- modify (set_self_evnames evnames) ;;
  _ <- modify (set_comments_block comments) ;;
  _ <- push_evobj "__self" ;;
  _ <- modify (set_root_evobj (if truthy evobjname then default EmptyString evobjname else _evobj)) ;;
  cmdstr <- transpile_commands p true ;;
  _ <- pop_evobj ;;
  let s := s +:+ cmdstr +:+ "end" +:+ nl in
  c <- get_ctx ;;
  block <- lookup_or_raise (blocks c !! p) ;;
  undecorated_block <- undecorated block ;;
  _ <-
    match undecorated_block with
    | [mimic] =>
        h <- lookup_or_raise (mimic !! 0%nat) ;;
        if is_str h "mimic" then
          m1 <- lookup_or_raise (mimic !! 1%nat) ;;
          match m1 with
          | NList ml =>
              h1 <- lookup_or_raise (ml !! 0%nat) ;;
              if is_str h1 "optimized-id" then
                target <- lookup_or_raise (ml !! 2%nat) ;;
                modify (fun c =>
                  set_full_mimics (full_mimics c ++ [(evobj, evname, target)]) c)
              else ret tt
          | _ => ret tt
          end
        else ret tt
    | _ => ret tt
    end ;;
  ret s.

End Compiler.

(** The compiler with its recursion closed: [compiler tile_ids fuel] enters
    [decode_rvalue], [transpile_commands] and [op_block] at most [fuel]
    times, one inside the other. *)
Fixpoint compiler (tile_ids : gmap string Z) (fuel : nat) : Rec :=
  match fuel with
  | O =>
      mkRec (fun _ => out_of_fuel) (fun _ _ => out_of_fuel)
        (fun _ _ _ _ => out_of_fuel)
  | S n =>
      mkRec (decode_rvalue (compiler tile_ids n))
        (transpile_commands tile_ids (compiler tile_ids n))
        (op_block (compiler tile_ids n))
  end.

(** * Vocabulary of the properties *)

(** The expression codes [decode_rvalue] recognizes. *)
Definition expression_codes : list string :=
  ["get"; "optimized-id"; "format"; "embed"; "name"; "block"] ++ exfuncs.

(** What [decode_rvalue] returns for a code it does not know. *)
Definition unknown_expression_text (e : string) : string :=
  "nil --[[unknown expression code '" +:+ e +:+ "']]".

(** The context after [ctx.errors += [msg]]. *)
Definition with_error (msg : string) (c : Ctx) : Ctx :=
  set_errors (errors c ++ [msg]) c.

(** No tag of the list is a [[SCRIPT:...]] routing tag. *)
Definition no_script_tag (tags : list string) : Prop :=
  Forall (fun t => startswith t "[SCRIPT:" = false) tags.

(** The comment [op_call] starts from, and the call it returns. *)
Definition call_comment (name : string) : string :=
  "--[call " +:+ dq +:+ name +:+ dq +:+ "]".

Definition call_text (fnbase name comment : string) : string :=
  fnbase +:+ "(__actor, event, " +:+ (dq +:+ name +:+ dq) +:+ ") " +:+ comment.


(** The named slots [opex_func] starts from. *)
Definition initial_setargs : gmap string string :=
  list_to_map [("actor", "__actor"); ("event", "event"); ("evname", "__evname")].

(** Declaration lines at indentation [g], one per element of [decls], in
    the order of [decls]. *)
Definition declaration_lines (g : string) (decls : list string) : string :=
  concat_str ((fun d => g +:+ d +:+ nl) <$> decls).

(** What [pingvar] returns for a name. *)
Definition lvalue_text (v : string) : string :=
  if contains_char "." v then v
  else if startswith v "__PTLE_" then v
  else sanitize_varname (if startswith v "__" then "__" +:+ v else v).


(** The declaration [remap_special_varname] registers for [event.x]. *)
Definition event_x_decl : string :=
  "local __event_x = __actor.x or __pulp.player.x".


(** The first line of a handler, as [transpile_event] builds it. *)
Definition handler_head (evobj evname : string) : string :=
  let _evobj := "__pulp:getScript(" +:+ dq +:+ evobj +:+ dq +:+ ")" in
  if istoken (NStr evname) then
    _evobj +:+ "." +:+ evname +:+ " = function(__actor, event, __evname)" +:+ nl
  else
    _evobj +:+ "[" +:+ dq +:+ evname +:+ dq
    +:+ "] = function(__actor, event, __evname)" +:+ nl.

(** Fields a step leaves alone. *)
Definition same_frame (c c' : Ctx) : Prop :=
  blocks c' = blocks c /\ indent c' = indent c /\ evobjs c' = evobjs c
  /\ comments_block c' = comments_block c /\ full_mimics c' = full_mimics c.

(** What the filter of [transpile_event] drops: an element that is not a
    list, a blank line, a comment. *)
Definition decoration (x : node) : Prop :=
  match x with
  | NList (NStr h :: _) => h ∈ ["_"; "#"; "#$"]
  | NList _ => False
  | _ => True
  end.

(** The marker [optimize_name_ref] writes over a tile name. *)
Definition optimized_id (id : Z) (name : string) : node :=
  NList [NStr "optimized-id"; NInt id; NStr name].

Definition mimic_command (target : node) (more : list node) : node :=
  NList (NStr "mimic" :: target :: more).

(** The depths of the cache-frame stack and of the dispatch-object stack. *)
Definition depth (c : Ctx) : nat * nat :=
  (length (funccache c), length (evobjs c)).

(** A computation that, when it returns, leaves both depths as they were. *)
Definition keeps_depth {A} (m : M A) : Prop :=
  forall c a c', m c = Ok (a, c') -> depth c' = depth c.

Definition rec_keeps_depth (rec : Rec) : Prop :=
  (forall e, keeps_depth (rec_decode_rvalue rec e))
  /\ (forall p b, keeps_depth (rec_transpile_commands rec p b))
  /\ (forall cmd s f e, keeps_depth (rec_op_block rec cmd s f e)).

(** [m'] returns whatever [m] returns. *)
Definition refines {A} (m m' : M A) : Prop :=
  forall c r, m c = Ok r -> m' c = Ok r.

(** The callees of [r'] return whatever those of [r] return. *)
Definition rec_refines (r r' : Rec) : Prop :=
  (forall e, refines (rec_decode_rvalue r e) (rec_decode_rvalue r' e))
  /\ (forall p b,
        refines (rec_transpile_commands r p b) (rec_transpile_commands r' p b))
  /\ (forall cmd s f e,
        refines (rec_op_block r cmd s f e) (rec_op_block r' cmd s f e)).

(** ** Example programs *)

(** The value and the context of a run that returned. *)
Definition value_of {A} (o : outcome (A * Ctx)) : option A :=
  match o with
  | Ok (a, _) => Some a
  | _ => None
  end.

Definition ctx_of {A} (o : outcome (A * Ctx)) : option Ctx :=
  match o with
  | Ok (_, c) => Some c
  | _ => None
  end.

Definition ex_tiles : gmap string Z := {[ "wall" := 5 ]}.

Definition get_var (v : string) : node := NList [NStr "get"; NStr v].

Definition block_ref (i : Z) : node := NList [NStr "block"; NInt i].

Definition event_y_decl : string :=
  "local __event_y = __actor.y or __pulp.player.y".

(** [a = event.x] then [b = event.y]. *)
Definition ex_reads_xy : list node :=
  [NList [NStr "set"; NStr "a"; get_var "event.x"];
   NList [NStr "set"; NStr "b"; get_var "event.y"]].

Definition ex_reads_xy_body : string :=
  "  a = __event_x" +:+ nl +:+ "  b = __event_y" +:+ nl.

(** C1 as the specification words it: the declarations in ascending sorted
    order, then the body. *)
Definition prologue_as_specified (g : string) (top : gset string)
    (body : string) : string :=
  declaration_lines g (sorted (elements top)) +:+ body.

(** A comment, a blank line, [mimic "wall"]. *)
Definition ex_mimic_handler : list node :=
  [NList [NStr "#"; NInt 0]; NList [NStr "_"]; mimic_command (NStr "wall") []].


(** A handler with an if/elseif/else and a while (block 0), two forms of
    tell (block 1), an inline subroutine and a call (block 2). *)
Definition ex_nested : list (list node) :=
  [ [ NList [NStr "if"; NList [NStr "eq"; NStr "a"; NInt 1]; block_ref 1;
             NList [NStr "elseif"; NList [NStr "gt"; NStr "a"; NInt 2];
                    block_ref 2];
             NList [NStr "else"; block_ref 2]];
      NList [NStr "while"; NList [NStr "lt"; NStr "event.x"; NInt 9];
             block_ref 3] ];
    [ NList [NStr "tell"; NList [NStr "xy"; NInt 1; NInt 2]; block_ref 2];
      NList [NStr "tell"; NStr "wall"; block_ref 3] ];
    [ NList [NStr "wait"; NInt 1; block_ref 3];
      NList [NStr "call"; NStr "update"] ];
    [ NList [NStr "inc"; NStr "a"]; NList [NStr "emit"; NStr "tick"] ] ].

(** The context inside the body of a [tell] of a handler, with the comment
    table [["[DIRECT]"]]. *)
Definition ex_tell_ctx : Ctx :=
  set_evobjs ["__self"; "__actor.script"]
    (set_funccache [∅; ∅] (set_comments_block ["[DIRECT]"] (init_ctx []))).

Definition ex_set_x : node := NList [NStr "set"; NStr "x"; NInt 1].

Definition ex_call_foo : list node := [NStr "call"; NStr "foo"].




(** * Vocabulary of the further properties *)

(** A string rewritten character by character. *)
Fixpoint flat_map_str (f : ascii -> string) (s : string) : string :=
  match s with
  | EmptyString => EmptyString
  | String c s' => f c +:+ flat_map_str f s'
  end.

(** What [s.replace(c, new)] puts for the character [d] of [s]. *)
Definition replace_char_by (c : ascii) (new : string) (d : ascii) : string :=
  if bool_decide (d = c) then new else String d EmptyString.

(** What the four replacements of [escape_string], one after the other,
    make of one character. *)
Definition escape_char (c : ascii) : string :=
  if bool_decide (c = Ascii.ascii_of_nat 92) then bs +:+ bs
  else if bool_decide (c = Ascii.ascii_of_nat 10) then bs +:+ "n"
  else if bool_decide (c = Ascii.ascii_of_nat 12) then bs +:+ "f"
  else if bool_decide (c = Ascii.ascii_of_nat 34) then bs +:+ dq
  else String c EmptyString.

(** Reading the escapes back, as Lua reads a string literal: a backslash
    and the character behind it stand for one character. *)
Fixpoint unescape (s : string) : string :=
  match s with
  | EmptyString => EmptyString
  | String c EmptyString => String c EmptyString
  | String c (String x s' as t) =>
      if bool_decide (c = Ascii.ascii_of_nat 92) then
        String
          (if bool_decide (x = "n"%char) then Ascii.ascii_of_nat 10
           else if bool_decide (x = "f"%char) then Ascii.ascii_of_nat 12
           else x)
          (unescape s')
      else String c (unescape t)
  end.

(** The double quote, and what [sanitize_varname] puts for one character
    of a name that is no identifier. *)
Definition dqc : ascii := Ascii.ascii_of_nat 34.
Definition quote_char (c : ascii) : string := replace_char_by dqc (bs +:+ dq) c.

(** The name [pingvar] sanitizes. *)
Definition reserved_prefixed (v : string) : string :=
  if startswith v "__" then "__" +:+ v else v.

(** A name that [pingvar] counts and sanitizes: no dot, no [__PTLE_]. *)
Definition ordinary (v : string) : Prop :=
  contains_char "." v = false /\ startswith v "__PTLE_" = false.

(** A computation that, when it returns, leaves the context related by [R]
    to the one it started from. *)
Definition preserves (R : Ctx -> Ctx -> Prop) {A} (m : M A) : Prop :=
  forall c a c', m c = Ok (a, c') -> R c c'.

(** The callees of [rec] do. *)
Definition rec_preserves (R : Ctx -> Ctx -> Prop) (rec : Rec) : Prop :=
  (forall e, preserves R (rec_decode_rvalue rec e))
  /\ (forall p b, preserves R (rec_transpile_commands rec p b))
  /\ (forall cmd s f e, preserves R (rec_op_block rec cmd s f e)).

(** What a relation between the context before and the context after has
    to satisfy to hold across a compilation: it is a preorder, it holds
    across each update the compiler makes, and leaving an indentation
    level that was entered restores it. *)
Record invariant (tile_ids : gmap string Z) (R : Ctx -> Ctx -> Prop) : Prop :=
  mk_invariant {
  inv_refl : forall c, R c c;
  inv_trans : forall c1 c2 c3, R c1 c2 -> R c2 c3 -> R c1 c3;
  inv_indent : forall c d c1,
    R (set_indent (indent c + d) c) c1 ->
    R c (set_indent (indent c1 + - d) c1);
  inv_funccache : forall c v, R c (set_funccache v c);
  inv_evobjs : forall c v, R c (set_evobjs v c);
  inv_errors : forall c msg, R c (set_errors (errors c ++ [msg]) c);
  inv_var_usage : forall c v,
    R c (set_var_usage (<[v := usage_count c v + 1]> (var_usage c)) c);
  inv_vars : forall c v, R c (set_vars (vars c ∪ {[v]}) c);
  inv_script_tags : forall c k v,
    script_tags c !! k = None ->
    R c (set_script_tags (<[k := v]> (script_tags c)) c);
  inv_ext_ptl : forall c k v, R c (set_ext_ptl (<[k := v]> (ext_ptl c)) c);
  inv_ext_pdxinfo : forall c k v,
    R c (set_ext_pdxinfo (<[k := v]> (ext_pdxinfo c)) c);
  inv_store : forall c a name id,
    tile_ids !! name = Some id ->
    R c (store_operand a 1 (NList [NStr "optimized-id"; NInt id; NStr name]) c);
}.

(** What it has to satisfy besides to hold across a handler: it holds
    across the updates [transpile_event] makes itself. *)
Record handler_invariant (R : Ctx -> Ctx -> Prop) : Prop :=
  mk_handler_invariant {
  inv_self_evnames : forall c v, R c (set_self_evnames v c);
  inv_comments_block : forall c v, R c (set_comments_block v c);
  inv_root_evobj : forall c v, R c (set_root_evobj v c);
  inv_full_mimics : forall c x,
    R c (set_full_mimics (full_mimics c ++ [x]) c);
}.

(** The fields a block's compilation hands back as it found them. *)
Definition block_frame (c c' : Ctx) : Prop :=
  indent c' = indent c /\ full_mimics c' = full_mimics c
  /\ comments_block c' = comments_block c
  /\ self_evnames c' = self_evnames c /\ root_evobj c' = root_evobj c.

(** What a compilation only ever adds to. *)
Definition accumulates (c c' : Ctx) : Prop :=
  errors c `prefix_of` errors c'
  /\ vars c ⊆ vars c'
  /\ (forall v, usage_count c v <= usage_count c' v)
  /\ script_tags c ⊆ script_tags c'.

(** A command as the compiler may leave it: as it was, or with its first
    operand replaced by the marker of a known tile. *)
Definition retargeted (tile_ids : gmap string Z) (n n' : node) : Prop :=
  n' = n
  \/ exists l name id,
       n = NList l /\ tile_ids !! name = Some id
       /\ n' = NList (<[1%nat := optimized_id id name]> l).

(** The block table, command by command. *)
Definition same_program (tile_ids : gmap string Z) (c c' : Ctx) : Prop :=
  Forall2 (Forall2 (retargeted tile_ids)) (blocks c) (blocks c').

(** The key [add_script_tag] files a routing tag under. *)
Definition script_tag_id (scriptsrc name : string) : string :=
  "__OPTTAG__" +:+ replace (replace (scriptsrc +:+ "_" +:+ name) "-" "_") " " "_".

(** The number of occurrences of a character. *)
Fixpoint count_char (c : ascii) (s : string) : nat :=
  match s with
  | EmptyString => O
  | String d s' => ((if bool_decide (c = d) then 1 else 0) + count_char c s')%nat
  end.

(** What a [[PTL]] directive stores for a value. *)
Definition ptl_of (value : string) : ptl_value :=
  if bool_decide (value = "0") || bool_decide (value = "False")
     || bool_decide (value = "false")
  then PFalse else PText value.

(** A tag: the stripped text of a comment of the table that starts with a
    bracket. *)
Definition tag_of (comments : list string) (t : string) : Prop :=
  startswith t "[" = true /\ exists u, u ∈ comments /\ t = strip u.

(** The command codes [transpile_command] recognizes. *)
Definition command_codes : list string :=
  ["_"; "done"; "set"; "add"; "sub"; "div"; "mul"; "inc"; "dec"; "random";
   "if"; "while"; "call"; "emit"; "mimic"; "tell"] ++ funclist ++ ["#"; "#$"].

(** What [transpile_command] emits for a code it does not know. *)
Definition unknown_command_text (o : string) : string :=
  "--unknown command code '" +:+ o +:+ "'" +:+ nl.

(** The text a named slot of a built-in is filled with. *)
Definition slot_text (setargs : gmap string string) (argname : string)
  : string :=
  default "nil" (setargs !! argname).

(** An element of a block that compiles to nothing: a blank line, or
    something that is not a command. *)
Definition blank (x : node) : Prop :=
  match x with
  | NList (NStr h :: _) => h = "_"
  | NList _ => False
  | _ => True
  end.

(** The context [transpile_event] compiles the body in, less the stack
    entry it pushes. *)
Definition handler_ctx (evobj : string) (evobjname : option string)
    (comments evnames : list string) (c : Ctx) : Ctx :=
  set_root_evobj
    (if truthy evobjname then default EmptyString evobjname
     else "__pulp:getScript(" +:+ dq +:+ evobj +:+ dq +:+ ")")
    (set_comments_block comments (set_self_evnames evnames c)).

(** The text of a [mimic]: [g1] is the indentation inside the [do] block,
    [g0] the one outside, [target] the line that finds the script. *)
Definition mimic_text (g1 g0 target : string) : string :=
  ((("do -- (mimic)" +:+ nl) +:+ g1 +:+ target)
   +:+ g1
   +:+ "(__mimic_target__[__evname] or __mimic_target__.any)(__actor, event, __evname)"
   +:+ nl)
  +:+ g0 +:+ "end".

(** The two ways a [mimic] finds the script: in the tile table, by the
    tile's id, or through [getScript]. *)
Definition mimic_by_id (v : string) : string :=
  "local __mimic_target__ = (__pulp.tiles[" +:+ v
  +:+ "] or __pulp.EMPTY).script;" +:+ nl.

Definition mimic_by_name (v : string) : string :=
  "local __mimic_target__ = __pulp:getScript(" +:+ v
  +:+ ") or __pulp.EMPTY;" +:+ nl.

(** The text [decode_rvalue] gives for the marker of a tile. *)
Definition marker_text (id : Z) (name : string) : string :=
  "--[[(" +:+ name +:+ ")]] " +:+ str_of_Z id.

(** The indentation one level inside. *)
Definition gi_inside (c : Ctx) : string := gi_of (set_indent (indent c + 1) c).

(** The names [remap_special_varname] replaces. *)
Definition special_names : list string :=
  ["event.px"; "event.py"; "event.x"; "event.y"; "event.dx"; "event.dy";
   "event.tile"; "event.room"; "event.player"; "datetime.year";
   "datetime.year99"; "datetime.month"; "datetime.day"; "datetime.weekday";
   "datetime.hour"; "datetime.hour12"; "datetime.minute"; "datetime.second";
   "datetime.millisecond"; "datetime.ampm"; "datetime.AMPM";
   "datetime.timestamp"; "__PTLE_SMOOTH_MOVEMENT_SPEED";
   "__PTLE_SMOOTH_OFFSET_X"; "__PTLE_SMOOTH_OFFSET_Y"; "__PTLE_CONFIRM_DAS";
   "__PTLE_CANCEL_DAS"; "__PTLE_V_DAS"; "__PTLE_H_DAS"].

(** The registry of variables: the names and the usage counts. *)
Definition same_variables (c c' : Ctx) : Prop :=
  vars c' = vars c /\ var_usage c' = var_usage c.

(** A text made of complete lines: nothing, or something that ends with a
    newline. *)
Definition complete_lines (s : string) : Prop :=
  s = EmptyString \/ exists t, s = t +:+ nl.

(** ** More example programs *)

(** A context whose comment table has a tag with blanks around it and a
    plain comment. *)
Definition ex_comments_ctx : Ctx :=
  set_comments_block [" [DIRECT] "; "plain"] (init_ctx []).

(** A comment, an assignment, a second comment. *)
Definition ex_commented : list node :=
  [NList [NStr "#"; NInt 0]; ex_set_x; NList [NStr "#"; NInt 1]].

(** A blank line and an entry that is not a command. *)
Definition ex_blank_block : list node := [NList [NStr "_"]; NNone].

(** * Properties *)

(** ** Facts about strings and the monad *)

Lemma app_str_assoc (a b c : string) : (a +:+ b) +:+ c = a +:+ (b +:+ c).
Proof.
  induction a as [|x a IH]; [reflexivity|].
  change (String x ((a +:+ b) +:+ c) = String x (a +:+ (b +:+ c))).
  by rewrite IH.
Qed.

Lemma app_str_nil_r (a : string) : a +:+ EmptyString = a.
Proof.
  induction a as [|x a IH]; [reflexivity|].
  change (String x (a +:+ EmptyString) = String x a). by rewrite IH.
Qed.

Lemma app_str_cons (x : ascii) (a b : string) :
  String x a +:+ b = String x (a +:+ b).
Proof. reflexivity. Qed.

Lemma app_str_nil_l (a : string) : EmptyString +:+ a = a.
Proof. reflexivity. Qed.

Lemma bind_Ok {A B} (m : M A) (k : A -> M B) c b c' :
  bind m k c = Ok (b, c') ->
  exists a c1, m c = Ok (a, c1) /\ k a c1 = Ok (b, c').
Proof.
  unfold bind. destruct (m c) as [[a c1]| | |]; try discriminate. eauto.
Qed.

Lemma bind_run {A B} (m : M A) (k : A -> M B) c a c1 :
  m c = Ok (a, c1) -> bind m k c = k a c1.
Proof. unfold bind. by intros ->. Qed.

Lemma lookup_or_raise_Ok {A} (o : option A) c a c' :
  lookup_or_raise o c = Ok (a, c') -> o = Some a /\ c' = c.
Proof. destruct o; cbn; [|discriminate]. by intros [= -> ->]. Qed.

Lemma assert_Ok b c u c' : assert b c = Ok (u, c') -> b = true /\ c' = c.
Proof. destruct b; cbn; [|discriminate]. by intros [= <- <-]. Qed.

Lemma bind_assoc {A B C} (m : M A) (k1 : A -> M B) (k2 : B -> M C) c :
  bind (bind m k1) k2 c = bind m (fun a => bind (k1 a) k2) c.
Proof. unfold bind. by destruct (m c) as [[a c1]| | |]. Qed.

Lemma bind_ret {A B} (a : A) (k : A -> M B) c : bind (ret a) k c = k a c.
Proof. reflexivity. Qed.

Lemma bind_lookup_Some {A B} (a : A) (k : A -> M B) c :
  bind (lookup_or_raise (Some a)) k c = k a c.
Proof. reflexivity. Qed.

Lemma bind_get_ctx {B} (k : Ctx -> M B) c : bind get_ctx k c = k c c.
Proof. reflexivity. Qed.

Lemma bind_gets {A B} (f : Ctx -> A) (k : A -> M B) c :
  bind (gets f) k c = k (f c) c.
Proof. reflexivity. Qed.

Lemma bind_gi {B} (k : string -> M B) c : bind gi k c = k (gi_of c) c.
Proof. reflexivity. Qed.

Lemma bind_modify {B} (f : Ctx -> Ctx) (k : unit -> M B) c :
  bind (modify f) k c = k tt (f c).
Proof. reflexivity. Qed.

Lemma bind_add_indent {B} (d : Z) (k : unit -> M B) c :
  bind (add_indent d) k c = k tt (set_indent (indent c + d) c).
Proof. reflexivity. Qed.

Lemma bind_add_error {B} (msg : string) (k : unit -> M B) c :
  bind (add_error msg) k c = k tt (set_errors (errors c ++ [msg]) c).
Proof. reflexivity. Qed.

Lemma bind_assert_true {B} (k : unit -> M B) c :
  bind (assert true) k c = k tt c.
Proof. reflexivity. Qed.

(** Running a computation forwards, one primitive at a time. *)
Ltac mrun1 :=
  first
    [ rewrite bind_assoc
    | rewrite bind_ret
    | rewrite bind_lookup_Some
    | rewrite bind_get_ctx
    | rewrite bind_gi
    | rewrite bind_gets
    | rewrite bind_modify
    | rewrite bind_add_indent
    | rewrite bind_add_error
    | rewrite bind_assert_true ].

Ltac mrun := repeat mrun1.

(** Deciding the comparisons of a literal with a literal. *)
Ltac bd :=
  repeat match goal with
  | |- context [bool_decide (?a = ?b)] =>
      first [ rewrite (bool_decide_eq_true_2 (a = b)) by reflexivity
            | rewrite (bool_decide_eq_false_2 (a = b)) by discriminate ]
  | |- context [bool_decide (?a ∈ ?l)] =>
      let b := eval vm_compute in (bool_decide (a ∈ l)) in
      match b with true => idtac | false => idtac end;
      replace (bool_decide (a ∈ l)) with b by (vm_compute; reflexivity)
  end.

Ltac mrun_in H :=
  repeat first
    [ rewrite bind_assoc in H
    | rewrite bind_ret in H
    | rewrite bind_lookup_Some in H
    | rewrite bind_get_ctx in H
    | rewrite bind_gi in H
    | rewrite bind_gets in H
    | rewrite bind_modify in H
    | rewrite bind_add_indent in H
    | rewrite bind_add_error in H
    | rewrite bind_assert_true in H ].

(** Symbolic execution of a computation known to end with [Ok]. *)
Ltac minv1 :=
  match goal with
  | H : bind _ _ _ = Ok _ |- _ =>
      let a := fresh "a" in
      let c := fresh "c" in
      let H1 := fresh "Hrun" in
      apply bind_Ok in H; destruct H as (a & c & H1 & H)
  | H : ret _ _ = Ok _ |- _ => unfold ret in H; simplify_eq
  | H : gets _ _ = Ok _ |- _ => unfold gets in H; simplify_eq
  | H : get_ctx _ = Ok _ |- _ => unfold get_ctx in H; simplify_eq
  | H : modify _ _ = Ok _ |- _ => unfold modify in H; simplify_eq
  | H : gi _ = Ok _ |- _ => unfold gi, gets in H; simplify_eq
  | H : add_indent _ _ = Ok _ |- _ => unfold add_indent, modify in H; simplify_eq
  | H : add_error _ _ = Ok _ |- _ => unfold add_error, modify in H; simplify_eq
  | H : raise _ = Ok _ |- _ => discriminate H
  | H : unmodelled _ = Ok _ |- _ => discriminate H
  | H : out_of_fuel _ = Ok _ |- _ => discriminate H
  | H : Raised = Ok _ |- _ => discriminate H
  | H : Unmodelled = Ok _ |- _ => discriminate H
  | H : OutOfFuel = Ok _ |- _ => discriminate H
  | H : Ok _ = Ok _ |- _ => simplify_eq
  | H : lookup_or_raise _ _ = Ok _ |- _ =>
      apply lookup_or_raise_Ok in H; destruct H as [H ->]
  | H : assert _ _ = Ok _ |- _ =>
      apply assert_Ok in H; destruct H as [H ->]
  end.

Ltac minv := repeat minv1.

(** ** Reserved-prefix escaping ([pingvar]) *)

Lemma word_tail_id (v : string) : is_id v = true -> word_tail v = true.
Proof.
  destruct v as [|x v]; [done|]. cbn [is_id word_tail].
  intros [Hx Hv]%andb_prop.
  assert (is_word x = true) as ->; [|done].
  unfold is_word. apply orb_prop in Hx as [-> | ->]; [done|].
  by rewrite orb_true_r.
Qed.

Lemma is_id_two_underscores (v : string) :
  is_id v = true -> is_id ("__" +:+ v) = true.
Proof.
  intros Hv. change ("__" +:+ v) with (String "_" (String "_" v)).
  cbn. by apply word_tail_id.
Qed.

(** C3 (amended). A name that begins with two underscores, has no dot and
    is not an extension variable is registered with TWO more underscores in
    front: the use is counted under the name as written, the name with
    [__] prepended is sanitized, recorded among the known variables and
    returned.  For an identifier the result is the name with [__] in
    front. *)
Theorem pingvar_reserved_prefix (v : string) (c : Ctx) :
  startswith v "__" = true ->
  contains_char "." v = false ->
  startswith v "__PTLE_" = false ->
  pingvar v c =
    Ok (sanitize_varname ("__" +:+ v),
        set_vars (vars c ∪ {[sanitize_varname ("__" +:+ v)]})
          (set_var_usage (<[v := usage_count c v + 1]> (var_usage c)) c))
  /\ (is_id v = true -> sanitize_varname ("__" +:+ v) = "__" +:+ v).
Proof.
  intros H2 Hdot Hext. split.
  - unfold pingvar. rewrite Hdot, Hext, H2. reflexivity.
  - intros Hid. unfold sanitize_varname.
    by rewrite (is_id_two_underscores v Hid).
Qed.

(** ** Increment and decrement ([op_inc]) *)

Lemma comment_text_ctx idx c r c' :
  comment_text idx c = Ok (r, c') -> c' = c.
Proof.
  unfold comment_text. intros H. minv.
  destruct idx; minv. case_match; minv; done.
Qed.

Lemma get_next_cmds_tags_loop_ctx cmds : forall tags c r c',
  get_next_cmds_tags_loop tags cmds c = Ok (r, c') -> c' = c.
Proof.
  induction cmds as [|x cmds IH]; intros tags c r c' H; cbn in H.
  - by minv.
  - destruct x; minv; try done.
    case_match; [|by eauto]. minv.
    match goal with
    | H : comment_text _ _ = Ok _ |- _ => apply comment_text_ctx in H as ->
    end.
    repeat case_match; eauto.
Qed.

Lemma get_next_cmds_tags_ctx cmds c r c' :
  get_next_cmds_tags cmds c = Ok (r, c') -> c' = c.
Proof. apply get_next_cmds_tags_loop_ctx. Qed.

(** C10. An [inc] or [dec] command emits the lvalue as written followed by
    [+=1] or [-=1] and leaves the whole context as it was (no use counted,
    no variable recorded, no sanitization, no special-variable remapping);
    an assignment command goes through [pingvar] for its lvalue. *)
Theorem inc_dec_emit_raw (tile_ids : gmap string Z) (rec : Rec) (a : addr)
    (dec : bool) (name : string) (rest next : list node) (c : Ctx) :
  let opname := if dec then "dec" else "inc" in
  let opsym := if dec then "-=1" else "+=1" in
  transpile_command tile_ids rec a (NStr opname :: NStr name :: rest) next c =
    match get_next_cmds_tags next c with
    | Ok _ => Ok (gi_of c +:+ (name +:+ opsym) +:+ nl, c)
    | Raised => Raised
    | Unmodelled => Unmodelled
    | OutOfFuel => OutOfFuel
    end
  /\ forall (n : nat) (x : node) (v operator : string) (k : Z),
       op_set (compiler tile_ids (S n)) (x :: NStr v :: NInt k :: rest) operator c =
         match pingvar v c with
         | Ok (lvalue, c1) =>
             Ok (lvalue +:+ " " +:+ operator +:+ "= " +:+ str_of_Z k, c1)
         | Raised => Raised
         | Unmodelled => Unmodelled
         | OutOfFuel => OutOfFuel
         end.
Proof.
  intros opname opsym. split.
  - unfold transpile_command. cbn [lookup list_lookup].
    rewrite (bind_run _ _ c (NStr opname) c) by reflexivity.
    unfold bind at 1.
    destruct (get_next_cmds_tags next c) as [[tags c1]| | |] eqn:Ht; try done.
    apply get_next_cmds_tags_ctx in Ht as ->.
    destruct dec; reflexivity.
  - intros n x v operator k. unfold op_set. cbn [lookup list_lookup].
    rewrite (bind_run _ _ c (NStr v) c) by reflexivity.
    unfold bind at 1.
    destruct (pingvar v c) as [[lvalue c1]| | |]; try done.
    rewrite (bind_run _ _ c1 (NInt k) c1) by reflexivity.
    cbn [compiler rec_decode_rvalue decode_rvalue].
    rewrite (bind_run _ _ c1 (str_of_Z k) c1) by reflexivity.
    unfold RELASSIGN. rewrite orb_true_r. reflexivity.
Qed.

(** ** Unknown expression codes ([decode_rvalue]) *)

Lemma decode_rvalue_unknown rec e args c :
  e ∉ expression_codes ->
  decode_rvalue rec (NList (NStr e :: args)) c =
    Ok (unknown_expression_text e,
        with_error ("unknown expression code: " +:+ e) c).
Proof.
  intros Hunk. unfold expression_codes in Hunk.
  rewrite elem_of_app in Hunk. apply Decidable.not_or in Hunk as [H1 H2].
  rewrite !not_elem_of_cons in H1. destruct H1 as (?&?&?&?&?&?&_).
  unfold decode_rvalue. cbn [lookup list_lookup]. mrun.
  rewrite !bool_decide_eq_false_2 by done.
  reflexivity.
Qed.

(** C8. An expression node whose code is not a recognized one makes
    [decode_rvalue] append exactly one diagnostic, which ends with the code,
    and return the placeholder [nil] with a comment; the run goes on: in the
    loop over a block, an [emit] of such a node yields its line and the
    following commands are compiled from the context that has the one new
    diagnostic. *)
Theorem unknown_expression_soft_error (tile_ids : gmap string Z) (n : nat)
    (e : string) (args : list node) (c : Ctx) :
  e ∉ expression_codes ->
  decode_rvalue (compiler tile_ids n) (NList (NStr e :: args)) c =
    Ok (unknown_expression_text e,
        with_error ("unknown expression code: " +:+ e) c)
  /\ forall (p i : nat) (later : list nat) (commands : list node)
       (tags : list string),
       blocks c !! p = Some commands ->
       commands !! i = Some (NList [NStr "emit"; NList (NStr e :: args)]) ->
       get_next_cmds_tags (drop (S i) commands) c = Ok (tags, c) ->
       for_concat (transpile_nth tile_ids (compiler tile_ids (S n)) p)
         (i :: later) c =
         match
           for_concat (transpile_nth tile_ids (compiler tile_ids (S n)) p)
             later (with_error ("unknown expression code: " +:+ e) c)
         with
         | Ok (t, c') =>
             Ok ((gi_of c
                  +:+ ("__pulp:emit(" +:+ unknown_expression_text e +:+ ", event)")
                  +:+ nl) +:+ t, c')
         | Raised => Raised
         | Unmodelled => Unmodelled
         | OutOfFuel => OutOfFuel
         end.
Proof.
  intros Hunk. split; [by apply decode_rvalue_unknown|].
  intros p i later commands tags Hp Hi Htags.
  cbn [for_concat].
  assert (transpile_nth tile_ids (compiler tile_ids (S n)) p i c =
    Ok (gi_of c
        +:+ ("__pulp:emit(" +:+ unknown_expression_text e +:+ ", event)")
        +:+ nl,
        with_error ("unknown expression code: " +:+ e) c)) as Hstep.
  { unfold transpile_nth. mrun. rewrite Hp. mrun. rewrite Hi. mrun.
    unfold transpile_command. cbn [lookup list_lookup]. mrun.
    rewrite (bind_run _ _ _ _ _ Htags). bd.
    unfold line, op_emit. cbn [lookup list_lookup]. mrun.
    cbn [compiler rec_decode_rvalue].
    rewrite (bind_run _ _ c _ _ (decode_rvalue_unknown _ e args c Hunk)).
    reflexivity. }
  rewrite (bind_run _ _ c _ _ Hstep).
  unfold bind at 1.
  destruct (for_concat _ later _) as [[t c']| | |]; reflexivity.
Qed.

(** ** Calls ([op_call]) *)

Lemma drop_last_snoc (t : string) (x : ascii) :
  drop_last (t +:+ String x EmptyString) = t.
Proof.
  induction t as [|y t IH]; [reflexivity|].
  rewrite app_str_cons. cbn [drop_last]. rewrite IH.
  destruct t; reflexivity.
Qed.

Lemma unquote (t : string) : drop_last (drop_chars 1 (dq +:+ t +:+ dq)) = t.
Proof. apply drop_last_snoc. Qed.

Lemma op_call_tags_none fnstr tags : forall st c,
  no_script_tag tags ->
  for_fold (op_call_tag fnstr) st tags c = Ok (st, c).
Proof.
  induction tags as [|t tags IH]; intros st c Hno; [reflexivity|].
  inversion Hno as [|? ? Ht Hno']; subst.
  cbn [for_fold]. unfold op_call_tag at 1. destruct st as [fnbase comment].
  rewrite Ht. mrun. by apply IH.
Qed.


Lemma get_evobj_run ev c : last (evobjs c) = Some ev -> get_evobj c = Ok (ev, c).
Proof. intros H. unfold get_evobj. mrun. rewrite H. reflexivity. Qed.


(** ** Call-site tags ([get_next_cmds_tags]) *)


(** ** Built-in calls ([opex_func]) *)

(** C9. A built-in call that is resolved gets its text from exactly one of
    three tiers, tried in this order: the inline template of [prefix+op],
    with the argument placeholders substituted and nothing put around it;
    else the statically bound function of the bare [op], called directly;
    else the member [prefix+op] of the runtime namespace [__pulp]. *)
Theorem builtin_call_tiers (rec : Rec) (cmd : list node) (op prefix : string)
    (c : Ctx) (s : string) (c' : Ctx) :
  opex_func rec cmd op prefix c = Ok (s, c') ->
  exists (mainargs : list string) (setargs : gmap string string),
    for_fold (opex_arg rec) ([], initial_setargs) (drop 1 cmd) c =
      Ok ((mainargs, setargs), c')
    /\ let args := pad_args op setargs mainargs in
       (forall template,
          inlinefuncs !! (prefix +:+ op) = Some template ->
          s = subst_args template 0 args)
       /\ (inlinefuncs !! (prefix +:+ op) = None ->
           forall f, staticfuncs !! op = Some f ->
           s = (f +:+ "(") +:+ join ", " args +:+ ")")
       /\ (inlinefuncs !! (prefix +:+ op) = None ->
           staticfuncs !! op = None ->
           s = ("__pulp." +:+ prefix +:+ op +:+ "(") +:+ join ", " args +:+ ")").
Proof.
  unfold opex_func. intros H. minv.
  destruct a as [mainargs setargs]. exists mainargs, setargs.
  destruct (inlinefuncs !! (prefix +:+ op)) as [template|] eqn:Hin; minv.
  - split; [exact Hrun|]. cbv zeta. repeat split; intros; by simplify_eq.
  - split; [exact Hrun|]. cbv zeta. split; [intros ? ?; discriminate|]. split.
    + intros _ f Hf. by rewrite Hf.
    + intros _ Hf. by rewrite Hf.
Qed.

(** ** The prologue of a function scope ([transpile_commands]) *)

Lemma concat_str_app (l1 l2 : list string) :
  concat_str (l1 ++ l2) = concat_str l1 +:+ concat_str l2.
Proof.
  induction l1 as [|x l1 IH]; [reflexivity|].
  cbn [app concat_str]. by rewrite IH, app_str_assoc.
Qed.

Lemma prepend_cached_reverse (g : string) (decls : list string) : forall s,
  prepend_cached g decls s = declaration_lines g (reverse decls) +:+ s.
Proof.
  unfold prepend_cached, declaration_lines.
  induction decls as [|d decls IH]; intros s; [reflexivity|].
  cbn [fold_left]. rewrite IH, reverse_cons, fmap_app, concat_str_app.
  cbn [fmap list_fmap concat_str].
  by rewrite !app_str_assoc, app_str_nil_l.
Qed.

Lemma sorted_descending (l : list string) :
  StronglySorted (flip String.le) (reverse (sorted l)).
Proof.
  apply Sorted_StronglySorted; [apply _|].
  apply Sorted_reverse, Sorted_merge_sort. apply _.
Qed.

Lemma elem_of_sorted (l : list string) (d : string) :
  d ∈ reverse (sorted l) <-> d ∈ l.
Proof. unfold sorted. by rewrite elem_of_reverse, merge_sort_Permutation. Qed.

Lemma NoDup_sorted (l : list string) : NoDup l -> NoDup (reverse (sorted l)).
Proof.
  intros H. unfold sorted.
  by rewrite reverse_Permutation, merge_sort_Permutation.
Qed.

Lemma sorted_permutation (l1 l2 : list string) :
  l1 ≡ₚ l2 -> sorted l1 = sorted l2.
Proof.
  intros Hp. unfold sorted.
  apply (Sorted_unique String.le).
  - apply Sorted_merge_sort. apply _.
  - apply Sorted_merge_sort. apply _.
  - by rewrite !merge_sort_Permutation.
Qed.

Lemma function_scope_text (tile_ids : gmap string Z) (rec : Rec) (p : nat)
    (c : Ctx) (s : string) (c' : Ctx) :
  transpile_commands tile_ids rec p true c = Ok (s, c') ->
  exists (body : string) (c1 : Ctx) (top : gset string),
    transpile_commands tile_ids rec p false
      (set_funccache (funccache c ++ [∅]) c) = Ok (body, c1)
    /\ last (funccache c1) = Some top
    /\ c' = set_funccache (removelast (funccache c1)) c1
    /\ s = prepend_cached (gi_of c1) (sorted (elements top)) body.
Proof.
  unfold transpile_commands. intros H.
  unfold push_funccache, pop_funccache, get_funccache in H. minv.
  eexists _, _, _. split; [|split; [eassumption|split; reflexivity]].
  mrun. cbn [blocks set_funccache] in *.
  match goal with H : blocks _ !! p = Some _ |- _ => rewrite H end. mrun.
  match goal with
  | H : for_concat _ _ _ = Ok _ |- _ => rewrite (bind_run _ _ _ _ _ H)
  end.
  reflexivity.
Qed.

(** C1 (amended). A block compiled with a function scope returns the
    declaration lines of its cache frame, then the text of its body; the
    lines are the elements of the frame, each once, in DESCENDING order
    (the reverse of the sorted list: each sorted element is put in front of
    what is already there).  The lines are the same for every order in
    which the frame is enumerated: the text depends on the frame as a set
    and on the body alone. *)
Theorem function_scope_prologue (tile_ids : gmap string Z) (rec : Rec)
    (p : nat) (c : Ctx) (s : string) (c' : Ctx) :
  transpile_commands tile_ids rec p true c = Ok (s, c') ->
  exists (body : string) (c1 : Ctx) (top : gset string),
    transpile_commands tile_ids rec p false
      (set_funccache (funccache c ++ [∅]) c) = Ok (body, c1)
    /\ last (funccache c1) = Some top
    /\ c' = set_funccache (removelast (funccache c1)) c1
    /\ let decls := reverse (sorted (elements top)) in
       s = declaration_lines (gi_of c1) decls +:+ body
       /\ StronglySorted (flip String.le) decls
       /\ NoDup decls
       /\ (forall d, d ∈ decls <-> d ∈ top)
       /\ forall enumeration : list string,
            enumeration ≡ₚ elements top ->
            reverse (sorted enumeration) = decls.
Proof.
  intros H.
  destruct (function_scope_text _ _ _ _ _ _ H)
    as (body & c1 & top & Hbody & Htop & Hc' & Hs).
  exists body, c1, top. repeat (split; [done|]). cbv zeta.
  split; [by rewrite Hs, prepend_cached_reverse|].
  split; [apply sorted_descending|].
  split; [apply NoDup_sorted, NoDup_elements|].
  split; [intros d; rewrite elem_of_sorted; apply elem_of_elements|].
  intros enumeration Hperm. by rewrite (sorted_permutation _ _ Hperm).
Qed.

(** ** Special variables are declared once ([remap_special_varname]) *)

Lemma pingvar_run (v : string) (c : Ctx) :
  exists c1, pingvar v c = Ok (lvalue_text v, c1)
    /\ same_frame c c1 /\ funccache c1 = funccache c.
Proof.
  unfold pingvar, lvalue_text.
  destruct (contains_char "." v); [by eexists|].
  destruct (startswith v "__PTLE_"); [by eexists|].
  mrun. by eexists.
Qed.

Lemma for_concat_seq_run (f : nat -> M string) (I : nat -> Ctx -> Prop)
    (txt : nat -> string) : forall k i c,
  I i c ->
  (forall j cj, (i <= j < i + k)%nat -> I j cj ->
     exists cj', f j cj = Ok (txt j, cj') /\ I (S j) cj') ->
  exists c', for_concat f (seq i k) c = Ok (concat_str (txt <$> seq i k), c')
    /\ I (i + k)%nat c'.
Proof.
  induction k as [|k IH]; intros i c Hi Hstep.
  - exists c. rewrite Nat.add_0_r. by split.
  - destruct (Hstep i c) as (c1 & Hrun & Hi1); [lia|done|].
    destruct (IH (S i) c1 Hi1) as (c' & Hrest & HI').
    { intros j cj Hj. apply Hstep. lia. }
    exists c'. split.
    + cbn [seq for_concat fmap list_fmap concat_str].
      rewrite (bind_run _ _ _ _ _ Hrun), (bind_run _ _ _ _ _ Hrest). reflexivity.
    + by replace (i + S k)%nat with (S i + k)%nat by lia.
Qed.











(** ** Single-delegation collapse ([transpile_event]) *)

Lemma commentconfigure_frame mode conf c u c' :
  commentconfigure mode conf c = Ok (u, c') ->
  blocks c' = blocks c /\ full_mimics c' = full_mimics c.
Proof.
  unfold commentconfigure. intros H.
  repeat case_match; minv; repeat case_match; minv; done.
Qed.

Lemma comment_frame cmd prevline c s c' :
  comment cmd prevline c = Ok (s, c') ->
  blocks c' = blocks c /\ full_mimics c' = full_mimics c.
Proof.
  unfold comment. intros H. minv.
  match goal with
  | H : comment_text _ _ = Ok _ |- _ => apply comment_text_ctx in H as ->
  end.
  case_match; minv; [done|].
  repeat match goal with
  | H : (if ?b then _ else _) _ = Ok _ |- _ => destruct b
  | H : commentconfigure _ _ _ = Ok _ |- _ =>
      apply commentconfigure_frame in H; destruct H as [? ?]
  | _ => minv1
  end; split; congruence.
Qed.

Lemma decoration_step tile_ids rec p i c commands x s c' :
  decoration x ->
  blocks c !! p = Some commands ->
  commands !! i = Some x ->
  transpile_nth tile_ids rec p i c = Ok (s, c') ->
  blocks c' = blocks c /\ full_mimics c' = full_mimics c.
Proof.
  intros Hx Hp Hi H. unfold transpile_nth in H. mrun_in H. rewrite Hp in H.
  mrun_in H. rewrite Hi in H. mrun_in H.
  destruct x as [| | |[|[h| | |] rest]]; minv; try done.
  unfold transpile_command in H. cbn [lookup list_lookup] in H. mrun_in H.
  minv.
  match goal with
  | H : get_next_cmds_tags _ _ = Ok _ |- _ =>
      apply get_next_cmds_tags_ctx in H as ->
  end.
  cbn [decoration] in Hx. rewrite !elem_of_cons, elem_of_nil in Hx.
  destruct Hx as [->|[->|[->|[]]]].
  - revert H. bd. intros H. by minv.
  - revert H. bd. unfold line. intros H. minv. by eapply comment_frame.
  - revert H. bd. unfold line. intros H. minv. by eapply comment_frame.
Qed.

Lemma decode_optimized_id rec id name c :
  decode_rvalue rec (optimized_id id name) c =
    Ok ("--[[(" +:+ name +:+ ")]] " +:+ str_of_Z id, c).
Proof.
  unfold decode_rvalue, optimized_id. cbn [lookup list_lookup]. mrun. bd.
  unfold format_node. mrun. reflexivity.
Qed.

Lemma mimic_step tile_ids n p i c commands name id more s c' :
  blocks c !! p = Some commands ->
  commands !! i = Some (mimic_command (NStr name) more) ->
  tile_ids !! name = Some id ->
  transpile_nth tile_ids (compiler tile_ids (S n)) p i c = Ok (s, c') ->
  blocks c' !! p = Some (<[i := mimic_command (optimized_id id name) more]> commands)
  /\ full_mimics c' = full_mimics c.
Proof.
  intros Hp Hi Hid H. unfold transpile_nth in H. mrun_in H. rewrite Hp in H.
  mrun_in H. rewrite Hi in H. mrun_in H. unfold mimic_command in H.
  unfold transpile_command in H. cbn [lookup list_lookup] in H. mrun_in H. minv.
  match goal with
  | H : get_next_cmds_tags _ _ = Ok _ |- _ =>
      apply get_next_cmds_tags_ctx in H as ->
  end.
  revert H. bd. unfold line, op_mimic, optimize_name_ref.
  cbn [lookup list_lookup]. rewrite Hid. mrun.
  cbn [insert list_insert lookup list_lookup]. mrun.
  cbn [compiler rec_decode_rvalue].
  rewrite (bind_run _ _ _ _ _ (decode_optimized_id _ id name _)). mrun.
  intros H. minv. cbn [blocks full_mimics set_indent store_operand set_blocks fst snd].
  split; [|done].
  rewrite list_lookup_alter_eq, Hp. cbn [fmap option_fmap option_map]. f_equal.
  rewrite list_insert_alter. apply list_alter_ext; [|done].
  intros x Hx. simplify_eq. reflexivity.
Qed.

Lemma for_concat_seq_inv (f : nat -> M string) (I : nat -> Ctx -> Prop) :
  forall k i c s c',
  for_concat f (seq i k) c = Ok (s, c') ->
  I i c ->
  (forall j cj sj cj', (i <= j < i + k)%nat -> I j cj ->
     f j cj = Ok (sj, cj') -> I (S j) cj') ->
  I (i + k)%nat c'.
Proof.
  induction k as [|k IH]; intros i c s c' H Hi Hstep; cbn [seq for_concat] in H.
  - minv. by rewrite Nat.add_0_r.
  - minv. replace (i + S k)%nat with (S i + k)%nat by lia.
    eapply IH; [eassumption| |].
    + eapply Hstep; [|eassumption|eassumption]. lia.
    + intros j cj sj cj' Hj. apply Hstep. lia.
Qed.

Lemma undecorated_decorations (l : list node) (c : Ctx) :
  Forall decoration l -> undecorated l c = Ok ([], c).
Proof.
  induction 1 as [|x l Hx _ IH]; [reflexivity|].
  cbn [undecorated].
  destruct x as [| | |[|[h| | |] rest]]; try done.
  cbn [lookup list_lookup]. mrun. rewrite (bind_run _ _ _ _ _ IH). mrun.
  cbn [decoration] in Hx. unfold str_in. by rewrite (bool_decide_eq_true_2 _ Hx).
Qed.

Lemma undecorated_app (l1 l2 : list node) (c : Ctx) r2 :
  Forall decoration l1 ->
  undecorated l2 c = Ok (r2, c) ->
  undecorated (l1 ++ l2) c = Ok (r2, c).
Proof.
  induction 1 as [|x l Hx _ IH]; intros H2; [done|].
  cbn [app undecorated].
  destruct x as [| | |[|[h| | |] rest]]; try done; try by apply IH.
  cbn [lookup list_lookup]. mrun. rewrite (bind_run _ _ _ _ _ (IH H2)). mrun.
  cbn [decoration] in Hx. unfold str_in. by rewrite (bool_decide_eq_true_2 _ Hx).
Qed.

Lemma undecorated_single_mimic (pre post : list node) (target : node)
    (more : list node) (c : Ctx) :
  Forall decoration pre -> Forall decoration post ->
  undecorated (pre ++ mimic_command target more :: post) c =
    Ok ([NStr "mimic" :: target :: more], c).
Proof.
  intros Hpre Hpost. apply undecorated_app; [done|].
  cbn [undecorated mimic_command lookup list_lookup]. mrun.
  rewrite (bind_run _ _ _ _ _ (undecorated_decorations post c Hpost)). mrun.
  unfold str_in. bd. reflexivity.
Qed.

(** C2 (amended). A handler whose body, blank lines and comments apart, is
    one [mimic] of a tile name that [tile_ids] knows: compiling it rewrites
    the operand of the [mimic] in the block table to the resolved-id marker
    and appends exactly one record to [full_mimics], whose third component
    is the tile NAME as written (the third element of the marker), not the
    numeric id. *)
Theorem single_mimic_recorded (tile_ids : gmap string Z) (n : nat)
    (evobj evname : string) (blockidx : Z) (evobjname : option string)
    (comments evnames : list string) (c : Ctx) (p : nat)
    (pre post more : list node) (name : string) (id : Z) (s : string)
    (c' : Ctx) :
  index_pos (blocks c) blockidx = Some p ->
  blocks c !! p = Some (pre ++ mimic_command (NStr name) more :: post) ->
  Forall decoration pre -> Forall decoration post ->
  tile_ids !! name = Some id ->
  transpile_event tile_ids (compiler tile_ids (S n)) evobj evname blockidx
    evobjname comments evnames c = Ok (s, c') ->
  full_mimics c' = full_mimics c ++ [(evobj, evname, NStr name)]
  /\ blocks c' !! p =
       Some (pre ++ mimic_command (optimized_id id name) more :: post).
Proof.
  intros Hidx Hp Hpre Hpost Hid H.
  unfold transpile_event, deref_block in H. mrun_in H. rewrite Hidx in H.
  mrun_in H. unfold push_evobj in H. mrun_in H.
  set (c0 := set_root_evobj _ _) in H.
  unfold transpile_commands, push_funccache in H. mrun_in H.
  set (cstart := set_funccache _ c0) in H.
  set (block0 := pre ++ mimic_command (NStr name) more :: post) in *.
  set (block1 := pre ++ mimic_command (optimized_id id name) more :: post).
  assert (blocks cstart !! p = Some block0) as Hp0 by exact Hp.
  rewrite Hp0 in H. mrun_in H.
  apply bind_Ok in H as (body & c1 & Hloop & H).
  set (I := fun (j : nat) (cj : Ctx) =>
    blocks cj !! p = Some (if decide (j <= length pre)%nat then block0 else block1)
    /\ full_mimics cj = full_mimics c).
  assert (I (0 + length block0)%nat c1) as [Hb1 Hfm1].
  { eapply (for_concat_seq_inv _ I); [exact Hloop| |].
    - split; [|done]. by rewrite decide_True by lia.
    - intros j cj sj cj' [_ Hj] [Hbj Hfj] Hstep. unfold I.
      unfold block0 in Hj. rewrite length_app in Hj. cbn [length] in Hj.
      destruct (decide (j < length pre)%nat) as [Hlt|Hge].
      + rewrite decide_True in Hbj by lia. rewrite decide_True by lia.
        destruct (lookup_lt_is_Some_2 pre j Hlt) as [x Hx].
        destruct (decoration_step tile_ids (compiler tile_ids (S n)) p j cj block0 x sj cj') as [Hb Hf];
          try done.
        * exact (Forall_lookup_1 _ _ _ _ Hpre Hx).
        * unfold block0. by rewrite lookup_app_l.
        * split; congruence.
      + destruct (decide (j = length pre)) as [->|Hne].
        * rewrite decide_True in Hbj by lia. rewrite decide_False by lia.
          destruct (mimic_step tile_ids n p (length pre) cj block0 name id more
                      sj cj') as [Hb Hf]; try done.
          { unfold block0. by rewrite list_lookup_middle. }
          split; [|congruence]. rewrite Hb. f_equal. unfold block0, block1.
          rewrite insert_app_r_alt by lia. by rewrite Nat.sub_diag.
        * rewrite decide_False in Hbj by lia. rewrite decide_False by lia.
          assert (exists x, post !! (j - S (length pre))%nat = Some x) as [x Hx].
          { apply lookup_lt_is_Some_2. lia. }
          destruct (decoration_step tile_ids (compiler tile_ids (S n)) p j cj block1 x sj cj') as [Hb Hf];
            try done.
          -- exact (Forall_lookup_1 _ _ _ _ Hpost Hx).
          -- unfold block1. rewrite lookup_app_r by lia.
             replace (j - length pre)%nat with (S (j - S (length pre))) by lia.
             exact Hx.
          -- split; congruence. }
  rewrite decide_False in Hb1.
  2: { unfold block0. rewrite length_app. cbn [length]. lia. }
  unfold get_funccache, pop_funccache, pop_evobj in H. mrun_in H.
  destruct (last (funccache c1)) as [top|] eqn:Htop; [|discriminate H].
  mrun_in H. cbn [blocks set_funccache set_evobjs] in H. rewrite Hb1 in H.
  mrun_in H. unfold block1 in H.
  rewrite (bind_run _ _ _ _ _
             (undecorated_single_mimic pre post _ more _ Hpre Hpost)) in H.
  revert H. cbn [lookup list_lookup]. mrun. unfold is_str, optimized_id. bd.
  mrun. cbn [lookup list_lookup]. mrun. bd. mrun. intros H. minv.
  cbn [full_mimics blocks set_full_mimics set_funccache set_evobjs].
  split; [by rewrite Hfm1|exact Hb1].
Qed.

(** ** Stack hygiene ([transpile_event]) *)

Lemma kd_ret {A} (a : A) : keeps_depth (ret a).
Proof. intros c a' c' H. by minv. Qed.

Lemma kd_raise {A} : keeps_depth (@raise A).
Proof. intros c a' c' H. by minv. Qed.

Lemma kd_unmodelled {A} : keeps_depth (@unmodelled A).
Proof. intros c a' c' H. by minv. Qed.

Lemma kd_out_of_fuel {A} : keeps_depth (@out_of_fuel A).
Proof. intros c a' c' H. by minv. Qed.

Lemma kd_lookup_or_raise {A} (o : option A) : keeps_depth (lookup_or_raise o).
Proof. intros c a' c' H. by minv. Qed.

Lemma kd_gets {A} (f : Ctx -> A) : keeps_depth (gets f).
Proof. intros c a' c' H. by minv. Qed.

Lemma kd_bind {A B} (m : M A) (k : A -> M B) :
  keeps_depth m -> (forall a, keeps_depth (k a)) -> keeps_depth (bind m k).
Proof.
  intros Hm Hk c b c' H. minv.
  etrans; [eapply Hk|eapply Hm]; eassumption.
Qed.

Lemma kd_for_concat {A} (f : A -> M string) (l : list A) :
  (forall x, keeps_depth (f x)) -> keeps_depth (for_concat f l).
Proof.
  intros Hf. induction l as [|x l IH]; cbn [for_concat].
  - apply kd_ret.
  - intros c b c' H. minv.
    etrans; [eapply IH|eapply Hf]; eassumption.
Qed.

Lemma kd_for_list {A B} (f : A -> M B) (l : list A) :
  (forall x, keeps_depth (f x)) -> keeps_depth (for_list f l).
Proof.
  intros Hf. induction l as [|x l IH]; cbn [for_list].
  - intros c b c' H. by minv.
  - intros c b c' H. minv.
    etrans; [eapply IH|eapply Hf]; eassumption.
Qed.

Lemma kd_for_fold {A B} (f : B -> A -> M B) (l : list A) : forall acc,
  (forall acc x, keeps_depth (f acc x)) -> keeps_depth (for_fold f acc l).
Proof.
  induction l as [|x l IH]; intros acc Hf; cbn [for_fold].
  - intros c b c' H. by minv.
  - intros c b c' H. minv.
    etrans; [eapply IH|eapply Hf]; eassumption.
Qed.
Lemma kd_get_ctx : keeps_depth get_ctx.
Proof. intros c a' c' H. by minv. Qed.

Lemma kd_assert b : keeps_depth (assert b).
Proof. intros c a' c' H. by minv. Qed.

Lemma kd_gi : keeps_depth gi.
Proof. intros c a' c' H. by minv. Qed.

Lemma kd_modify (f : Ctx -> Ctx) :
  (forall c, depth (f c) = depth c) -> keeps_depth (modify f).
Proof. intros Hf c a' c' H. minv. apply Hf. Qed.

Lemma kd_add_indent d : keeps_depth (add_indent d).
Proof. by apply kd_modify. Qed.

Lemma kd_add_error msg : keeps_depth (add_error msg).
Proof. by apply kd_modify. Qed.

Lemma length_removelast {A} (l : list A) :
  length (removelast l) = pred (length l).
Proof.
  induction l as [|x [|y l] IH]; [done..|].
  change (S (length (removelast (y :: l))) = S (length l)). by rewrite IH.
Qed.

Lemma kd_funccache_add line : keeps_depth (funccache_add line).
Proof.
  intros c a c' H. unfold funccache_add, get_funccache in H. minv.
  unfold depth. cbn. f_equal.
  match goal with H : last _ = Some _ |- _ => apply last_Some in H as [l ->] end.
  by rewrite removelast_last, !length_app.
Qed.

Ltac kd1 :=
  match goal with
  | H : _ |- _ => apply H
  | |- keeps_depth (bind _ _) => apply kd_bind; [|intros ?]
  | |- keeps_depth (ret _) => apply kd_ret
  | |- keeps_depth raise => apply kd_raise
  | |- keeps_depth unmodelled => apply kd_unmodelled
  | |- keeps_depth out_of_fuel => apply kd_out_of_fuel
  | |- keeps_depth (lookup_or_raise _) => apply kd_lookup_or_raise
  | |- keeps_depth (gets _) => apply kd_gets
  | |- keeps_depth get_ctx => apply kd_get_ctx
  | |- keeps_depth (assert _) => apply kd_assert
  | |- keeps_depth gi => apply kd_gi
  | |- keeps_depth (add_indent _) => apply kd_add_indent
  | |- keeps_depth (add_error _) => apply kd_add_error
  | |- keeps_depth (funccache_add _) => apply kd_funccache_add
  | |- keeps_depth (modify _) => apply kd_modify; intros ?; reflexivity
  | |- keeps_depth (for_concat _ _) => apply kd_for_concat; intros ?
  | |- keeps_depth (for_list _ _) => apply kd_for_list; intros ?
  | |- keeps_depth (for_fold _ _ _) => apply kd_for_fold; intros ? ?
  | |- keeps_depth (if ?b then _ else _) => destruct b
  | |- keeps_depth (match ?x with _ => _ end) => destruct x
  | |- keeps_depth (let (_, _) := ?x in _) => destruct x
  end.

Ltac kd := repeat kd1.

Lemma kd_pingvar v : keeps_depth (pingvar v).
Proof. unfold pingvar. kd. Qed.

Lemma kd_remap v : keeps_depth (remap_special_varname v).
Proof. unfold remap_special_varname, cached. kd. Qed.

Lemma kd_add_script_tag a b : keeps_depth (add_script_tag a b).
Proof. unfold add_script_tag. kd. Qed.

Lemma kd_commentconfigure a b : keeps_depth (commentconfigure a b).
Proof. unfold commentconfigure. kd. Qed.

Lemma kd_comment_text idx : keeps_depth (comment_text idx).
Proof. unfold comment_text. kd. Qed.

Lemma kd_comment cmd b : keeps_depth (comment cmd b).
Proof.
  unfold comment.
  pose proof kd_comment_text. pose proof kd_commentconfigure. kd.
Qed.

Lemma kd_get_next_cmds_tags cmds : keeps_depth (get_next_cmds_tags cmds).
Proof.
  intros c a c' H. by apply get_next_cmds_tags_ctx in H as ->.
Qed.

Lemma kd_format_node n : keeps_depth (format_node n).
Proof. unfold format_node. kd. Qed.

Lemma kd_ex_get e : keeps_depth (ex_get e).
Proof. unfold ex_get. pose proof kd_pingvar. pose proof kd_remap. kd. Qed.

Lemma kd_op_inc cmd o : keeps_depth (op_inc cmd o).
Proof. unfold op_inc. kd. Qed.

Lemma kd_assert_block b : keeps_depth (assert_block b).
Proof. unfold assert_block. kd. Qed.

Lemma kd_deref_block b : keeps_depth (deref_block b).
Proof. unfold deref_block. kd. Qed.

Lemma kd_get_evobj : keeps_depth get_evobj.
Proof. unfold get_evobj. kd. Qed.

Lemma kd_undecorated l : keeps_depth (undecorated l).
Proof.
  induction l as [|x l IH]; cbn [undecorated]; kd.
Qed.

(** Depth facts from the steps of a run that ended with [Ok]. *)
Ltac kd_fwd :=
  repeat match goal with
  | H : ?m ?c = Ok (_, ?c') |- _ =>
      let K := fresh "K" in
      assert (K : keeps_depth m) by kd;
      apply K in H
  end.

Ltac kd_close :=
  unfold depth in *; cbn in *; simplify_eq;
  rewrite ?length_removelast, ?length_app in *; cbn in *;
  f_equal; lia.

Section DepthCompiler.

Variable tile_ids : gmap string Z.
Variable rec : Rec.
Hypothesis Hdecode : forall e, keeps_depth (rec_decode_rvalue rec e).
Hypothesis Hcommands : forall p b, keeps_depth (rec_transpile_commands rec p b).
Hypothesis Hblock : forall cmd s f e, keeps_depth (rec_op_block rec cmd s f e).

Lemma kd_optimize_name_ref a cmd idx :
  keeps_depth (optimize_name_ref tile_ids a cmd idx).
Proof. unfold optimize_name_ref. kd. Qed.

Lemma kd_opex_arg st arg : keeps_depth (opex_arg rec st arg).
Proof. unfold opex_arg. kd. Qed.

Lemma kd_opex_func cmd op prefix : keeps_depth (opex_func rec cmd op prefix).
Proof. unfold opex_func. pose proof kd_opex_arg. kd. Qed.

Lemma kd_ex_format e : keeps_depth (ex_format rec e).
Proof. unfold ex_format. kd. Qed.

Lemma kd_ex_embed e : keeps_depth (ex_embed rec e).
Proof. unfold ex_embed. kd. Qed.

Lemma kd_ex_subroutine e : keeps_depth (ex_subroutine rec e).
Proof. unfold ex_subroutine. pose proof kd_deref_block. kd. Qed.

Lemma kd_ex_name e : keeps_depth (ex_name rec e).
Proof. unfold ex_name. pose proof kd_opex_func. kd. Qed.

Lemma kd_decode_rvalue e : keeps_depth (decode_rvalue rec e).
Proof.
  unfold decode_rvalue.
  pose proof kd_ex_get. pose proof kd_format_node. pose proof kd_ex_format.
  pose proof kd_ex_embed. pose proof kd_ex_name. pose proof kd_opex_func.
  pose proof kd_ex_subroutine. kd.
Qed.

Lemma kd_op_set cmd o : keeps_depth (op_set rec cmd o).
Proof. unfold op_set. pose proof kd_pingvar. kd. Qed.

Lemma kd_transpile_block_ref bl : keeps_depth (transpile_block_ref rec bl).
Proof. unfold transpile_block_ref. pose proof kd_deref_block. kd. Qed.

Lemma kd_op_block_followup sub : keeps_depth (op_block_followup rec sub).
Proof.
  unfold op_block_followup.
  pose proof kd_assert_block. pose proof kd_transpile_block_ref. kd.
Qed.

Lemma kd_op_block cmd s f e : keeps_depth (op_block rec cmd s f e).
Proof.
  unfold op_block.
  pose proof kd_assert_block. pose proof kd_transpile_block_ref.
  pose proof kd_op_block_followup. pose proof kd_pingvar. pose proof kd_remap.
  kd.
Qed.

Lemma kd_op_call_tag fnstr st tag : keeps_depth (op_call_tag fnstr st tag).
Proof. unfold op_call_tag. pose proof kd_add_script_tag. kd. Qed.

Lemma kd_op_call cmd tags : keeps_depth (op_call rec cmd tags).
Proof.
  unfold op_call. pose proof kd_get_evobj. pose proof kd_op_call_tag. kd.
Qed.

Lemma kd_op_emit cmd : keeps_depth (op_emit rec cmd).
Proof. unfold op_emit. kd. Qed.

Lemma kd_op_mimic a cmd : keeps_depth (op_mimic tile_ids rec a cmd).
Proof. unfold op_mimic. pose proof kd_optimize_name_ref. kd. Qed.

Lemma kd_op_tell_inline cmd head local_actor guard :
  keeps_depth local_actor ->
  keeps_depth (op_tell_inline rec cmd head local_actor guard).
Proof.
  intros Hla c a c' H. unfold op_tell_inline, push_evobj, pop_evobj in H.
  pose proof kd_assert_block. pose proof kd_deref_block.
  minv. kd_fwd. kd_close.
Qed.

Lemma kd_op_tell a cmd : keeps_depth (op_tell tile_ids rec a cmd).
Proof.
  assert (keeps_depth
    (r <- optimize_name_ref tile_ids a cmd 1;;
     _ <- push_evobj "__actor.script";;
     s <- opex_func rec (snd r) "tell" "__fn_";;
     _ <- pop_evobj;; ret s)) as Hgeneric.
  { intros c x c' H. unfold push_evobj, pop_evobj in H.
    pose proof kd_optimize_name_ref. pose proof kd_opex_func.
    minv. kd_fwd. kd_close. }
  unfold op_tell. pose proof kd_op_tell_inline.
  kd1. kd1. kd1; try exact Hgeneric. kd1. kd1. kd1.
  - apply kd_op_tell_inline. kd.
  - kd1; [|exact Hgeneric]. kd1. kd1. kd1; [|exact Hgeneric].
    apply kd_op_tell_inline. kd.
Qed.

Lemma kd_op_random cmd : keeps_depth (op_random rec cmd).
Proof. unfold op_random. kd. Qed.

Lemma kd_line m : keeps_depth m -> keeps_depth (line m).
Proof. intros Hm. unfold line. kd. Qed.

Lemma kd_transpile_command a cmd next :
  keeps_depth (transpile_command tile_ids rec a cmd next).
Proof.
  unfold transpile_command.
  pose proof kd_get_next_cmds_tags.
  kd1. kd1. kd1. kd1. kd1; [|apply kd_raise..].
  repeat match goal with
  | |- keeps_depth (if ?b then _ else _) => destruct b
  | |- keeps_depth (line _) => apply kd_line
  end;
  first [ apply kd_op_set | apply kd_op_inc | apply kd_op_random
        | apply kd_op_block | apply kd_op_call | apply kd_op_emit
        | apply kd_op_mimic | apply kd_op_tell | apply kd_opex_func
        | apply kd_comment | kd ].
Qed.

Lemma kd_transpile_nth p i : keeps_depth (transpile_nth tile_ids rec p i).
Proof. unfold transpile_nth. pose proof kd_transpile_command. kd. Qed.

Lemma kd_transpile_commands p b :
  keeps_depth (transpile_commands tile_ids rec p b).
Proof.
  intros c a c' H.
  unfold transpile_commands, push_funccache, pop_funccache, get_funccache in H.
  pose proof kd_transpile_nth.
  destruct b; minv; kd_fwd; kd_close.
Qed.

Lemma kd_transpile_event evobj evname blockidx evobjname comments evnames :
  keeps_depth
    (transpile_event tile_ids rec evobj evname blockidx evobjname comments
       evnames).
Proof.
  intros c a c' H. unfold transpile_event, push_evobj, pop_evobj in H.
  pose proof kd_deref_block. pose proof kd_transpile_commands.
  pose proof kd_undecorated.
  minv. kd_fwd. kd_close.
Qed.

End DepthCompiler.

Lemma compiler_keeps_depth (tile_ids : gmap string Z) (fuel : nat) :
  rec_keeps_depth (compiler tile_ids fuel).
Proof.
  induction fuel as [|n (Hd & Hc & Hb)]; cbn [compiler].
  - repeat split; intros; apply kd_out_of_fuel.
  - repeat split; intros; cbn [rec_decode_rvalue rec_transpile_commands rec_op_block].
    + by apply kd_decode_rvalue.
    + by apply kd_transpile_commands.
    + by apply kd_op_block.
Qed.

(** C4. After a top-level handler is compiled, the cache-frame stack and
    the dispatch-object stack have the depth they had before, whatever the
    nesting of if/while/tell/inline-subroutine blocks in its body and
    whatever the recursion depth allowed. *)
Theorem handler_restores_stacks (tile_ids : gmap string Z) (fuel : nat)
    (evobj evname : string) (blockidx : Z) (evobjname : option string)
    (comments evnames : list string) (c : Ctx) (s : string) (c' : Ctx) :
  transpile_event tile_ids (compiler tile_ids fuel) evobj evname blockidx
    evobjname comments evnames c = Ok (s, c') ->
  length (funccache c') = length (funccache c)
  /\ length (evobjs c') = length (evobjs c).
Proof.
  intros H. destruct (compiler_keeps_depth tile_ids fuel) as (Hd & Hc & Hb).
  apply (kd_transpile_event tile_ids _ Hd Hc Hb) in H.
  unfold depth in H. by simplify_eq.
Qed.

(** ** The recursion depth is only a bound *)

(** A run that returns with some recursion depth returns the same result
    with any greater depth. *)

Lemma refines_refl {A} (m : M A) : refines m m.
Proof. by intros c r. Qed.

Lemma refines_bind {A B} (m m' : M A) (k k' : A -> M B) :
  refines m m' -> (forall a, refines (k a) (k' a)) ->
  refines (bind m k) (bind m' k').
Proof.
  intros Hm Hk c [b c'] H. minv.
  rewrite (bind_run _ _ _ _ _ (Hm _ _ Hrun)). by apply Hk.
Qed.

Lemma refines_for_concat {A} (f f' : A -> M string) (l : list A) :
  (forall x, refines (f x) (f' x)) -> refines (for_concat f l) (for_concat f' l).
Proof.
  intros Hf. induction l as [|x l IH]; cbn [for_concat]; [apply refines_refl|].
  apply refines_bind; [apply Hf|]. intros s.
  apply refines_bind; [apply IH|]. intros t. apply refines_refl.
Qed.

Lemma refines_for_list {A B} (f f' : A -> M B) (l : list A) :
  (forall x, refines (f x) (f' x)) -> refines (for_list f l) (for_list f' l).
Proof.
  intros Hf. induction l as [|x l IH]; cbn [for_list]; [apply refines_refl|].
  apply refines_bind; [apply Hf|]. intros s.
  apply refines_bind; [apply IH|]. intros t. apply refines_refl.
Qed.

Lemma refines_for_fold {A B} (f f' : B -> A -> M B) (l : list A) : forall acc,
  (forall acc x, refines (f acc x) (f' acc x)) ->
  refines (for_fold f acc l) (for_fold f' acc l).
Proof.
  induction l as [|x l IH]; intros acc Hf; cbn [for_fold]; [apply refines_refl|].
  apply refines_bind; [apply Hf|]. intros acc'. by apply IH.
Qed.

Ltac rf1 :=
  match goal with
  | |- refines ?m ?m => apply refines_refl
  | H : _ |- _ => apply H
  | |- refines (bind _ _) (bind _ _) => apply refines_bind; [|intros ?]
  | |- refines (for_concat _ _) (for_concat _ _) =>
      apply refines_for_concat; intros ?
  | |- refines (for_list _ _) (for_list _ _) => apply refines_for_list; intros ?
  | |- refines (for_fold _ _ _) (for_fold _ _ _) =>
      apply refines_for_fold; intros ? ?
  | |- refines (if ?b then _ else _) _ => destruct b
  | |- refines (match ?x with _ => _ end) _ => destruct x
  | |- refines (let (_, _) := ?x in _) _ => destruct x
  end.

Ltac rf := repeat rf1.

Section Refinement.

Variable tile_ids : gmap string Z.
Variables rec rec' : Rec.
Hypothesis Hdecode :
  forall e, refines (rec_decode_rvalue rec e) (rec_decode_rvalue rec' e).
Hypothesis Hcommands : forall p b,
  refines (rec_transpile_commands rec p b) (rec_transpile_commands rec' p b).
Hypothesis Hblock : forall cmd s f e,
  refines (rec_op_block rec cmd s f e) (rec_op_block rec' cmd s f e).

Lemma rf_opex_arg st arg : refines (opex_arg rec st arg) (opex_arg rec' st arg).
Proof. unfold opex_arg. rf. Qed.

Lemma rf_opex_func cmd op prefix :
  refines (opex_func rec cmd op prefix) (opex_func rec' cmd op prefix).
Proof. unfold opex_func. pose proof rf_opex_arg. rf. Qed.

Lemma rf_ex_format e : refines (ex_format rec e) (ex_format rec' e).
Proof. unfold ex_format. rf. Qed.

Lemma rf_ex_embed e : refines (ex_embed rec e) (ex_embed rec' e).
Proof. unfold ex_embed. rf. Qed.

Lemma rf_ex_subroutine e : refines (ex_subroutine rec e) (ex_subroutine rec' e).
Proof. unfold ex_subroutine. rf. Qed.

Lemma rf_ex_name e : refines (ex_name rec e) (ex_name rec' e).
Proof. unfold ex_name. pose proof rf_opex_func. rf. Qed.

Lemma rf_decode_rvalue e : refines (decode_rvalue rec e) (decode_rvalue rec' e).
Proof.
  unfold decode_rvalue.
  pose proof rf_ex_format. pose proof rf_ex_embed. pose proof rf_ex_name.
  pose proof rf_opex_func. pose proof rf_ex_subroutine. rf.
Qed.

Lemma rf_op_set cmd o : refines (op_set rec cmd o) (op_set rec' cmd o).
Proof. unfold op_set. rf. Qed.

Lemma rf_transpile_block_ref bl :
  refines (transpile_block_ref rec bl) (transpile_block_ref rec' bl).
Proof. unfold transpile_block_ref. rf. Qed.

Lemma rf_op_block_followup sub :
  refines (op_block_followup rec sub) (op_block_followup rec' sub).
Proof. unfold op_block_followup. pose proof rf_transpile_block_ref. rf. Qed.

Lemma rf_op_block cmd s f e :
  refines (op_block rec cmd s f e) (op_block rec' cmd s f e).
Proof.
  unfold op_block.
  pose proof rf_transpile_block_ref. pose proof rf_op_block_followup. rf.
Qed.

Lemma rf_op_call cmd tags : refines (op_call rec cmd tags) (op_call rec' cmd tags).
Proof. unfold op_call. rf. Qed.

Lemma rf_op_emit cmd : refines (op_emit rec cmd) (op_emit rec' cmd).
Proof. unfold op_emit. rf. Qed.

Lemma rf_op_mimic a cmd :
  refines (op_mimic tile_ids rec a cmd) (op_mimic tile_ids rec' a cmd).
Proof. unfold op_mimic. rf. Qed.

Lemma rf_op_tell_inline cmd head la la' guard :
  refines la la' ->
  refines (op_tell_inline rec cmd head la guard)
    (op_tell_inline rec' cmd head la' guard).
Proof. intros Hla. unfold op_tell_inline. rf. Qed.

Lemma rf_op_tell a cmd :
  refines (op_tell tile_ids rec a cmd) (op_tell tile_ids rec' a cmd).
Proof.
  unfold op_tell. pose proof rf_opex_func.
  repeat first [ apply rf_op_tell_inline | rf1 ].
Qed.

Lemma rf_op_random cmd : refines (op_random rec cmd) (op_random rec' cmd).
Proof. unfold op_random. rf. Qed.

Lemma rf_line m m' : refines m m' -> refines (line m) (line m').
Proof. intros H. unfold line. rf. Qed.

Lemma rf_transpile_command a cmd next :
  refines (transpile_command tile_ids rec a cmd next)
    (transpile_command tile_ids rec' a cmd next).
Proof.
  unfold transpile_command.
  pose proof rf_op_set. pose proof rf_op_block. pose proof rf_op_call.
  pose proof rf_op_emit. pose proof rf_op_mimic. pose proof rf_op_tell.
  pose proof rf_opex_func. pose proof rf_op_random.
  rf1. rf1. rf1. rf1. rf1; [|apply refines_refl..].
  repeat match goal with
  | |- refines (if ?b then _ else _) _ => destruct b
  | |- refines (line _) (line _) => apply rf_line
  end; rf.
Qed.

Lemma rf_transpile_nth p i :
  refines (transpile_nth tile_ids rec p i) (transpile_nth tile_ids rec' p i).
Proof. unfold transpile_nth. pose proof rf_transpile_command. rf. Qed.

Lemma rf_transpile_commands p b :
  refines (transpile_commands tile_ids rec p b)
    (transpile_commands tile_ids rec' p b).
Proof. unfold transpile_commands. pose proof rf_transpile_nth. rf. Qed.

Lemma rf_transpile_event evobj evname blockidx evobjname comments evnames :
  refines
    (transpile_event tile_ids rec evobj evname blockidx evobjname comments
       evnames)
    (transpile_event tile_ids rec' evobj evname blockidx evobjname comments
       evnames).
Proof. unfold transpile_event. pose proof rf_transpile_commands. rf. Qed.

End Refinement.

Lemma compiler_step (tile_ids : gmap string Z) (n : nat) :
  rec_refines (compiler tile_ids n) (compiler tile_ids (S n)).
Proof.
  induction n as [|n (Hd & Hc & Hb)].
  - repeat split; intros; intros c r H; discriminate H.
  - repeat split; intros;
      cbn [compiler rec_decode_rvalue rec_transpile_commands rec_op_block].
    + by apply rf_decode_rvalue.
    + by apply rf_transpile_commands.
    + by apply rf_op_block.
Qed.

Lemma compiler_fuel_monotone (tile_ids : gmap string Z) (n m : nat) :
  (n <= m)%nat -> rec_refines (compiler tile_ids n) (compiler tile_ids m).
Proof.
  induction 1 as [|m _ (Hd & Hc & Hb)].
  - repeat split; intros; apply refines_refl.
  - destruct (compiler_step tile_ids m) as (Hd' & Hc' & Hb').
    repeat split; intros; intros c r H.
    + by apply Hd', Hd.
    + by apply Hc', Hc.
    + by apply Hb', Hb.
Qed.

Lemma transpile_event_fuel_monotone (tile_ids : gmap string Z) (n m : nat)
    evobj evname blockidx evobjname comments evnames c r :
  (n <= m)%nat ->
  transpile_event tile_ids (compiler tile_ids n) evobj evname blockidx
    evobjname comments evnames c = Ok r ->
  transpile_event tile_ids (compiler tile_ids m) evobj evname blockidx
    evobjname comments evnames c = Ok r.
Proof.
  intros Hle. destruct (compiler_fuel_monotone tile_ids n m Hle) as (Hd & Hc & Hb).
  by apply rf_transpile_event.
Qed.

(** * The properties at concrete programs *)

Ltac run := vm_compute; reflexivity.

Ltac differ :=
  let H := fresh in
  intros H; vm_compute in H; discriminate H.

(** ** C1 *)

Lemma function_scope_prologue_witness :
  exists (s : string) (c' : Ctx),
    transpile_commands ∅ (compiler ∅ 1) 0 true (init_ctx [ex_reads_xy])
      = Ok (s, c')
    /\ exists (body : string) (c1 : Ctx) (top : gset string),
         transpile_commands ∅ (compiler ∅ 1) 0 false
           (set_funccache (funccache (init_ctx [ex_reads_xy]) ++ [∅])
              (init_ctx [ex_reads_xy])) = Ok (body, c1)
         /\ last (funccache c1) = Some top
         /\ c' = set_funccache (removelast (funccache c1)) c1
         /\ let decls := reverse (sorted (elements top)) in
            s = declaration_lines (gi_of c1) decls +:+ body
            /\ StronglySorted (flip String.le) decls
            /\ NoDup decls
            /\ (forall d, d ∈ decls <-> d ∈ top)
            /\ forall enumeration : list string,
                 enumeration ≡ₚ elements top ->
                 reverse (sorted enumeration) = decls.
Proof.
  eexists _, _. split; [run|].
  eapply (function_scope_prologue ∅ (compiler ∅ 1) 0 (init_ctx [ex_reads_xy])).
  run.
Defined.

(** The declarations of [event.x] and [event.y] come out as [y] then [x]:
    descending, not in the sorted order the specification states. *)
Lemma sorted_prologue_counterexample :
  value_of
    (transpile_commands ∅ (compiler ∅ 1) 0 true (init_ctx [ex_reads_xy]))
    = Some (declaration_lines "  " [event_y_decl; event_x_decl]
            +:+ ex_reads_xy_body)
  /\ sorted (elements ({[event_x_decl; event_y_decl]} : gset string))
     = [event_x_decl; event_y_decl]
  /\ value_of
       (transpile_commands ∅ (compiler ∅ 1) 0 true (init_ctx [ex_reads_xy]))
     <> Some (prologue_as_specified "  " {[event_x_decl; event_y_decl]}
                ex_reads_xy_body).
Proof. split; [run|split; [run|differ]]. Qed.

(** ** C2 *)

Lemma single_mimic_recorded_witness :
  exists (s : string) (c' : Ctx),
    transpile_event ex_tiles (compiler ex_tiles 1) "player" "update" 0 None
      ["mimic the wall"] ["update"] (init_ctx [ex_mimic_handler]) = Ok (s, c')
    /\ full_mimics c' =
         full_mimics (init_ctx [ex_mimic_handler])
         ++ [("player", "update", NStr "wall")]
    /\ blocks c' !! 0%nat =
         Some ([NList [NStr "#"; NInt 0]; NList [NStr "_"]]
               ++ mimic_command (optimized_id 5 "wall") [] :: []).
Proof.
  eexists _, _. split; [run|].
  eapply (single_mimic_recorded ex_tiles 0 "player" "update" 0 None
           ["mimic the wall"] ["update"] (init_ctx [ex_mimic_handler]) 0
           [NList [NStr "#"; NInt 0]; NList [NStr "_"]] [] [] "wall" 5).
  - run.
  - run.
  - repeat constructor; cbn; set_solver.
  - constructor.
  - run.
  - run.
Defined.

(** The record of a handler that only mimics the tile [wall], whose id is 5,
    holds the name [wall], not the id. *)
Lemma numeric_target_counterexample :
  ex_tiles !! "wall" = Some 5
  /\ full_mimics <$>
       ctx_of
         (transpile_event ex_tiles (compiler ex_tiles 1) "player" "update" 0
            None ["mimic the wall"] ["update"] (init_ctx [ex_mimic_handler]))
     = Some [("player", "update", NStr "wall")]
  /\ full_mimics <$>
       ctx_of
         (transpile_event ex_tiles (compiler ex_tiles 1) "player" "update" 0
            None ["mimic the wall"] ["update"] (init_ctx [ex_mimic_handler]))
     <> Some [("player", "update", NInt 5)].
Proof. split; [run|split; [run|differ]]. Qed.

(** ** C3 *)

Lemma pingvar_reserved_prefix_witness :
  pingvar "__x" (init_ctx []) =
    Ok (sanitize_varname ("__" +:+ "__x"),
        set_vars (vars (init_ctx []) ∪ {[sanitize_varname ("__" +:+ "__x")]})
          (set_var_usage
             (<["__x" := usage_count (init_ctx []) "__x" + 1]>
                (var_usage (init_ctx []))) (init_ctx [])))
  /\ (is_id "__x" = true -> sanitize_varname ("__" +:+ "__x") = "__" +:+ "__x").
Proof. apply (pingvar_reserved_prefix "__x" (init_ctx [])); reflexivity. Defined.

(** [__x] is registered as [____x]: two more underscores, where the
    specification has one ([___x]). *)
Lemma one_underscore_counterexample :
  value_of (pingvar "__x" (init_ctx [])) = Some "____x"
  /\ value_of (pingvar "__x" (init_ctx []))
     <> Some (sanitize_varname ("_" +:+ "__x"))
  /\ vars <$> ctx_of (pingvar "__x" (init_ctx [])) = Some {["____x"]}.
Proof. split; [run|split; [differ|run]]. Qed.

(** ** C4 *)

Lemma handler_restores_stacks_witness :
  exists (s : string) (c' : Ctx),
    transpile_event ex_tiles (compiler ex_tiles 5) "player" "update" 0 None
      [] ["update"] (init_ctx ex_nested) = Ok (s, c')
    /\ length (funccache c') = length (funccache (init_ctx ex_nested))
    /\ length (evobjs c') = length (evobjs (init_ctx ex_nested)).
Proof.
  eexists _, _. split; [run|].
  eapply (handler_restores_stacks ex_tiles 5 "player" "update" 0 None []
           ["update"] (init_ctx ex_nested)).
  run.
Defined.

(** ** C5 *)



(** ** C6 *)



(** ** C7 *)


(** ** C8 *)

Lemma unknown_expression_soft_error_witness :
  decode_rvalue (compiler ∅ 0) (NList [NStr "frobnicate"; NInt 1])
    (init_ctx []) =
    Ok (unknown_expression_text "frobnicate",
        with_error ("unknown expression code: " +:+ "frobnicate") (init_ctx []))
  /\ value_of
       (for_concat (transpile_nth ∅ (compiler ∅ 1) 0) [0%nat; 1%nat]
          (init_ctx
             [[NList [NStr "emit"; NList [NStr "frobnicate"; NInt 1]];
               NList [NStr "done"]]]))
     = Some (("  " +:+ ("__pulp:emit(" +:+ unknown_expression_text "frobnicate"
                        +:+ ", event)") +:+ nl)
             +:+ ("  do return end" +:+ nl)).
Proof.
  assert ("frobnicate" ∉ expression_codes) as Hunk.
  { apply (bool_decide_unpack _). vm_compute. exact I. }
  destruct (unknown_expression_soft_error ∅ 0 "frobnicate" [NInt 1]
              (init_ctx
                 [[NList [NStr "emit"; NList [NStr "frobnicate"; NInt 1]];
                   NList [NStr "done"]]]) Hunk) as [_ Hloop].
  split.
  - apply (unknown_expression_soft_error ∅ 0 "frobnicate" [NInt 1]
             (init_ctx []) Hunk).
  - rewrite (Hloop 0%nat 0%nat [1%nat]
               [NList [NStr "emit"; NList [NStr "frobnicate"; NInt 1]];
                NList [NStr "done"]] []); [run|reflexivity..].
Defined.

(** ** C9 *)

Lemma builtin_call_tiers_witness :
  exists (s : string) (c' : Ctx),
    opex_func (compiler ∅ 1) [NStr "log"; NStr "hi"] "log" "__fn_"
      (init_ctx []) = Ok (s, c')
    /\ s = "__print(" +:+ dq +:+ "hi" +:+ dq +:+ ")"
    /\ exists (mainargs : list string) (setargs : gmap string string),
         for_fold (opex_arg (compiler ∅ 1)) ([], initial_setargs)
           (drop 1 [NStr "log"; NStr "hi"]) (init_ctx []) =
           Ok ((mainargs, setargs), c')
         /\ let args := pad_args "log" setargs mainargs in
            (forall template,
               inlinefuncs !! ("__fn_" +:+ "log") = Some template ->
               s = subst_args template 0 args)
            /\ (inlinefuncs !! ("__fn_" +:+ "log") = None ->
                forall f, staticfuncs !! "log" = Some f ->
                s = (f +:+ "(") +:+ join ", " args +:+ ")")
            /\ (inlinefuncs !! ("__fn_" +:+ "log") = None ->
                staticfuncs !! "log" = None ->
                s = ("__pulp." +:+ "__fn_" +:+ "log" +:+ "(")
                    +:+ join ", " args +:+ ")").
Proof.
  eexists _, _. split; [run|]. split; [run|].
  eapply (builtin_call_tiers (compiler ∅ 1) [NStr "log"; NStr "hi"] "log"
            "__fn_" (init_ctx [])).
  run.
Defined.

(** ** Compiling a block table a second time *)

(** [optimize_name_ref] rewrites the block table, so a second compilation
    of the same table starts from a different tree: the [mimic] of a tile
    name takes the indexed path the first time and the lookup-by-name path,
    with the marker as its argument, the second time. *)
Lemma recompiled_mimic_differs :
  match
    transpile_event ex_tiles (compiler ex_tiles 1) "player" "update" 0 None
      ["mimic the wall"] ["update"] (init_ctx [ex_mimic_handler])
  with
  | Ok (first, c1) =>
      blocks c1 <> blocks (init_ctx [ex_mimic_handler])
      /\ value_of
           (transpile_event ex_tiles (compiler ex_tiles 1) "player" "update" 0
              None ["mimic the wall"] ["update"] c1)
         <> Some first
  | _ => False
  end.
Proof. vm_compute. split; discriminate. Qed.
(** * Further properties *)

(** ** Escaping ([escape_string]) *)

Lemma prefix_single (c d : ascii) (s : string) :
  String.prefix (String c EmptyString) (String d s) = bool_decide (c = d).
Proof.
  cbn. destruct (Ascii.ascii_dec c d) as [->|Hne].
  - rewrite bool_decide_eq_true_2 by done. by destruct s.
  - by rewrite bool_decide_eq_false_2.
Qed.

Lemma replace_char (s : string) (c : ascii) (new : string) :
  replace s (String c EmptyString) new = flat_map_str (replace_char_by c new) s.
Proof.
  unfold replace. induction s as [|d s IH]; [reflexivity|].
  cbn [replace_from flat_map_str]. rewrite prefix_single.
  unfold replace_char_by at 1. cbn [String.length Nat.pred].
  rewrite (bool_decide_ext (c = d) (d = c)) by (split; congruence).
  destruct (bool_decide (d = c)); by rewrite IH.
Qed.

Lemma flat_map_str_app (f : ascii -> string) (s t : string) :
  flat_map_str f (s +:+ t) = flat_map_str f s +:+ flat_map_str f t.
Proof.
  induction s as [|c s IH]; [reflexivity|].
  rewrite app_str_cons. cbn [flat_map_str]. by rewrite IH, app_str_assoc.
Qed.

Lemma flat_map_str_compose (f g : ascii -> string) (s : string) :
  flat_map_str g (flat_map_str f s) = flat_map_str (fun c => flat_map_str g (f c)) s.
Proof.
  induction s as [|c s IH]; [reflexivity|].
  cbn [flat_map_str]. by rewrite flat_map_str_app, IH.
Qed.

Lemma flat_map_str_ext (f g : ascii -> string) (s : string) :
  (forall c, f c = g c) -> flat_map_str f s = flat_map_str g s.
Proof.
  intros H. induction s as [|c s IH]; [reflexivity|].
  cbn [flat_map_str]. by rewrite H, IH.
Qed.

Lemma escape_string_charwise (s : string) :
  escape_string s = flat_map_str escape_char s.
Proof.
  unfold escape_string, bs, nl, ff, dq.
  rewrite !replace_char, !flat_map_str_compose.
  apply flat_map_str_ext. intros c. unfold escape_char, bs, dq.
  unfold replace_char_by at 4.
  case_bool_decide as H1; [subst; vm_compute; reflexivity|].
  cbn [flat_map_str]. unfold replace_char_by at 3.
  case_bool_decide as H2; [subst; vm_compute; reflexivity|].
  cbn [flat_map_str]. unfold replace_char_by at 2.
  case_bool_decide as H3; [subst; vm_compute; reflexivity|].
  cbn [flat_map_str]. unfold replace_char_by.
  case_bool_decide as H4; [subst; vm_compute; reflexivity|].
  reflexivity.
Qed.

Lemma unescape_plain (c : ascii) (t : string) :
  c <> Ascii.ascii_of_nat 92 -> unescape (String c t) = String c (unescape t).
Proof.
  intros Hc. destruct t as [|x t]; [reflexivity|].
  cbn [unescape]. by rewrite bool_decide_eq_false_2.
Qed.

Lemma unescape_escape_char (c : ascii) (t : string) :
  unescape (escape_char c +:+ t) = String c (unescape t).
Proof.
  unfold escape_char, bs, dq.
  repeat case_bool_decide; subst; try reflexivity.
  by apply unescape_plain.
Qed.

Lemma unescape_escape_string (s : string) : unescape (escape_string s) = s.
Proof.
  rewrite escape_string_charwise.
  induction s as [|c s IH]; [reflexivity|].
  cbn [flat_map_str]. by rewrite unescape_escape_char, IH.
Qed.

Lemma contains_char_app (c : ascii) (s t : string) :
  contains_char c (s +:+ t) = contains_char c s || contains_char c t.
Proof.
  induction s as [|d s IH]; [reflexivity|].
  rewrite app_str_cons. cbn [contains_char]. by rewrite IH, orb_assoc.
Qed.

Lemma contains_char_flat_map (c : ascii) (f : ascii -> string) (s : string) :
  (forall d, contains_char c (f d) = false) ->
  contains_char c (flat_map_str f s) = false.
Proof.
  intros Hf. induction s as [|d s IH]; [reflexivity|].
  cbn [flat_map_str]. by rewrite contains_char_app, Hf, IH.
Qed.

Lemma escape_char_no_control (d : ascii) :
  contains_char (Ascii.ascii_of_nat 10) (escape_char d) = false
  /\ contains_char (Ascii.ascii_of_nat 12) (escape_char d) = false.
Proof.
  unfold escape_char, bs, dq.
  repeat case_bool_decide; subst; try (split; reflexivity).
  cbn [contains_char]. rewrite !bool_decide_eq_false_2 by congruence. done.
Qed.

(** X1. What [escape_string] returns can be read back: undoing the four
    escapes gives the string that was escaped, so two strings are never
    escaped to the same text; and the text has no newline and no form feed
    of its own. *)
Theorem escape_string_round_trip (s : string) :
  unescape (escape_string s) = s
  /\ contains_char (Ascii.ascii_of_nat 10) (escape_string s) = false
  /\ contains_char (Ascii.ascii_of_nat 12) (escape_string s) = false.
Proof.
  split; [apply unescape_escape_string|].
  rewrite escape_string_charwise.
  split; apply contains_char_flat_map; intros d; apply escape_char_no_control.
Qed.

(** ** Names ([sanitize_varname], [pingvar], [ex_get]) *)

Lemma length_app_str (s t : string) :
  String.length (s +:+ t) = (String.length s + String.length t)%nat.
Proof.
  induction s as [|c s IH]; [reflexivity|].
  rewrite app_str_cons. cbn [String.length]. by rewrite IH.
Qed.

Lemma app_str_inj_r (s1 s2 t : string) : s1 +:+ t = s2 +:+ t -> s1 = s2.
Proof.
  revert s2. induction s1 as [|c s1 IH]; intros [|d s2] H.
  - done.
  - apply (f_equal String.length) in H.
    rewrite app_str_nil_l, app_str_cons in H. cbn [String.length] in H.
    rewrite length_app_str in H. lia.
  - apply (f_equal String.length) in H.
    rewrite app_str_nil_l, app_str_cons in H. cbn [String.length] in H.
    rewrite length_app_str in H. lia.
  - rewrite !app_str_cons in H. injection H as -> H. f_equal. by apply IH.
Qed.

Lemma quote_char_cases (c : ascii) :
  quote_char c = if bool_decide (c = dqc) then bs +:+ dq else String c EmptyString.
Proof. reflexivity. Qed.

Lemma quoted_head (s t : string) :
  flat_map_str quote_char s <> String dqc t.
Proof.
  destruct s as [|c s]; [discriminate|].
  cbn [flat_map_str]. rewrite quote_char_cases.
  case_bool_decide as Hc.
  - discriminate.
  - rewrite app_str_cons. intros [= ? _]. by apply Hc.
Qed.

Lemma quoted_inj (s1 : string) : forall s2,
  flat_map_str quote_char s1 = flat_map_str quote_char s2 -> s1 = s2.
Proof.
  induction s1 as [|c1 s1 IH]; intros [|c2 s2] H; [done| | |].
  - exfalso. revert H. cbn [flat_map_str]. rewrite quote_char_cases.
    case_bool_decide; discriminate.
  - exfalso. revert H. cbn [flat_map_str]. rewrite quote_char_cases.
    case_bool_decide; discriminate.
  - revert H. cbn [flat_map_str].
    rewrite (quote_char_cases c1), (quote_char_cases c2).
    case_bool_decide as H1; case_bool_decide as H2.
    + subst. intros H. apply String.app_inj in H. f_equal. by apply IH.
    + unfold bs, dq. rewrite !app_str_cons, !app_str_nil_l.
      intros [= _ H]. symmetry in H. by apply quoted_head in H.
    + unfold bs, dq. rewrite !app_str_cons, !app_str_nil_l.
      intros [= _ H]. by apply quoted_head in H.
    + rewrite !app_str_cons, !app_str_nil_l. intros [= -> H].
      f_equal. by apply IH.
Qed.

Lemma sanitize_wrapped (v : string) :
  is_id v = false ->
  sanitize_varname v =
    "_G[" +:+ dq +:+ flat_map_str quote_char v +:+ dq +:+ "]".
Proof.
  intros H. unfold sanitize_varname. rewrite H.
  change (replace v dq (bs +:+ dq))
    with (replace v (String dqc EmptyString) (bs +:+ dq)).
  by rewrite replace_char.
Qed.

Lemma wrapped_not_id (x : string) : is_id ("_G[" +:+ x) = false.
Proof.
  change ("_G[" +:+ x) with (String "_" (String "G" (String "[" x))).
  cbn [is_id word_tail].
  change (is_word "G") with true. change (is_word "[") with false.
  cbv iota. rewrite bool_decide_eq_false_2 by discriminate.
  by rewrite andb_false_r.
Qed.

Lemma sanitize_varname_is_id (v : string) :
  is_id (sanitize_varname v) = is_id v.
Proof.
  destruct (is_id v) eqn:Hv.
  - unfold sanitize_varname. by rewrite Hv.
  - rewrite (sanitize_wrapped v Hv). apply wrapped_not_id.
Qed.

Lemma sanitize_varname_inj (v w : string) :
  sanitize_varname v = sanitize_varname w -> v = w.
Proof.
  destruct (is_id v) eqn:Hv, (is_id w) eqn:Hw.
  - unfold sanitize_varname. by rewrite Hv, Hw.
  - rewrite (sanitize_wrapped w Hw). unfold sanitize_varname. rewrite Hv.
    intros ->. by rewrite wrapped_not_id in Hv.
  - rewrite (sanitize_wrapped v Hv). unfold sanitize_varname. rewrite Hw.
    intros <-. by rewrite wrapped_not_id in Hw.
  - rewrite (sanitize_wrapped v Hv), (sanitize_wrapped w Hw).
    intros H. do 2 apply String.app_inj in H.
    apply app_str_inj_r in H. by apply quoted_inj.
Qed.

(** X2. [sanitize_varname] leaves an identifier as it is, never makes an
    identifier of a name that is none, and gives different names different
    texts. *)
Theorem sanitize_varname_faithful (v w : string) :
  (is_id v = true -> sanitize_varname v = v)
  /\ is_id (sanitize_varname v) = is_id v
  /\ (v <> w -> sanitize_varname v <> sanitize_varname w).
Proof.
  split; [|split].
  - intros H. unfold sanitize_varname. by rewrite H.
  - apply sanitize_varname_is_id.
  - intros Hne H. by apply Hne, sanitize_varname_inj.
Qed.

Lemma string_prefix_cons (c d : ascii) (p s : string) :
  String.prefix (String c p) (String d s) =
    if decide (c = d) then String.prefix p s else false.
Proof.
  change (String.prefix (String c p) (String d s))
    with (match Ascii.ascii_dec c d with
          | left _ => String.prefix p s
          | right _ => false
          end).
  destruct (Ascii.ascii_dec c d); by case_decide.
Qed.

Lemma startswith_two (v : string) : startswith ("__" +:+ v) "__" = true.
Proof. unfold startswith. cbn. by destruct v. Qed.

Lemma reserved_prefixed_inj (v w : string) :
  reserved_prefixed v = reserved_prefixed w -> v = w.
Proof.
  unfold reserved_prefixed.
  destruct (startswith v "__") eqn:Hv, (startswith w "__") eqn:Hw; intros H.
  - by apply String.app_inj in H.
  - subst w. by rewrite startswith_two in Hw.
  - subst v. by rewrite startswith_two in Hv.
  - done.
Qed.

Lemma contains_char_flat_map_same (c : ascii) (f : ascii -> string) (s : string) :
  (forall d, contains_char c (f d) = bool_decide (c = d)) ->
  contains_char c (flat_map_str f s) = contains_char c s.
Proof.
  intros Hf. induction s as [|d s IH]; [reflexivity|].
  cbn [flat_map_str contains_char]. by rewrite contains_char_app, Hf, IH.
Qed.

Lemma contains_dot_quoted (s : string) :
  contains_char "." (flat_map_str quote_char s) = contains_char "." s.
Proof.
  apply contains_char_flat_map_same. intros d. rewrite quote_char_cases.
  case_bool_decide as Hd.
  - subst d. reflexivity.
  - cbn [contains_char]. by rewrite orb_false_r.
Qed.

Lemma reserved_prefixed_plain (v : string) :
  ordinary v ->
  contains_char "." (reserved_prefixed v) = false
  /\ startswith (reserved_prefixed v) "__PTLE_" = false
  /\ forall t, reserved_prefixed v = "__" +:+ t -> startswith t "__" = true.
Proof.
  intros [Hdot Hext]. unfold reserved_prefixed.
  destruct (startswith v "__") eqn:Hv.
  - split; [|split].
    + by rewrite contains_char_app.
    + destruct v as [|a v]; [done|].
      unfold startswith in *.
      change ("__" +:+ String a v) with (String "_" (String "_" (String a v))).
      rewrite string_prefix_cons in Hv. rewrite !string_prefix_cons.
      repeat case_decide; congruence.
    + intros t Ht. apply String.app_inj in Ht. by subst t.
  - split; [done|split; [done|]].
    intros t ->. by rewrite startswith_two in Hv.
Qed.

Lemma lvalue_text_ordinary (v : string) :
  ordinary v -> lvalue_text v = sanitize_varname (reserved_prefixed v).
Proof. intros [Hdot Hext]. unfold lvalue_text. by rewrite Hdot, Hext. Qed.

Lemma ordinary_result (v : string) :
  ordinary v ->
  contains_char "." (lvalue_text v) = false
  /\ startswith (lvalue_text v) "__PTLE_" = false
  /\ forall t, lvalue_text v = "__" +:+ t -> startswith t "__" = true.
Proof.
  intros Hv. rewrite (lvalue_text_ordinary v Hv).
  destruct (reserved_prefixed_plain v Hv) as (Hdot & Hext & Hres).
  destruct (is_id (reserved_prefixed v)) eqn:Hid.
  - unfold sanitize_varname. by rewrite Hid.
  - rewrite (sanitize_wrapped _ Hid). split; [|split].
    + rewrite !contains_char_app, contains_dot_quoted, Hdot. reflexivity.
    + reflexivity.
    + intros t Ht. discriminate Ht.
Qed.

Lemma lvalue_text_inj (v w : string) :
  lvalue_text v = lvalue_text w -> v = w.
Proof.
  intros H.
  destruct (contains_char "." v) eqn:Hv1, (contains_char "." w) eqn:Hw1.
  - unfold lvalue_text in H. by rewrite Hv1, Hw1 in H.
  - destruct (startswith w "__PTLE_") eqn:Hw2.
    + unfold lvalue_text in H. by rewrite Hv1, Hw1, Hw2 in H.
    + destruct (ordinary_result w (conj Hw1 Hw2)) as (Hd & _ & _).
      rewrite <- H in Hd. unfold lvalue_text in Hd. rewrite Hv1 in Hd. congruence.
  - destruct (startswith v "__PTLE_") eqn:Hv2.
    + unfold lvalue_text in H. by rewrite Hv1, Hw1, Hv2 in H.
    + destruct (ordinary_result v (conj Hv1 Hv2)) as (Hd & _ & _).
      rewrite H in Hd. unfold lvalue_text in Hd. rewrite Hw1 in Hd. congruence.
  - destruct (startswith v "__PTLE_") eqn:Hv2, (startswith w "__PTLE_") eqn:Hw2.
    + unfold lvalue_text in H. by rewrite Hv1, Hw1, Hv2, Hw2 in H.
    + destruct (ordinary_result w (conj Hw1 Hw2)) as (_ & He & _).
      rewrite <- H in He. unfold lvalue_text in He. rewrite Hv1, Hv2 in He.
      congruence.
    + destruct (ordinary_result v (conj Hv1 Hv2)) as (_ & He & _).
      rewrite H in He. unfold lvalue_text in He. rewrite Hw1, Hw2 in He.
      congruence.
    + rewrite (lvalue_text_ordinary v), (lvalue_text_ordinary w) in H by done.
      apply reserved_prefixed_inj.
      by apply sanitize_varname_inj.
Qed.

(** X3. [pingvar] returns for every name, and for two different names it
    returns two different texts: the reserved-prefix escape and the
    sanitization never map two variables of the game to one Lua name. *)
Theorem registered_names_distinct (v w : string) (c1 c2 : Ctx) :
  v <> w ->
  exists s1 s2 c1' c2',
    pingvar v c1 = Ok (s1, c1') /\ pingvar w c2 = Ok (s2, c2') /\ s1 <> s2.
Proof.
  intros Hne.
  destruct (pingvar_run v c1) as (c1' & H1 & _).
  destruct (pingvar_run w c2) as (c2' & H2 & _).
  exists (lvalue_text v), (lvalue_text w), c1', c2'.
  repeat split; try done. intros H. by apply Hne, lvalue_text_inj.
Qed.

Lemma remap_plain (r : string) (c : Ctx) :
  contains_char "." r = false -> startswith r "__PTLE_" = false ->
  remap_special_varname r c = Ok (r, c).
Proof.
  intros Hdot Hext. unfold remap_special_varname.
  repeat (case_bool_decide;
          [exfalso; subst r; vm_compute in Hdot, Hext; congruence|]).
  reflexivity.
Qed.

(** X4. Reading a variable whose name has no dot and does not start with
    [__PTLE_] is registering it: the text is the one [pingvar] returns,
    nothing is remapped and nothing is added to the function scope.  The
    text starts with two underscores only when it starts with four: it is
    never one of the names the generated code keeps for itself. *)
Theorem ordinary_variable_read (x : node) (v : string) (more : list node)
    (c : Ctx) :
  ordinary v ->
  ex_get (x :: NStr v :: more) c = pingvar v c
  /\ (exists c1, pingvar v c = Ok (lvalue_text v, c1)
        /\ funccache c1 = funccache c)
  /\ forall t, lvalue_text v = "__" +:+ t -> startswith t "__" = true.
Proof.
  intros Hv. destruct (ordinary_result v Hv) as (Hdot & Hext & Hres).
  destruct (pingvar_run v c) as (c1 & Hping & _ & Hfc).
  split; [|split; [by exists c1|exact Hres]].
  unfold ex_get. cbn [lookup list_lookup]. mrun.
  rewrite (bind_run _ _ _ _ _ Hping), Hping.
  by apply remap_plain.
Qed.

(** ** Invariants of a compilation *)

(** A relation between the context before and the context after that every
    update of the compiler respects holds across every function of the
    compiler, and so across a whole handler.  The functions are taken one
    by one, in the order of the source, for an arbitrary such relation;
    the relations of interest are then instances. *)

Ltac pv_split :=
  match goal with
  | |- preserves _ (if ?b then _ else _) => destruct b
  | |- preserves _ (match ?x with _ => _ end) => destruct x eqn:?
  | |- preserves _ (let (_, _) := ?x in _) => destruct x
  end.

Section Invariant.

Variable tile_ids : gmap string Z.
Variable R : Ctx -> Ctx -> Prop.

Hypothesis R_refl : forall c, R c c.
Hypothesis R_trans : forall c1 c2 c3, R c1 c2 -> R c2 c3 -> R c1 c3.

(** What each primitive update of the context has to respect. *)
Hypothesis R_indent : forall c d c1,
  R (set_indent (indent c + d) c) c1 -> R c (set_indent (indent c1 + - d) c1).
Hypothesis R_funccache : forall c v, R c (set_funccache v c).
Hypothesis R_evobjs : forall c v, R c (set_evobjs v c).
Hypothesis R_errors : forall c msg, R c (set_errors (errors c ++ [msg]) c).
Hypothesis R_var_usage : forall c v,
  R c (set_var_usage (<[v := usage_count c v + 1]> (var_usage c)) c).
Hypothesis R_vars : forall c v, R c (set_vars (vars c ∪ {[v]}) c).
Hypothesis R_script_tags : forall c k v,
  script_tags c !! k = None ->
  R c (set_script_tags (<[k := v]> (script_tags c)) c).
Hypothesis R_ext_ptl : forall c k v, R c (set_ext_ptl (<[k := v]> (ext_ptl c)) c).
Hypothesis R_ext_pdxinfo : forall c k v,
  R c (set_ext_pdxinfo (<[k := v]> (ext_pdxinfo c)) c).
Hypothesis R_store : forall c a name id,
  tile_ids !! name = Some id ->
  R c (store_operand a 1 (NList [NStr "optimized-id"; NInt id; NStr name]) c).

Lemma pv_ret {A} (a : A) : preserves R (ret a).
Proof. intros c a' c' H. minv. apply R_refl. Qed.

Lemma pv_raise {A} : preserves R (@raise A).
Proof. intros c a' c' H. by minv. Qed.

Lemma pv_unmodelled {A} : preserves R (@unmodelled A).
Proof. intros c a' c' H. by minv. Qed.

Lemma pv_out_of_fuel {A} : preserves R (@out_of_fuel A).
Proof. intros c a' c' H. by minv. Qed.

Lemma pv_lookup_or_raise {A} (o : option A) : preserves R (lookup_or_raise o).
Proof. intros c a' c' H. minv. apply R_refl. Qed.

Lemma pv_gets {A} (f : Ctx -> A) : preserves R (gets f).
Proof. intros c a' c' H. minv. apply R_refl. Qed.

Lemma pv_get_ctx : preserves R get_ctx.
Proof. intros c a' c' H. minv. apply R_refl. Qed.

Lemma pv_assert b : preserves R (assert b).
Proof. intros c a' c' H. minv. apply R_refl. Qed.

Lemma pv_gi : preserves R gi.
Proof. intros c a' c' H. minv. apply R_refl. Qed.

Lemma pv_bind {A B} (m : M A) (k : A -> M B) :
  preserves R m -> (forall a, preserves R (k a)) -> preserves R (bind m k).
Proof.
  intros Hm Hk c b c' H. minv.
  eapply R_trans; [eapply Hm|eapply Hk]; eassumption.
Qed.

Lemma pv_for_concat {A} (f : A -> M string) (l : list A) :
  (forall x, preserves R (f x)) -> preserves R (for_concat f l).
Proof.
  intros Hf. induction l as [|x l IH]; cbn [for_concat].
  - apply pv_ret.
  - apply pv_bind; [apply Hf|intros s].
    apply pv_bind; [apply IH|intros t]. apply pv_ret.
Qed.

Lemma pv_for_list {A B} (f : A -> M B) (l : list A) :
  (forall x, preserves R (f x)) -> preserves R (for_list f l).
Proof.
  intros Hf. induction l as [|x l IH]; cbn [for_list].
  - apply pv_ret.
  - apply pv_bind; [apply Hf|intros s].
    apply pv_bind; [apply IH|intros t]. apply pv_ret.
Qed.

Lemma pv_for_fold {A B} (f : B -> A -> M B) (l : list A) : forall acc,
  (forall acc x, preserves R (f acc x)) -> preserves R (for_fold f acc l).
Proof.
  induction l as [|x l IH]; intros acc Hf; cbn [for_fold].
  - apply pv_ret.
  - apply pv_bind; [apply Hf|intros s]. by apply IH.
Qed.

Lemma pv_modify (f : Ctx -> Ctx) :
  (forall c, R c (f c)) -> preserves R (modify f).
Proof. intros Hf c a' c' H. minv. apply Hf. Qed.

Lemma pv_add_error msg : preserves R (add_error msg).
Proof. apply pv_modify. intros c. apply R_errors. Qed.

(** Leaving an indentation level entered [d] deeper. *)
Lemma pv_dedent (c c1 : Ctx) (d i : Z) :
  R (set_indent (indent c + d) c) c1 -> i = indent c1 + - d ->
  R c (set_indent i c1).
Proof. intros H ->. by apply R_indent. Qed.

Lemma pv_evobjs_l (c c1 : Ctx) v : R (set_evobjs v c) c1 -> R c c1.
Proof. intros H. eapply R_trans; [apply R_evobjs|exact H]. Qed.

Lemma pv_evobjs_r (c c1 : Ctx) v : R c c1 -> R c (set_evobjs v c1).
Proof. intros H. eapply R_trans; [exact H|apply R_evobjs]. Qed.

Lemma pv_funccache_l (c c1 : Ctx) v : R (set_funccache v c) c1 -> R c c1.
Proof. intros H. eapply R_trans; [apply R_funccache|exact H]. Qed.

Lemma pv_funccache_r (c c1 : Ctx) v : R c c1 -> R c (set_funccache v c1).
Proof. intros H. eapply R_trans; [exact H|apply R_funccache]. Qed.

Ltac pv1 :=
  match goal with
  | H : _ |- _ => apply H
  | |- preserves _ (bind _ _) => apply pv_bind; [|intros ?]
  | |- preserves _ (ret _) => apply pv_ret
  | |- preserves _ raise => apply pv_raise
  | |- preserves _ unmodelled => apply pv_unmodelled
  | |- preserves _ out_of_fuel => apply pv_out_of_fuel
  | |- preserves _ (lookup_or_raise _) => apply pv_lookup_or_raise
  | |- preserves _ (gets _) => apply pv_gets
  | |- preserves _ get_ctx => apply pv_get_ctx
  | |- preserves _ (assert _) => apply pv_assert
  | |- preserves _ gi => apply pv_gi
  | |- preserves _ (add_error _) => apply pv_add_error
  | |- preserves _ (modify _) => apply pv_modify; intros ?
  | |- preserves _ (for_concat _ _) => apply pv_for_concat; intros ?
  | |- preserves _ (for_list _ _) => apply pv_for_list; intros ?
  | |- preserves _ (for_fold _ _ _) => apply pv_for_fold; intros ? ?
  | |- _ => pv_split
  end.

Ltac pv := repeat pv1.

(** Facts from the steps of a run that ended with [Ok], and the chain from
    the first context to the last. *)
Ltac pv_fwd :=
  repeat match goal with
  | H : ?m ?c = Ok (_, ?c') |- _ =>
      let K := fresh "K" in
      assert (K : preserves R m) by pv;
      apply K in H; clear K
  | H : R (set_evobjs _ _) _ |- _ => apply pv_evobjs_l in H
  | H : R (set_funccache _ _) _ |- _ => apply pv_funccache_l in H
  end.

Ltac pv_chain :=
  first
    [ apply R_refl
    | eassumption
    | eapply R_trans; [eassumption|pv_chain]
    | apply pv_evobjs_r; pv_chain
    | apply pv_funccache_r; pv_chain
    | eapply pv_dedent; [pv_chain|reflexivity] ].

Lemma pv_funccache_add line : preserves R (funccache_add line).
Proof. unfold funccache_add, get_funccache. pv. Qed.

Lemma pv_push_funccache : preserves R push_funccache.
Proof. unfold push_funccache. pv. Qed.

Lemma pv_pop_funccache : preserves R pop_funccache.
Proof. unfold pop_funccache. pv. Qed.

Lemma pv_get_funccache : preserves R get_funccache.
Proof. unfold get_funccache. pv. Qed.

Lemma pv_push_evobj o : preserves R (push_evobj o).
Proof. unfold push_evobj. pv. Qed.

Lemma pv_pop_evobj : preserves R pop_evobj.
Proof. unfold pop_evobj. pv. Qed.

Lemma pv_get_evobj : preserves R get_evobj.
Proof. unfold get_evobj. pv. Qed.

Lemma pv_pingvar v : preserves R (pingvar v).
Proof. unfold pingvar. pv. Qed.

Lemma pv_remap v : preserves R (remap_special_varname v).
Proof. unfold remap_special_varname, cached. pose proof pv_funccache_add. pv. Qed.

Lemma pv_add_script_tag a b : preserves R (add_script_tag a b).
Proof.
  intros c x c' H. unfold add_script_tag in H. mrun_in H.
  destruct (script_tags c !! _) eqn:E; mrun_in H; minv;
    [apply R_refl|by apply R_script_tags].
Qed.

Lemma pv_commentconfigure a b : preserves R (commentconfigure a b).
Proof. unfold commentconfigure. pv. Qed.

Lemma pv_comment_text idx : preserves R (comment_text idx).
Proof. unfold comment_text. pv. Qed.

Lemma pv_comment cmd b : preserves R (comment cmd b).
Proof.
  unfold comment.
  pose proof pv_comment_text. pose proof pv_commentconfigure. pv.
Qed.

Lemma pv_get_next_cmds_tags cmds : preserves R (get_next_cmds_tags cmds).
Proof.
  intros c a c' H. apply get_next_cmds_tags_ctx in H as ->. apply R_refl.
Qed.

Lemma pv_format_node n : preserves R (format_node n).
Proof. unfold format_node. pv. Qed.

Lemma pv_ex_get e : preserves R (ex_get e).
Proof. unfold ex_get. pose proof pv_pingvar. pose proof pv_remap. pv. Qed.

Lemma pv_op_inc cmd o : preserves R (op_inc cmd o).
Proof. unfold op_inc. pv. Qed.

Lemma pv_assert_block b : preserves R (assert_block b).
Proof. unfold assert_block. pv. Qed.

Lemma pv_deref_block b : preserves R (deref_block b).
Proof. unfold deref_block. pv. Qed.

Lemma pv_undecorated l : preserves R (undecorated l).
Proof. induction l as [|x l IH]; cbn [undecorated]; pv. Qed.

Lemma pv_optimize_name_ref a cmd :
  preserves R (optimize_name_ref tile_ids a cmd 1).
Proof. unfold optimize_name_ref. pv. Qed.

Lemma pv_op_call_tag fnstr st tag : preserves R (op_call_tag fnstr st tag).
Proof. unfold op_call_tag. pose proof pv_add_script_tag. pv. Qed.

Variable rec : Rec.
Hypothesis Hdecode : forall e, preserves R (rec_decode_rvalue rec e).
Hypothesis Hcommands : forall p b, preserves R (rec_transpile_commands rec p b).
Hypothesis Hblock : forall cmd s f e, preserves R (rec_op_block rec cmd s f e).

Lemma pv_opex_arg st arg : preserves R (opex_arg rec st arg).
Proof. unfold opex_arg. pv. Qed.

Lemma pv_opex_func cmd op prefix : preserves R (opex_func rec cmd op prefix).
Proof. unfold opex_func. pose proof pv_opex_arg. pv. Qed.

Lemma pv_ex_format e : preserves R (ex_format rec e).
Proof. unfold ex_format. pv. Qed.

Lemma pv_ex_embed e : preserves R (ex_embed rec e).
Proof. unfold ex_embed. pv. Qed.

Lemma pv_ex_subroutine e : preserves R (ex_subroutine rec e).
Proof.
  intros c a c' H. unfold ex_subroutine in H.
  pose proof pv_deref_block. minv. pv_fwd. pv_chain.
Qed.

Lemma pv_ex_name e : preserves R (ex_name rec e).
Proof. unfold ex_name. pose proof pv_opex_func. pv. Qed.

Lemma pv_decode_rvalue e : preserves R (decode_rvalue rec e).
Proof.
  unfold decode_rvalue.
  pose proof pv_ex_get. pose proof pv_format_node. pose proof pv_ex_format.
  pose proof pv_ex_embed. pose proof pv_ex_name. pose proof pv_opex_func.
  pose proof pv_ex_subroutine. pv.
Qed.

Lemma pv_op_set cmd o : preserves R (op_set rec cmd o).
Proof. unfold op_set. pose proof pv_pingvar. pv. Qed.

Lemma pv_transpile_block_ref bl : preserves R (transpile_block_ref rec bl).
Proof.
  intros c a c' H. unfold transpile_block_ref in H.
  pose proof pv_deref_block. minv. pv_fwd. pv_chain.
Qed.

Lemma pv_op_block_followup sub : preserves R (op_block_followup rec sub).
Proof.
  unfold op_block_followup.
  pose proof pv_assert_block. pose proof pv_transpile_block_ref. pv.
Qed.

Lemma pv_op_block cmd s f e : preserves R (op_block rec cmd s f e).
Proof.
  unfold op_block.
  pose proof pv_assert_block. pose proof pv_transpile_block_ref.
  pose proof pv_op_block_followup. pose proof pv_pingvar. pose proof pv_remap.
  pv.
Qed.

Lemma pv_op_call cmd tags : preserves R (op_call rec cmd tags).
Proof.
  unfold op_call. pose proof pv_get_evobj. pose proof pv_op_call_tag.
  pose proof pv_funccache_add. pv.
Qed.

Lemma pv_op_emit cmd : preserves R (op_emit rec cmd).
Proof. unfold op_emit. pv. Qed.

Lemma pv_op_mimic a cmd : preserves R (op_mimic tile_ids rec a cmd).
Proof.
  intros c x c' H. unfold op_mimic in H.
  pose proof pv_optimize_name_ref.
  minv. destruct a0 as [[] cmd']; minv; pv_fwd; pv_chain.
Qed.

Lemma pv_op_tell_inline cmd head local_actor guard :
  preserves R local_actor ->
  preserves R (op_tell_inline rec cmd head local_actor guard).
Proof.
  intros Hla c a c' H. unfold op_tell_inline, push_evobj, pop_evobj in H.
  pose proof pv_assert_block. pose proof pv_deref_block.
  minv. pv_fwd. pv_chain.
Qed.

Lemma pv_op_tell a cmd : preserves R (op_tell tile_ids rec a cmd).
Proof.
  unfold op_tell.
  pose proof pv_optimize_name_ref. pose proof pv_opex_func.
  pose proof pv_push_evobj. pose proof pv_pop_evobj.
  pose proof pv_op_tell_inline. pv.
Qed.

Lemma pv_op_random cmd : preserves R (op_random rec cmd).
Proof. unfold op_random. pv. Qed.

Lemma pv_line m : preserves R m -> preserves R (line m).
Proof. intros Hm. unfold line. pv. Qed.

Lemma pv_transpile_command a cmd next :
  preserves R (transpile_command tile_ids rec a cmd next).
Proof.
  unfold transpile_command.
  pose proof pv_get_next_cmds_tags.
  pv1. pv1. pv1. pv1. pv1; [|apply pv_raise..].
  repeat match goal with
  | |- preserves _ (if ?b then _ else _) => destruct b
  | |- preserves _ (line _) => apply pv_line
  end;
  first [ apply pv_op_set | apply pv_op_inc | apply pv_op_random
        | apply pv_op_block | apply pv_op_call | apply pv_op_emit
        | apply pv_op_mimic | apply pv_op_tell | apply pv_opex_func
        | apply pv_comment | pv ].
Qed.

Lemma pv_transpile_nth p i : preserves R (transpile_nth tile_ids rec p i).
Proof. unfold transpile_nth. pose proof pv_transpile_command. pv. Qed.

Lemma pv_transpile_commands p b :
  preserves R (transpile_commands tile_ids rec p b).
Proof.
  unfold transpile_commands.
  pose proof pv_transpile_nth. pose proof pv_push_funccache.
  pose proof pv_pop_funccache. pose proof pv_get_funccache. pv.
Qed.

Hypothesis R_self_evnames : forall c v, R c (set_self_evnames v c).
Hypothesis R_comments_block : forall c v, R c (set_comments_block v c).
Hypothesis R_root_evobj : forall c v, R c (set_root_evobj v c).
Hypothesis R_full_mimics : forall c x,
  R c (set_full_mimics (full_mimics c ++ [x]) c).

Lemma pv_transpile_event evobj evname blockidx evobjname comments evnames :
  preserves R
    (transpile_event tile_ids rec evobj evname blockidx evobjname comments
       evnames).
Proof.
  unfold transpile_event.
  pose proof pv_deref_block. pose proof pv_transpile_commands.
  pose proof pv_undecorated. pose proof pv_push_evobj.
  pose proof pv_pop_evobj. pv.
Qed.

End Invariant.

Lemma compiler_preserves (tile_ids : gmap string Z) (R : Ctx -> Ctx -> Prop)
    (fuel : nat) :
  invariant tile_ids R -> rec_preserves R (compiler tile_ids fuel).
Proof.
  intros []. induction fuel as [|n (Hd & Hc & Hb)]; cbn [compiler].
  - repeat split; intros; by apply pv_out_of_fuel.
  - repeat split; intros;
      cbn [rec_decode_rvalue rec_transpile_commands rec_op_block].
    + by eapply pv_decode_rvalue.
    + by eapply pv_transpile_commands.
    + by eapply pv_op_block.
Qed.

Lemma handler_preserves (tile_ids : gmap string Z) (R : Ctx -> Ctx -> Prop)
    (fuel : nat) (evobj evname : string) (blockidx : Z)
    (evobjname : option string) (comments evnames : list string) :
  invariant tile_ids R -> handler_invariant R ->
  preserves R
    (transpile_event tile_ids (compiler tile_ids fuel) evobj evname blockidx
       evobjname comments evnames).
Proof.
  intros HR HE.
  destruct (compiler_preserves tile_ids R fuel HR) as (Hd & Hc & Hb).
  destruct HR, HE. by eapply pv_transpile_event.
Qed.

Lemma block_frame_invariant tile_ids : invariant tile_ids block_frame.
Proof.
  split; unfold block_frame; try (intros; cbn; tauto).
  - intros c1 c2 c3 (? & ? & ? & ? & ?) (? & ? & ? & ? & ?).
    repeat split; congruence.
  - intros c d c1 (Hi & ? & ? & ? & ?). cbn in *. repeat split; try done. lia.
Qed.

Lemma accumulates_invariant tile_ids : invariant tile_ids accumulates.
Proof.
  split; unfold accumulates; try (intros; cbn; done).
  - intros c1 c2 c3 (? & ? & ? & ?) (? & ? & ? & ?).
    repeat split; try (etrans; eassumption).
    intros v. etrans; eauto.
  - intros c msg. cbn. repeat split; try done. by apply prefix_app_r.
  - intros c v. cbn. repeat split; try done. intros w. unfold usage_count. cbn.
    destruct (decide (w = v)) as [->|Hne].
    + rewrite lookup_insert_eq. cbn. lia.
    + by rewrite lookup_insert_ne.
  - intros c v. cbn. repeat split; try done. set_solver.
  - intros c k v Hk. cbn. repeat split; try done. by apply insert_subseteq.
Qed.

Lemma accumulates_handler_invariant : handler_invariant accumulates.
Proof. split; unfold accumulates; intros; cbn; done. Qed.

Lemma retargeted_refl tile_ids : Reflexive (retargeted tile_ids).
Proof. intros n. by left. Qed.

Lemma retargeted_trans tile_ids : Transitive (retargeted tile_ids).
Proof.
  intros n1 n2 n3 [->|(l & name & id & -> & Hid & ->)] H; [done|].
  destruct H as [->|(l' & name' & id' & [= <-] & Hid' & ->)].
  - right. by exists l, name, id.
  - right. exists l, name', id'. by rewrite list_insert_insert_eq.
Qed.

Lemma same_program_invariant tile_ids : invariant tile_ids (same_program tile_ids).
Proof.
  pose proof (retargeted_refl tile_ids). pose proof (retargeted_trans tile_ids).
  split; unfold same_program; try (intros; cbn; reflexivity).
  - intros c1 c2 c3 H12 H23. by etrans.
  - intros c d c1 Hc. exact Hc.
  - intros c a name id Hid. cbn.
    apply Forall2_alter_r; [done|]. intros b b' _ _ Hb.
    apply Forall2_alter_r; [done|]. intros n n' _ _ Hn.
    etrans; [exact Hn|]. destruct n' as [| | |l]; try by left.
    right. by exists l, name, id.
Qed.

Lemma same_program_handler_invariant tile_ids :
  handler_invariant (same_program tile_ids).
Proof.
  pose proof (retargeted_refl tile_ids).
  split; unfold same_program; intros; cbn; reflexivity.
Qed.

(** X20. Across the compilation of a handler the context only accumulates:
    error messages are appended, and the registered variables, their usage
    counts and the script tags only grow, every entry that was there
    staying as it was. *)
Theorem handler_only_accumulates (tile_ids : gmap string Z) (fuel : nat)
    (evobj evname : string) (blockidx : Z) (evobjname : option string)
    (comments evnames : list string) (c : Ctx) (s : string) (c' : Ctx) :
  transpile_event tile_ids (compiler tile_ids fuel) evobj evname blockidx
    evobjname comments evnames c = Ok (s, c') ->
  errors c `prefix_of` errors c'
  /\ vars c ⊆ vars c'
  /\ (forall v, usage_count c v <= usage_count c' v)
  /\ (forall k tag, script_tags c !! k = Some tag -> script_tags c' !! k = Some tag).
Proof.
  intros H.
  apply (handler_preserves tile_ids accumulates) in H
    as (He & Hv & Hu & Ht);
    [|apply accumulates_invariant|apply accumulates_handler_invariant].
  repeat split; try done. intros k tag Hk. by eapply lookup_weaken.
Qed.

(** X21. The compilation of a handler adds no command to the block table,
    removes none and moves none; what it changes in a command is at most
    the first operand, which it replaces by the marker of a known tile. *)
Theorem handler_keeps_program (tile_ids : gmap string Z) (fuel : nat)
    (evobj evname : string) (blockidx : Z) (evobjname : option string)
    (comments evnames : list string) (c : Ctx) (s : string) (c' : Ctx) :
  transpile_event tile_ids (compiler tile_ids fuel) evobj evname blockidx
    evobjname comments evnames c = Ok (s, c') ->
  Forall2 (Forall2 (retargeted tile_ids)) (blocks c) (blocks c').
Proof.
  intros H.
  by apply (handler_preserves tile_ids (same_program tile_ids)) in H;
    [|apply same_program_invariant|apply same_program_handler_invariant].
Qed.

Lemma handler_frame (tile_ids : gmap string Z) (fuel : nat)
    (evobj evname : string) (blockidx : Z) (evobjname : option string)
    (comments evnames : list string) (c : Ctx) (s : string) (c' : Ctx) :
  transpile_event tile_ids (compiler tile_ids fuel) evobj evname blockidx
    evobjname comments evnames c = Ok (s, c') ->
  indent c' = indent c
  /\ comments_block c' = comments
  /\ self_evnames c' = evnames
  /\ (full_mimics c' = full_mimics c
      \/ exists target,
           full_mimics c' = full_mimics c ++ [(evobj, evname, target)]).
Proof.
  intros H.
  destruct (compiler_preserves tile_ids block_frame fuel
              (block_frame_invariant tile_ids)) as (Hd & Hc & Hb).
  destruct (block_frame_invariant tile_ids).
  unfold transpile_event, push_evobj, pop_evobj, deref_block in H. minv.
  repeat match goal with
  | H : undecorated _ _ = Ok _ |- _ =>
      eapply (pv_undecorated block_frame) in H; [|done..]
  | H : transpile_commands _ _ _ _ _ = Ok _ |- _ =>
      eapply (pv_transpile_commands tile_ids block_frame) in H; [|done..]
  | H : block_frame _ _ |- _ => destruct H as (? & ? & ? & ? & ?)
  end.
  clear Hd Hc Hb.
  repeat match goal with H : forall _, _ |- _ => clear H end.
  assert (c' = c9
          \/ exists target,
               c' = set_full_mimics (full_mimics c9 ++ [(evobj, evname, target)]) c9)
    as [->| [target ->]].
  { repeat (minv1 || case_match); eauto. }
  - cbn in *. repeat split; try congruence. left. congruence.
  - cbn in *. repeat split; try congruence. right. exists target. congruence.
Qed.

(** X18. When a handler has been compiled the indentation is the one it was
    compiled at, whatever blocks were entered on the way: the next handler
    starts where this one started. *)
Theorem handler_restores_indent (tile_ids : gmap string Z) (fuel : nat)
    (evobj evname : string) (blockidx : Z) (evobjname : option string)
    (comments evnames : list string) (c : Ctx) (s : string) (c' : Ctx) :
  transpile_event tile_ids (compiler tile_ids fuel) evobj evname blockidx
    evobjname comments evnames c = Ok (s, c') ->
  indent c' = indent c /\ gi_of c' = gi_of c.
Proof.
  intros H. apply handler_frame in H as (Hi & _). unfold gi_of. by rewrite Hi.
Qed.

(** X19. The compilation of a handler leaves the list of full mimics as it
    is or appends one record to it, and that record is the handler's own:
    the commands compiled inside the handler never touch the list. *)
Theorem handler_mimic_records (tile_ids : gmap string Z) (fuel : nat)
    (evobj evname : string) (blockidx : Z) (evobjname : option string)
    (comments evnames : list string) (c : Ctx) (s : string) (c' : Ctx) :
  transpile_event tile_ids (compiler tile_ids fuel) evobj evname blockidx
    evobjname comments evnames c = Ok (s, c') ->
  full_mimics c' = full_mimics c
  \/ exists target, full_mimics c' = full_mimics c ++ [(evobj, evname, target)].
Proof. intros H. by apply handler_frame in H as (_ & _ & _ & Hm). Qed.

(** ** Script tags ([add_script_tag]) *)

Lemma contains_char_replaced (c : ascii) (new s : string) :
  contains_char c new = false ->
  contains_char c (replace s (String c EmptyString) new) = false.
Proof.
  intros Hnew. rewrite replace_char. apply contains_char_flat_map.
  intros d. unfold replace_char_by. case_bool_decide as Hd; [done|].
  cbn [contains_char]. rewrite bool_decide_eq_false_2 by congruence. done.
Qed.

Lemma contains_char_replace_other (c d : ascii) (new s : string) :
  contains_char c new = false -> contains_char c s = false ->
  contains_char c (replace s (String d EmptyString) new) = false.
Proof.
  intros Hnew Hs. rewrite replace_char.
  induction s as [|x s IH]; [reflexivity|].
  cbn [contains_char] in Hs. apply orb_false_iff in Hs as [Hx Hs].
  cbn [flat_map_str]. rewrite contains_char_app, (IH Hs), orb_false_r.
  unfold replace_char_by. destruct (bool_decide (x = d)); [done|].
  cbn [contains_char]. by rewrite Hx.
Qed.

Lemma set_script_tags_id (c : Ctx) : set_script_tags (script_tags c) c = c.
Proof. by destruct c. Qed.

Lemma add_script_tag_returns (scriptsrc name : string) (c : Ctx) :
  exists c', add_script_tag scriptsrc name c
             = Ok (script_tag_id scriptsrc name, c').
Proof.
  unfold add_script_tag. fold (script_tag_id scriptsrc name). mrun.
  destruct (script_tags c !! _); by eexists.
Qed.

(** X6. [add_script_tag] always returns the key of the tag, which has no
    space and no hyphen.  The first pair filed under a key stays: a later
    tag with the same key, even from another script, leaves the registry
    as it is.  No other key is touched, and a second call changes
    nothing. *)
Theorem add_script_tag_registers (scriptsrc name : string) (c : Ctx) :
  let id := script_tag_id scriptsrc name in
  exists c',
    add_script_tag scriptsrc name c = Ok (id, c')
    /\ script_tags c' !! id
       = Some (default (scriptsrc, name) (script_tags c !! id))
    /\ (forall k, k <> id -> script_tags c' !! k = script_tags c !! k)
    /\ add_script_tag scriptsrc name c' = Ok (id, c')
    /\ contains_char " " id = false
    /\ contains_char "-" id = false.
Proof.
  intros id.
  assert (contains_char " " id = false /\ contains_char "-" id = false)
    as [Hsp Hhy].
  { unfold id, script_tag_id. rewrite !contains_char_app. split.
    - by rewrite (contains_char_replaced " " "_").
    - rewrite (contains_char_replace_other "-" " " "_"); [done..|].
      by apply (contains_char_replaced "-" "_"). }
  unfold add_script_tag. fold (script_tag_id scriptsrc name). fold id.
  destruct (script_tags c !! id) as [old|] eqn:Hold.
  - exists c. mrun. rewrite Hold. by mrun.
  - eexists. mrun. rewrite Hold. mrun. split; [reflexivity|].
    cbn [script_tags set_script_tags]. rewrite lookup_insert_eq.
    repeat split; try done.
    intros k Hk. by rewrite lookup_insert_ne.
Qed.

(** ** Comments ([commentconfigure], [comment], [get_next_cmds_tags]) *)

Lemma split_char_length (c : ascii) (s : string) :
  length (split_char c s) = S (count_char c s).
Proof.
  induction s as [|d s IH]; [reflexivity|].
  cbn [split_char count_char].
  destruct (split_char c s) as [|w ws]; [discriminate IH|].
  destruct (bool_decide (c = d)); cbn [length] in *; lia.
Qed.

Lemma split_char_once (c : ascii) (key value : string) :
  contains_char c key = false -> contains_char c value = false ->
  split_char c (key +:+ String c value) = [key; value].
Proof.
  intros Hk Hv.
  assert (split_char c value = [value]) as Hvalue.
  { clear Hk. induction value as [|d v IH]; [reflexivity|].
    cbn [contains_char] in Hv. apply orb_false_iff in Hv as [Hd Hv].
    cbn [split_char]. by rewrite (IH Hv), Hd. }
  induction key as [|d k IH].
  - rewrite app_str_nil_l. cbn [split_char].
    by rewrite Hvalue, bool_decide_eq_true_2.
  - cbn [contains_char] in Hk. apply orb_false_iff in Hk as [Hd Hk].
    rewrite app_str_cons. cbn [split_char]. by rewrite (IH Hk), Hd.
Qed.

(** X7. [commentconfigure] returns exactly for a setting with one [=]; for
    any other it raises, whatever the mode. *)
Theorem commentconfigure_one_equals (mode conf : string) (c : Ctx) :
  if bool_decide (count_char "=" conf = 1%nat)
  then exists c', commentconfigure mode conf c = Ok (tt, c')
  else commentconfigure mode conf c = Raised.
Proof.
  pose proof (split_char_length "=" conf) as Hlen.
  unfold commentconfigure. case_bool_decide as Hn.
  - destruct (split_char "=" conf) as [|k [|v [|]]]; cbn in Hlen; try lia.
    repeat case_bool_decide; eexists; reflexivity.
  - destruct (split_char "=" conf) as [|k [|v [|]]]; cbn in Hlen;
      try reflexivity; lia.
Qed.

(** X8. A setting [key=value] is stored under the stripped key: in mode
    [PTL] as the stripped value, or as [False] for [0], [False] and
    [false], the [PDXINFO] table left alone; in mode [PDXINFO] as the
    stripped value, the [PTL] table left alone; in any other mode not at
    all. *)
Theorem commentconfigure_stores (mode key value : string) (c : Ctx) :
  contains_char "=" key = false -> contains_char "=" value = false ->
  commentconfigure "PTL" (key +:+ "=" +:+ value) c
    = Ok (tt, set_ext_ptl (<[strip key := ptl_of (strip value)]> (ext_ptl c)) c)
  /\ commentconfigure "PDXINFO" (key +:+ "=" +:+ value) c
     = Ok (tt, set_ext_pdxinfo (<[strip key := strip value]> (ext_pdxinfo c)) c)
  /\ (mode <> "PTL" -> mode <> "PDXINFO" ->
      commentconfigure mode (key +:+ "=" +:+ value) c = Ok (tt, c)).
Proof.
  intros Hk Hv. unfold commentconfigure.
  change (key +:+ "=" +:+ value) with (key +:+ String "=" value).
  rewrite (split_char_once "=" key value Hk Hv).
  split; [|split].
  - reflexivity.
  - reflexivity.
  - intros H1 H2. by rewrite !bool_decide_eq_false_2.
Qed.

Lemma comment_text_missing (i : Z) (c : Ctx) :
  Z.of_nat (length (comments_block c)) <= i ->
  comment_text (NInt i) c = Ok (None, c).
Proof.
  intros Hi. unfold comment_text. mrun.
  destruct (Z.ltb_spec i (Z.of_nat (length (comments_block c)))); [lia|done].
Qed.

Lemma index_negative {A} (l : list A) (i : Z) :
  - Z.of_nat (length l) <= i < 0 ->
  index l i = index l (Z.of_nat (length l) + i).
Proof.
  intros Hi. unfold index, index_pos.
  destruct (Z.leb_spec 0 i); [lia|].
  destruct (Z.ltb_spec i 0); [|lia].
  destruct (Z.leb_spec (- Z.of_nat (length l)) i); [|lia].
  destruct (Z.leb_spec 0 (Z.of_nat (length l) + i)); [|lia].
  destruct (Z.ltb_spec (Z.of_nat (length l) + i) (Z.of_nat (length l))); [|lia].
  reflexivity.
Qed.

Lemma index_below {A} (l : list A) (i : Z) :
  i < - Z.of_nat (length l) -> index l i = None.
Proof.
  intros Hi. unfold index, index_pos.
  destruct (Z.leb_spec 0 i); [lia|].
  destruct (Z.leb_spec (- Z.of_nat (length l)) i); [lia|].
  by rewrite andb_false_r.
Qed.

Lemma comment_text_negative (i : Z) (c : Ctx) :
  - Z.of_nat (length (comments_block c)) <= i < 0 ->
  comment_text (NInt i) c
    = comment_text (NInt (Z.of_nat (length (comments_block c)) + i)) c.
Proof.
  intros Hi. unfold comment_text. mrun.
  destruct (Z.ltb_spec i (Z.of_nat (length (comments_block c)))); [|lia].
  destruct (Z.ltb_spec (Z.of_nat (length (comments_block c)) + i)
              (Z.of_nat (length (comments_block c)))); [|lia].
  by rewrite index_negative.
Qed.

Lemma comment_text_below (i : Z) (c : Ctx) :
  i < - Z.of_nat (length (comments_block c)) ->
  comment_text (NInt i) c = Raised.
Proof.
  intros Hi. unfold comment_text. mrun.
  destruct (Z.ltb_spec i (Z.of_nat (length (comments_block c)))); [|lia].
  by rewrite index_below.
Qed.

(** X9. The comment a command points at, by the range of its index: at or
    past the end of the table the text is [<comment missing>]; a negative
    index counts from the end of the table, as Python's does; an index
    below minus the length raises. *)
Theorem comment_index_bounds (x : node) (i : Z) (prevline : bool) (c : Ctx) :
  let n := Z.of_nat (length (comments_block c)) in
  (n <= i ->
   comment [x; NInt i] prevline c
     = Ok ((if prevline then "--^" else "--") +:+ "<comment missing>", c))
  /\ (- n <= i < 0 ->
      comment [x; NInt i] prevline c = comment [x; NInt (n + i)] prevline c)
  /\ (i < - n -> comment [x; NInt i] prevline c = Raised).
Proof.
  intros n. split; [|split]; intros Hi; unfold comment;
    cbn [lookup list_lookup]; mrun.
  - rewrite (bind_run _ _ _ _ _ (comment_text_missing i c Hi)).
    by destruct prevline.
  - unfold bind at 1 3. by rewrite comment_text_negative.
  - unfold bind at 1. by rewrite comment_text_below.
Qed.

Lemma comment_text_found (idx : node) (c : Ctx) (t : string) (c' : Ctx) :
  comment_text idx c = Ok (Some t, c') -> t ∈ comments_block c.
Proof.
  unfold comment_text. mrun. destruct idx as [|i| |]; try discriminate.
  destruct (i <? _); [|discriminate]. intros H. minv.
  match goal with H : index _ _ = Some _ |- _ => revert H end.
  unfold index. destruct (index_pos _ _); [|discriminate].
  apply list_elem_of_lookup_2.
Qed.

Lemma get_next_cmds_tags_loop_tags (cmds : list node) : forall acc c tags c',
  get_next_cmds_tags_loop acc cmds c = Ok (tags, c') ->
  Forall (tag_of (comments_block c)) acc ->
  Forall (tag_of (comments_block c)) tags.
Proof.
  induction cmds as [|cmd cmds IH]; intros acc c tags c' H Hacc;
    cbn [get_next_cmds_tags_loop] in H.
  - by minv.
  - destruct cmd as [| | |l]; try by minv.
    minv. destruct (str_in _ _); [|by eapply IH].
    minv.
    match goal with H : comment_text _ _ = Ok _ |- _ =>
      pose proof (comment_text_ctx _ _ _ _ H) as ->;
      rename H into Htext
    end.
    destruct a1 as [t|]; [|by eapply IH].
    apply comment_text_found in Htext.
    destruct (startswith (strip t) "[") eqn:Hb; [|by eapply IH].
    eapply IH; [eassumption|].
    apply Forall_app; split; [done|].
    apply Forall_singleton. split; [done|]. by exists t.
Qed.

(** X10. Looking ahead for tags leaves the context as it is, and every tag
    found is the stripped text of a comment of the table that starts with
    a bracket. *)
Theorem tags_are_bracketed_comments (cmds : list node) (c : Ctx)
    (tags : list string) (c' : Ctx) :
  get_next_cmds_tags cmds c = Ok (tags, c') ->
  c' = c /\ Forall (tag_of (comments_block c)) tags.
Proof.
  intros H. split; [by apply get_next_cmds_tags_ctx in H|].
  by apply (get_next_cmds_tags_loop_tags cmds [] c tags c').
Qed.

(** ** Built-in arguments and unknown commands ([opex_func], [transpile_command]) *)

Lemma pad_args_fold (setargs : gmap string string) (names : list string) :
  forall mainargs,
  fold_left
    (fun mainargs argname =>
       match setargs !! argname with
       | Some v => [v] ++ mainargs
       | None => ["nil"] ++ mainargs
       end)
    (rev names) mainargs
  = (slot_text setargs <$> names) ++ mainargs.
Proof.
  induction names as [|n names IH]; intros mainargs; [reflexivity|].
  cbn [rev]. rewrite fold_left_app, IH. cbn [fold_left fmap list_fmap].
  unfold slot_text at 3. by destruct (setargs !! n).
Qed.

(** X11. The arguments of a built-in call: the named slots of the built-in
    in the order [funcargs] declares them, each filled with the text set
    for it or with [nil], then the positional arguments in their order. *)
Theorem pad_args_named_first (op : string) (setargs : gmap string string)
    (mainargs : list string) :
  pad_args op setargs mainargs
    = (slot_text setargs <$> default [] (funcargs !! op)) ++ mainargs.
Proof.
  unfold pad_args. destruct (funcargs !! op) as [names|]; [|reflexivity].
  apply pad_args_fold.
Qed.

(** X12. A command whose code is not a recognized one is not an error of the
    run: [transpile_command] appends one diagnostic that ends with the
    code, emits a comment line in place of the command, and returns. *)
Theorem unknown_command_soft_error (tile_ids : gmap string Z) (rec : Rec)
    (a : addr) (o : string) (args next : list node) (tags : list string)
    (c : Ctx) :
  o ∉ command_codes ->
  get_next_cmds_tags next c = Ok (tags, c) ->
  transpile_command tile_ids rec a (NStr o :: args) next c
    = Ok (gi_of c +:+ unknown_command_text o,
          with_error ("unknown command code: " +:+ o) c).
Proof.
  intros Hunk Htags. unfold command_codes in Hunk.
  rewrite !elem_of_app in Hunk.
  apply Decidable.not_or in Hunk as [H1 Hunk].
  apply Decidable.not_or in Hunk as [H2 H3].
  rewrite !not_elem_of_cons in H1.
  destruct H1 as (?&?&?&?&?&?&?&?&?&?&?&?&?&?&?&?&_).
  unfold transpile_command. cbn [lookup list_lookup]. mrun.
  rewrite (bind_run _ _ _ _ _ Htags).
  rewrite !bool_decide_eq_false_2 by done.
  reflexivity.
Qed.

(** ** Blank handlers and block indices ([transpile_event]) *)

Lemma tags_of_blank (l : list node) (acc : list string) (c : Ctx) :
  Forall blank l -> get_next_cmds_tags_loop acc l c = Ok (acc, c).
Proof.
  induction 1 as [|x l Hx _ IH]; [reflexivity|].
  cbn [get_next_cmds_tags_loop].
  destruct x as [| | |[|[h| | |] rest]]; try done.
  cbn [lookup list_lookup]. mrun. cbn [blank] in Hx. subst h.
  unfold str_in. bd. exact IH.
Qed.

Lemma blank_decoration (x : node) : blank x -> decoration x.
Proof.
  destruct x as [| | |[|[h| | |] rest]]; try done.
  cbn. intros ->. set_solver.
Qed.

Lemma blank_step (tile_ids : gmap string Z) (rec : Rec) (p i : nat) (c : Ctx)
    (commands : list node) :
  blocks c !! p = Some commands -> Forall blank commands ->
  (i < length commands)%nat ->
  transpile_nth tile_ids rec p i c = Ok (EmptyString, c).
Proof.
  intros Hp Hblank Hi.
  destruct (lookup_lt_is_Some_2 commands i Hi) as [x Hx].
  pose proof (Forall_lookup_1 _ _ _ _ Hblank Hx) as Hb.
  unfold transpile_nth. mrun. rewrite Hp. mrun. rewrite Hx. mrun.
  destruct x as [| | |[|[h| | |] rest]]; try done.
  cbn [blank] in Hb. subst h.
  unfold transpile_command. cbn [lookup list_lookup]. mrun.
  unfold get_next_cmds_tags.
  rewrite (bind_run _ _ _ _ _ (tags_of_blank _ [] c (Forall_drop _ _ _ Hblank))).
  by bd.
Qed.

Lemma concat_str_empty {A} (l : list A) :
  concat_str ((fun _ => EmptyString) <$> l) = EmptyString.
Proof. induction l as [|x l IH]; [reflexivity|]. exact IH. Qed.

Lemma blank_block (tile_ids : gmap string Z) (rec : Rec) (p : nat) (c : Ctx)
    (commands : list node) :
  blocks c !! p = Some commands -> Forall blank commands ->
  for_concat (transpile_nth tile_ids rec p) (seq 0 (length commands)) c
    = Ok (EmptyString, c).
Proof.
  intros Hp Hblank.
  destruct (for_concat_seq_run (transpile_nth tile_ids rec p)
              (fun _ cj => cj = c) (fun _ => EmptyString)
              (length commands) 0 c eq_refl) as (c' & Hrun & ->).
  - intros j cj Hj ->. exists c. split; [|done].
    apply (blank_step tile_ids rec p j c commands Hp Hblank). lia.
  - by rewrite Hrun, concat_str_empty.
Qed.

Lemma removelast_snoc {A} (l : list A) (x : A) : removelast (l ++ [x]) = l.
Proof. apply removelast_last. Qed.

(** X13. A handler whose block holds nothing but blank lines, or nothing at
    all, compiles to the head of the function and its [end]; the context
    it leaves is the one it was given, with the handler's comment table,
    event names and root object installed, and nothing registered. *)
Theorem blank_handler (tile_ids : gmap string Z) (n : nat)
    (evobj evname : string) (blockidx : Z) (evobjname : option string)
    (comments evnames : list string) (c : Ctx) (p : nat) (block : list node) :
  index_pos (blocks c) blockidx = Some p ->
  blocks c !! p = Some block ->
  Forall blank block ->
  transpile_event tile_ids (compiler tile_ids (S n)) evobj evname blockidx
    evobjname comments evnames c
  = Ok (handler_head evobj evname +:+ "end" +:+ nl,
        handler_ctx evobj evobjname comments evnames c).
Proof.
  intros Hidx Hp Hblank. unfold transpile_event, deref_block. mrun.
  rewrite Hidx. mrun. unfold push_evobj. mrun.
  cbn [compiler].
  unfold transpile_commands at 1, push_funccache. mrun.
  cbn [blocks set_funccache set_root_evobj set_evobjs set_comments_block
       set_self_evnames].
  rewrite Hp. mrun.
  erewrite bind_run;
    [|apply (blank_block tile_ids _ p _ block); [exact Hp|exact Hblank]].
  unfold get_funccache, pop_funccache, pop_evobj. mrun.
  cbn [funccache set_funccache set_root_evobj set_evobjs set_comments_block
       set_self_evnames]. rewrite last_snoc. mrun.
  rewrite elements_empty. unfold sorted. cbn [prepend_cached fold_left].
  cbn [blocks set_funccache set_root_evobj set_evobjs set_comments_block
       set_self_evnames]. rewrite Hp. mrun.
  rewrite (bind_run _ _ _ _ _
             (undecorated_decorations block _
                (Forall_impl _ _ _ Hblank blank_decoration))).
  mrun. unfold ret. f_equal. f_equal.
  unfold handler_ctx. destruct c. cbn. by rewrite !removelast_snoc.
Qed.

(** X14. The block a handler names, by the range of its index: outside the
    table, on either side, [transpile_event] raises; a negative index in
    range counts from the end of the table, as Python's does. *)
Theorem handler_block_index (tile_ids : gmap string Z) (rec : Rec)
    (evobj evname : string) (blockidx : Z) (evobjname : option string)
    (comments evnames : list string) (c : Ctx) :
  let n := Z.of_nat (length (blocks c)) in
  (blockidx < - n \/ n <= blockidx ->
   transpile_event tile_ids rec evobj evname blockidx evobjname comments
     evnames c = Raised)
  /\ (- n <= blockidx < 0 ->
      transpile_event tile_ids rec evobj evname blockidx evobjname comments
        evnames c
      = transpile_event tile_ids rec evobj evname (n + blockidx) evobjname
          comments evnames c).
Proof.
  intros n. split; intros Hi.
  - unfold transpile_event, deref_block. mrun.
    replace (index_pos (blocks c) blockidx) with (@None nat); [done|].
    unfold index_pos. fold n.
    destruct (Z.leb_spec 0 blockidx), (Z.ltb_spec blockidx n),
      (Z.ltb_spec blockidx 0), (Z.leb_spec (- n) blockidx); try done; lia.
  - unfold transpile_event, deref_block. mrun.
    replace (index_pos (blocks c) (n + blockidx))
      with (index_pos (blocks c) blockidx); [done|].
    unfold index_pos. fold n.
    destruct (Z.leb_spec 0 blockidx), (Z.ltb_spec blockidx n),
      (Z.ltb_spec blockidx 0), (Z.leb_spec (- n) blockidx),
      (Z.leb_spec 0 (n + blockidx)), (Z.ltb_spec (n + blockidx) n);
      try done; lia.
Qed.

(** ** Mimic, special names and routed calls ([op_mimic], [remap_special_varname], [op_call]) *)

Lemma set_indent_back (c : Ctx) (d : Z) :
  set_indent (indent c + d + - d) (set_indent (indent c + d) c) = c.
Proof. destruct c. unfold set_indent. cbn. f_equal. lia. Qed.

Lemma op_mimic_run (tile_ids : gmap string Z) (rec : Rec) (a : addr)
    (cmd cmd' : list node) (optimized : bool) (target : node) (v : string)
    (c c0 : Ctx) :
  optimize_name_ref tile_ids a cmd 1 c = Ok ((optimized, cmd'), c0) ->
  cmd' !! 1%nat = Some target ->
  (forall c1, rec_decode_rvalue rec target c1 = Ok (v, c1)) ->
  op_mimic tile_ids rec a cmd c
  = Ok (mimic_text (gi_inside c0) (gi_of c0)
          (if optimized || match target with NInt _ => true | _ => false end
           then mimic_by_id v else mimic_by_name v), c0).
Proof.
  intros Hopt Htarget Hdecode. unfold op_mimic.
  rewrite (bind_run _ _ _ _ _ Hopt). cbv beta iota.
  assert ((if optimized then ret true
           else c1 <- lookup_or_raise (cmd' !! 1%nat) ;;
                ret (match c1 with NInt _ => true | _ => false end)) c0
          = Ok (optimized || match target with NInt _ => true | _ => false end,
                c0)) as Hby.
  { destruct optimized; [reflexivity|]. rewrite Htarget. by mrun. }
  rewrite (bind_run _ _ _ _ _ Hby). mrun. rewrite Htarget. mrun.
  rewrite (bind_run _ _ _ _ _ (Hdecode _)). mrun.
  unfold ret. f_equal. f_equal.
  - cbn [indent set_indent].
    replace (indent c0 + 1 + -1) with (indent c0) by lia.
    unfold mimic_text, gi_inside, gi_of. cbn [indent set_indent].
    destruct (_ || _); reflexivity.
  - apply (set_indent_back c0 1).
Qed.

(** X15. How a [mimic] finds the script of its target.  A tile name that is
    in the tile table is looked up in [__pulp.tiles] by its id, and the
    command in the block table gets the marker in place of the name; an
    integer is looked up in [__pulp.tiles] too; a name that is not in the
    table goes through [getScript], quoted.  A command that already
    carries the marker - the block table compiled a second time - goes
    through [getScript] with the marker's text, not through the tile
    table. *)
Theorem mimic_paths (tile_ids : gmap string Z) (n : nat) (a : addr) (x : node)
    (more : list node) (c : Ctx) :
  let rec := compiler tile_ids (S n) in
  (forall name id, tile_ids !! name = Some id ->
     op_mimic tile_ids rec a (x :: NStr name :: more) c
     = Ok (mimic_text (gi_inside c) (gi_of c)
             (mimic_by_id (marker_text id name)),
           store_operand a 1 (optimized_id id name) c))
  /\ (forall z,
        op_mimic tile_ids rec a (x :: NInt z :: more) c
        = Ok (mimic_text (gi_inside c) (gi_of c) (mimic_by_id (str_of_Z z)), c))
  /\ (forall name, tile_ids !! name = None ->
        op_mimic tile_ids rec a (x :: NStr name :: more) c
        = Ok (mimic_text (gi_inside c) (gi_of c)
                (mimic_by_name (dq +:+ escape_string name +:+ dq)), c))
  /\ (forall id name,
        op_mimic tile_ids rec a (x :: optimized_id id name :: more) c
        = Ok (mimic_text (gi_inside c) (gi_of c)
                (mimic_by_name (marker_text id name)), c)).
Proof.
  intros rec. split; [|split; [|split]].
  - intros name id Hid.
    apply (op_mimic_run tile_ids rec a _ (x :: optimized_id id name :: more)
             true (optimized_id id name) (marker_text id name) c
             (store_operand a 1 (optimized_id id name) c)).
    + unfold optimize_name_ref. cbn [lookup list_lookup]. by rewrite Hid.
    + reflexivity.
    + intros c1. apply decode_optimized_id.
  - intros z.
    by apply (op_mimic_run tile_ids rec a _ (x :: NInt z :: more) false
                (NInt z) (str_of_Z z) c c).
  - intros name Hid.
    apply (op_mimic_run tile_ids rec a _ (x :: NStr name :: more) false
             (NStr name) (dq +:+ escape_string name +:+ dq) c c); [|done..].
    unfold optimize_name_ref. cbn [lookup list_lookup]. by rewrite Hid.
  - intros id name.
    apply (op_mimic_run tile_ids rec a _ (x :: optimized_id id name :: more)
             false (optimized_id id name) (marker_text id name) c c);
      [done..|].
    intros c1. apply decode_optimized_id.
Qed.

Lemma remap_unlisted (v : string) (c : Ctx) :
  v ∉ special_names -> remap_special_varname v c = Ok (v, c).
Proof.
  intros H. unfold special_names in H. rewrite !not_elem_of_cons in H.
  unfold remap_special_varname.
  rewrite !bool_decide_eq_false_2 by tauto. reflexivity.
Qed.

Lemma same_variables_remap (v : string) :
  preserves same_variables (remap_special_varname v).
Proof.
  apply pv_remap; unfold same_variables.
  - done.
  - intros c1 c2 c3 [? ?] [? ?]. split; congruence.
  - done.
Qed.

(** X5. A name with a dot, or one that starts with [__PTLE_], is not a
    variable of the game: reading it registers nothing and counts nothing;
    it is replaced by what [remap_special_varname] has for it, and goes
    into the Lua text as it is written when that has nothing. *)
Theorem special_name_read (x : node) (v : string) (more : list node) (c : Ctx) :
  contains_char "." v = true \/ startswith v "__PTLE_" = true ->
  pingvar v c = Ok (v, c)
  /\ ex_get (x :: NStr v :: more) c = remap_special_varname v c
  /\ (forall s c', ex_get (x :: NStr v :: more) c = Ok (s, c') ->
        vars c' = vars c /\ var_usage c' = var_usage c)
  /\ (v ∉ special_names -> ex_get (x :: NStr v :: more) c = Ok (v, c)).
Proof.
  intros Hv.
  assert (pingvar v c = Ok (v, c)) as Hping.
  { unfold pingvar. destruct Hv as [-> | Hv]; [done|].
    rewrite Hv. by destruct (contains_char "." v). }
  assert (ex_get (x :: NStr v :: more) c = remap_special_varname v c) as Hget.
  { unfold ex_get. cbn [lookup list_lookup]. mrun.
    by rewrite (bind_run _ _ _ _ _ Hping). }
  repeat split; try done.
  - rewrite Hget in H. by apply same_variables_remap in H as [? ?].
  - rewrite Hget in H. by apply same_variables_remap in H as [? ?].
  - intros Hun. rewrite Hget. by apply remap_unlisted.
Qed.

Lemma bind_ext {A B} (m : M A) (k k' : A -> M B) (c : Ctx) :
  (forall a c1, k a c1 = k' a c1) -> bind m k c = bind m k' c.
Proof. intros H. unfold bind. by destruct (m c) as [[a c1]| | |]. Qed.

Lemma for_fold_app {A B} (f : B -> A -> M B) (l1 l2 : list A) : forall acc c,
  for_fold f acc (l1 ++ l2) c
  = bind (for_fold f acc l1) (fun acc' => for_fold f acc' l2) c.
Proof.
  induction l1 as [|x l1 IH]; intros acc c; [reflexivity|].
  cbn [app for_fold]. rewrite bind_assoc. apply bind_ext. intros a c1. apply IH.
Qed.

Lemma script_tag_parts (src : string) :
  startswith ("[SCRIPT:" +:+ src +:+ "]") "[SCRIPT:" = true
  /\ drop_last (drop_chars 8 ("[SCRIPT:" +:+ src +:+ "]")) = src.
Proof.
  split.
  - unfold startswith. cbn. by destruct (src +:+ "]").
  - change (drop_chars 8 ("[SCRIPT:" +:+ src +:+ "]")) with (src +:+ "]").
    apply drop_last_snoc.
Qed.

(** X16. A call of a token name that carries one [[SCRIPT:src]] tag, where
    the dispatch object is not [__self]: the callee is the function filed
    for the tag, whatever else would have been called, with or without
    [[DIRECT]]; the tag is registered and is added to the comment. *)
Theorem script_tag_dispatch (rec : Rec) (x : node) (t : string)
    (more : list node) (pre post : list string) (src : string) (c : Ctx)
    (ev : string) :
  istoken (NStr t) = true ->
  last (evobjs c) = Some ev ->
  ev <> "__self" ->
  no_script_tag pre ->
  no_script_tag post ->
  let tag := "[SCRIPT:" +:+ src +:+ "]" in
  let tags := pre ++ tag :: post in
  let comment :=
    if bool_decide ("[DIRECT]" ∈ tags) then call_comment t +:+ " [DIRECT]"
    else call_comment t in
  exists c',
    add_script_tag src t c = Ok (script_tag_id src t, c')
    /\ op_call rec (x :: NStr t :: more) tags c
       = Ok (call_text (script_tag_id src t) t (comment +:+ " " +:+ tag), c').
Proof.
  intros Htok Hev Hne Hpre Hpost tag tags comment.
  destruct (add_script_tag_returns src t c) as (c' & Hadd).
  exists c'. split; [exact Hadd|].
  destruct (script_tag_parts src) as [Hstart Hsrc]. fold tag in Hstart, Hsrc.
  assert (forall A (k : string -> M A), bind get_evobj k c = k ev c) as Hget.
  { intros A k. by rewrite (bind_run _ _ _ _ _ (get_evobj_run ev c Hev)). }
  assert (forall fnbase,
    for_fold (op_call_tag (dq +:+ t +:+ dq)) (fnbase, comment) tags c
    = Ok ((script_tag_id src t, comment +:+ " " +:+ tag), c')) as Htags.
  { intros fnbase. unfold tags. rewrite for_fold_app.
    rewrite (bind_run _ _ _ _ _ (op_call_tags_none _ pre _ c Hpre)).
    cbn [for_fold]. unfold op_call_tag at 1. rewrite Hstart, Hsrc, unquote.
    mrun. rewrite (bind_run _ _ _ _ _ Hadd). mrun.
    by apply op_call_tags_none. }
  unfold op_call. cbn [lookup list_lookup]. mrun. rewrite Htok.
  unfold comment in *. fold tags.
  destruct (bool_decide ("[DIRECT]" ∈ tags));
    repeat (mrun1 || rewrite Hget);
    rewrite (bool_decide_eq_false_2 _ Hne); mrun; rewrite unquote;
    by rewrite (bind_run _ _ _ _ _ (Htags _)).
Qed.

(** ** The shape of the text ([transpile_commands]) *)

Lemma complete_lines_app (s t : string) :
  complete_lines s -> complete_lines t -> complete_lines (s +:+ t).
Proof.
  intros Hs [->|[u ->]].
  - by rewrite app_str_nil_r.
  - right. exists (s +:+ u). by rewrite app_str_assoc.
Qed.

Lemma complete_lines_line (g s : string) : complete_lines (g +:+ s +:+ nl).
Proof. right. exists (g +:+ s). by rewrite app_str_assoc. Qed.

Lemma complete_lines_line4 (g a b d : string) :
  complete_lines (g +:+ a +:+ b +:+ d +:+ nl).
Proof. right. exists (g +:+ a +:+ b +:+ d). by rewrite !app_str_assoc. Qed.

Lemma complete_lines_for_concat {A} (f : A -> M string) (l : list A) :
  (forall x c s c', f x c = Ok (s, c') -> complete_lines s) ->
  forall c s c', for_concat f l c = Ok (s, c') -> complete_lines s.
Proof.
  intros Hf. induction l as [|x l IH]; intros c s c' H; cbn [for_concat] in H.
  - minv. by left.
  - minv. apply complete_lines_app; eauto.
Qed.

Lemma complete_lines_command (tile_ids : gmap string Z) (rec : Rec) (a : addr)
    (cmd next : list node) (c : Ctx) (s : string) (c' : Ctx) :
  transpile_command tile_ids rec a cmd next c = Ok (s, c') ->
  complete_lines s.
Proof.
  intros H. unfold transpile_command in H. minv.
  match goal with x : node |- _ => destruct x; minv end.
  repeat match type of H with
  | (if ?b then _ else _) _ = Ok _ => destruct b
  end;
  first [ unfold line in H; minv; apply complete_lines_line
        | minv; by left
        | minv; apply complete_lines_line4 ].
Qed.

Lemma complete_lines_prepend (g : string) (decls : list string) : forall s,
  complete_lines s -> complete_lines (prepend_cached g decls s).
Proof.
  unfold prepend_cached.
  induction decls as [|d decls IH]; intros s Hs; [exact Hs|].
  cbn [fold_left]. apply IH.
  replace (g +:+ d +:+ nl +:+ s) with ((g +:+ d +:+ nl) +:+ s)
    by (by rewrite !app_str_assoc).
  apply complete_lines_app; [apply complete_lines_line|exact Hs].
Qed.

Lemma transpile_commands_complete_lines (tile_ids : gmap string Z) (rec : Rec)
    (p : nat) (has_funccache : bool) (c : Ctx) (s : string) (c' : Ctx) :
  transpile_commands tile_ids rec p has_funccache c = Ok (s, c') ->
  complete_lines s.
Proof.
  intros H. unfold transpile_commands in H. minv.
  match goal with H : for_concat _ _ _ = Ok (?body, _) |- _ =>
    assert (complete_lines body) as Hbody
  end.
  { eapply complete_lines_for_concat; [|eassumption].
    intros i ci si ci' Hi. unfold transpile_nth in Hi. minv.
    match goal with x : node |- _ => destruct x; minv; try by left end.
    by eapply complete_lines_command. }
  destruct has_funccache; minv; [|exact Hbody].
  by apply complete_lines_prepend.
Qed.

(** X17. The text of a block is made of complete lines: it is empty or it
    ends with a newline, with or without the declarations of a function
    scope in front, whatever the commands of the block are. *)
Theorem block_text_complete_lines (tile_ids : gmap string Z) (rec : Rec)
    (p : nat) (has_funccache : bool) (c : Ctx) (s : string) (c' : Ctx) :
  transpile_commands tile_ids rec p has_funccache c = Ok (s, c') ->
  s = EmptyString \/ exists t, s = t +:+ nl.
Proof. apply transpile_commands_complete_lines. Qed.

(** X22. The text of a handler is the head of the function, the text of
    its block, and [end] on a line of its own; the text of the block is
    made of complete lines, so the [end] never lands on the last line of
    the body. *)
Theorem handler_text_shape (tile_ids : gmap string Z) (rec : Rec)
    (evobj evname : string) (blockidx : Z) (evobjname : option string)
    (comments evnames : list string) (c : Ctx) (s : string) (c' : Ctx) :
  transpile_event tile_ids rec evobj evname blockidx evobjname comments
    evnames c = Ok (s, c') ->
  exists body,
    s = handler_head evobj evname +:+ body +:+ "end" +:+ nl
    /\ (body = EmptyString \/ exists t, body = t +:+ nl).
Proof.
  intros H. unfold transpile_event in H. minv.
  match goal with H : transpile_commands _ _ _ _ _ = Ok (?body, _) |- _ =>
    exists body; split; [reflexivity|];
    by apply transpile_commands_complete_lines in H
  end.
Qed.

(** * The further properties at concrete programs *)

Ltac absent := apply (bool_decide_unpack _); vm_compute; exact I.

(** ** X2 *)

Lemma sanitize_varname_faithful_witness :
  sanitize_varname "score" = "score"
  /\ is_id (sanitize_varname "high score") = is_id "high score"
  /\ sanitize_varname "high score" <> sanitize_varname "high_score".
Proof.
  destruct (sanitize_varname_faithful "score" "score") as (Hid & _).
  destruct (sanitize_varname_faithful "high score" "high_score")
    as (_ & Hkeep & Hinj).
  split; [apply Hid; reflexivity|split; [exact Hkeep|apply Hinj; discriminate]].
Defined.

(** ** X3 *)

Lemma registered_names_distinct_witness :
  exists s1 s2 c1' c2',
    pingvar "__x" (init_ctx []) = Ok (s1, c1')
    /\ pingvar "____x" (init_ctx []) = Ok (s2, c2')
    /\ s1 <> s2.
Proof.
  apply (registered_names_distinct "__x" "____x" (init_ctx []) (init_ctx [])).
  discriminate.
Defined.

(** ** X4 *)

Lemma ordinary_variable_read_witness :
  ex_get [NStr "get"; NStr "__score"] ex_tell_ctx = pingvar "__score" ex_tell_ctx
  /\ (exists c1, pingvar "__score" ex_tell_ctx = Ok (lvalue_text "__score", c1)
        /\ funccache c1 = funccache ex_tell_ctx)
  /\ forall t, lvalue_text "__score" = "__" +:+ t -> startswith t "__" = true.
Proof.
  apply (ordinary_variable_read (NStr "get") "__score" [] ex_tell_ctx).
  split; reflexivity.
Defined.

(** ** X5 *)

Lemma special_name_read_witness :
  pingvar "event.foo" ex_tell_ctx = Ok ("event.foo", ex_tell_ctx)
  /\ ex_get [NStr "get"; NStr "event.foo"] ex_tell_ctx
     = Ok ("event.foo", ex_tell_ctx)
  /\ ex_get [NStr "get"; NStr "__PTLE_V_DAS"] ex_tell_ctx
     = remap_special_varname "__PTLE_V_DAS" ex_tell_ctx.
Proof.
  destruct (special_name_read (NStr "get") "event.foo" [] ex_tell_ctx)
    as (Hping & _ & _ & Hraw); [left; reflexivity|].
  destruct (special_name_read (NStr "get") "__PTLE_V_DAS" [] ex_tell_ctx)
    as (_ & Hget & _); [right; reflexivity|].
  split; [exact Hping|split; [apply Hraw; absent|exact Hget]].
Defined.

(** ** X6 *)

Lemma add_script_tag_registers_witness :
  exists c',
    add_script_tag "side-door" "on tap" (init_ctx [])
      = Ok ("__OPTTAG__side_door_on_tap", c')
    /\ script_tags c' !! "__OPTTAG__side_door_on_tap"
       = Some ("side-door", "on tap")
    /\ script_tags c' !! "__OPTTAG__other" = None
    /\ add_script_tag "side-door" "on tap" c'
       = Ok ("__OPTTAG__side_door_on_tap", c').
Proof.
  destruct (add_script_tag_registers "side-door" "on tap" (init_ctx []))
    as (c' & Hrun & Hown & Hother & Hagain & _).
  exists c'. split; [exact Hrun|split; [exact Hown|split; [|exact Hagain]]].
  rewrite Hother; [reflexivity|discriminate].
Defined.

(** ** X8 *)

Lemma commentconfigure_stores_witness :
  commentconfigure "PTL" (" smooth " +:+ "=" +:+ " 0 ") (init_ctx [])
    = Ok (tt, set_ext_ptl (<[strip " smooth " := ptl_of (strip " 0 ")]>
                             (ext_ptl (init_ctx []))) (init_ctx []))
  /\ commentconfigure "PDXINFO" (" smooth " +:+ "=" +:+ " 0 ") (init_ctx [])
     = Ok (tt, set_ext_pdxinfo (<[strip " smooth " := strip " 0 "]>
                                  (ext_pdxinfo (init_ctx []))) (init_ctx []))
  /\ commentconfigure "LUA" (" smooth " +:+ "=" +:+ " 0 ") (init_ctx [])
     = Ok (tt, init_ctx []).
Proof.
  destruct (commentconfigure_stores "LUA" " smooth " " 0 " (init_ctx []))
    as (Hptl & Hpdx & Hnone); [reflexivity..|].
  split; [exact Hptl|split; [exact Hpdx|apply Hnone; discriminate]].
Defined.

(** ** X9 *)

Lemma comment_index_bounds_witness :
  comment [NStr "#"; NInt 2] true ex_comments_ctx
    = Ok ("--^" +:+ "<comment missing>", ex_comments_ctx)
  /\ comment [NStr "#"; NInt (-1)] false ex_comments_ctx
     = comment [NStr "#"; NInt (Z.of_nat (length (comments_block ex_comments_ctx)) + -1)]
         false ex_comments_ctx
  /\ comment [NStr "#"; NInt (-3)] false ex_comments_ctx = Raised.
Proof.
  destruct (comment_index_bounds (NStr "#") 2 true ex_comments_ctx)
    as (Hpast & _).
  destruct (comment_index_bounds (NStr "#") (-1) false ex_comments_ctx)
    as (_ & Hwrap & _).
  destruct (comment_index_bounds (NStr "#") (-3) false ex_comments_ctx)
    as (_ & _ & Hbelow).
  split; [apply Hpast; vm_compute; discriminate|].
  split; [apply Hwrap; vm_compute; split; [discriminate|reflexivity]|].
  apply Hbelow. reflexivity.
Defined.

(** ** X10 *)

Lemma tags_are_bracketed_comments_witness :
  exists tags c',
    get_next_cmds_tags ex_commented ex_comments_ctx = Ok (tags, c')
    /\ tags = ["[DIRECT]"]
    /\ c' = ex_comments_ctx
    /\ Forall (tag_of (comments_block ex_comments_ctx)) tags.
Proof.
  eexists _, _. split; [run|]. split; [reflexivity|].
  apply (tags_are_bracketed_comments ex_commented ex_comments_ctx).
  run.
Defined.

(** ** X12 *)

Lemma unknown_command_soft_error_witness :
  transpile_command ∅ (compiler ∅ 0) (0%nat, 0%nat) [NStr "frobnicate"; NInt 1]
    [] (init_ctx [])
  = Ok (gi_of (init_ctx []) +:+ unknown_command_text "frobnicate",
        with_error ("unknown command code: " +:+ "frobnicate") (init_ctx [])).
Proof.
  apply (unknown_command_soft_error ∅ (compiler ∅ 0) (0%nat, 0%nat)
           "frobnicate" [NInt 1] [] [] (init_ctx [])).
  - absent.
  - reflexivity.
Defined.

(** ** X13 *)

Lemma blank_handler_witness :
  transpile_event ∅ (compiler ∅ 1) "player" "update" 0 None [] ["update"]
    (init_ctx [ex_blank_block])
  = Ok (handler_head "player" "update" +:+ "end" +:+ nl,
        handler_ctx "player" None [] ["update"] (init_ctx [ex_blank_block])).
Proof.
  apply (blank_handler ∅ 0 "player" "update" 0 None [] ["update"]
           (init_ctx [ex_blank_block]) 0 ex_blank_block).
  - reflexivity.
  - reflexivity.
  - repeat constructor.
Defined.

(** ** X14 *)

Lemma handler_block_index_witness :
  transpile_event ∅ (compiler ∅ 1) "player" "update" 1 None [] []
    (init_ctx [ex_blank_block]) = Raised
  /\ transpile_event ∅ (compiler ∅ 1) "player" "update" (-1) None [] []
       (init_ctx [ex_blank_block])
     = transpile_event ∅ (compiler ∅ 1) "player" "update"
         (Z.of_nat (length (blocks (init_ctx [ex_blank_block]))) + -1) None
         [] [] (init_ctx [ex_blank_block]).
Proof.
  destruct (handler_block_index ∅ (compiler ∅ 1) "player" "update" 1 None []
              [] (init_ctx [ex_blank_block])) as (Hout & _).
  destruct (handler_block_index ∅ (compiler ∅ 1) "player" "update" (-1) None
              [] [] (init_ctx [ex_blank_block])) as (_ & Hwrap).
  split; [apply Hout; right; vm_compute; discriminate|].
  apply Hwrap. vm_compute. split; [discriminate|reflexivity].
Defined.

(** ** X15 *)

Lemma mimic_paths_witness :
  let c := init_ctx [ex_mimic_handler] in
  let a : addr := (0%nat, 2%nat) in
  let rec := compiler ex_tiles 1 in
  op_mimic ex_tiles rec a [NStr "mimic"; NStr "wall"] c
    = Ok (mimic_text (gi_inside c) (gi_of c) (mimic_by_id (marker_text 5 "wall")),
          store_operand a 1 (optimized_id 5 "wall") c)
  /\ op_mimic ex_tiles rec a [NStr "mimic"; NInt 3] c
     = Ok (mimic_text (gi_inside c) (gi_of c) (mimic_by_id (str_of_Z 3)), c)
  /\ op_mimic ex_tiles rec a [NStr "mimic"; NStr "door"] c
     = Ok (mimic_text (gi_inside c) (gi_of c)
             (mimic_by_name (dq +:+ escape_string "door" +:+ dq)), c)
  /\ op_mimic ex_tiles rec a [NStr "mimic"; optimized_id 5 "wall"] c
     = Ok (mimic_text (gi_inside c) (gi_of c)
             (mimic_by_name (marker_text 5 "wall")), c).
Proof.
  intros c a rec.
  destruct (mimic_paths ex_tiles 0 a (NStr "mimic") [] c)
    as (Hknown & Hint & Hunknown & Hagain).
  split; [apply Hknown; reflexivity|].
  split; [apply Hint|].
  split; [apply Hunknown; reflexivity|apply Hagain].
Defined.

(** ** X16 *)

Lemma script_tag_dispatch_witness :
  exists c',
    add_script_tag "door" "foo" ex_tell_ctx
      = Ok (script_tag_id "door" "foo", c')
    /\ op_call (compiler ∅ 0) ex_call_foo
         (["[DIRECT]"] ++ ("[SCRIPT:" +:+ "door" +:+ "]") :: []) ex_tell_ctx
       = Ok (call_text (script_tag_id "door" "foo") "foo"
               ((call_comment "foo" +:+ " [DIRECT]") +:+ " "
                +:+ ("[SCRIPT:" +:+ "door" +:+ "]")), c').
Proof.
  apply (script_tag_dispatch (compiler ∅ 0) (NStr "call") "foo" []
           ["[DIRECT]"] [] "door" ex_tell_ctx "__actor.script").
  - reflexivity.
  - reflexivity.
  - discriminate.
  - repeat constructor.
  - constructor.
Defined.

(** ** X17 *)

Lemma block_text_complete_lines_witness :
  exists (s : string) (c' : Ctx),
    transpile_commands ∅ (compiler ∅ 1) 0 true (init_ctx [ex_reads_xy])
      = Ok (s, c')
    /\ (s = EmptyString \/ exists t, s = t +:+ nl).
Proof.
  eexists _, _. split; [run|].
  eapply (block_text_complete_lines ∅ (compiler ∅ 1) 0 true
            (init_ctx [ex_reads_xy])).
  run.
Defined.

(** ** X22 *)

Lemma handler_text_shape_witness :
  exists (s : string) (c' : Ctx),
    transpile_event ex_tiles (compiler ex_tiles 5) "player" "update" 0 None
      [] ["update"] (init_ctx ex_nested) = Ok (s, c')
    /\ exists body,
         s = handler_head "player" "update" +:+ body +:+ "end" +:+ nl
         /\ (body = EmptyString \/ exists t, body = t +:+ nl).
Proof.
  eexists _, _. split; [run|].
  eapply (handler_text_shape ex_tiles (compiler ex_tiles 5) "player" "update"
            0 None [] ["update"] (init_ctx ex_nested)).
  run.
Defined.

(** ** X18 *)

Lemma handler_restores_indent_witness :
  exists (s : string) (c' : Ctx),
    transpile_event ex_tiles (compiler ex_tiles 5) "player" "update" 0 None
      [] ["update"] (init_ctx ex_nested) = Ok (s, c')
    /\ indent c' = indent (init_ctx ex_nested)
    /\ gi_of c' = gi_of (init_ctx ex_nested).
Proof.
  eexists _, _. split; [run|].
  eapply (handler_restores_indent ex_tiles 5 "player" "update" 0 None []
            ["update"] (init_ctx ex_nested)).
  run.
Defined.

(** ** X19 *)

Lemma handler_mimic_records_witness :
  exists (s : string) (c' : Ctx),
    transpile_event ex_tiles (compiler ex_tiles 1) "player" "update" 0 None
      ["mimic the wall"] ["update"] (init_ctx [ex_mimic_handler]) = Ok (s, c')
    /\ (full_mimics c' = full_mimics (init_ctx [ex_mimic_handler])
        \/ exists target,
             full_mimics c'
             = full_mimics (init_ctx [ex_mimic_handler])
               ++ [("player", "update", target)]).
Proof.
  eexists _, _. split; [run|].
  eapply (handler_mimic_records ex_tiles 1 "player" "update" 0 None
            ["mimic the wall"] ["update"] (init_ctx [ex_mimic_handler])).
  run.
Defined.

(** ** X20 *)

Lemma handler_only_accumulates_witness :
  exists (s : string) (c' : Ctx),
    transpile_event ex_tiles (compiler ex_tiles 5) "player" "update" 0 None
      [] ["update"] (init_ctx ex_nested) = Ok (s, c')
    /\ errors (init_ctx ex_nested) `prefix_of` errors c'
    /\ vars (init_ctx ex_nested) ⊆ vars c'
    /\ (forall v, usage_count (init_ctx ex_nested) v <= usage_count c' v)
    /\ (forall k tag,
          script_tags (init_ctx ex_nested) !! k = Some tag ->
          script_tags c' !! k = Some tag).
Proof.
  eexists _, _. split; [run|].
  eapply (handler_only_accumulates ex_tiles 5 "player" "update" 0 None []
            ["update"] (init_ctx ex_nested)).
  run.
Defined.

(** ** X21 *)

Lemma handler_keeps_program_witness :
  exists (s : string) (c' : Ctx),
    transpile_event ex_tiles (compiler ex_tiles 5) "player" "update" 0 None
      [] ["update"] (init_ctx ex_nested) = Ok (s, c')
    /\ Forall2 (Forall2 (retargeted ex_tiles)) (blocks (init_ctx ex_nested))
         (blocks c').
Proof.
  eexists _, _. split; [run|].
  eapply (handler_keeps_program ex_tiles 5 "player" "update" 0 None []
            ["update"] (init_ctx ex_nested)).
  run.
Defined.
